(** * Lumi: span/offset model and highlight overlay engine

    A shallow embedding of the framework-independent core of the Lumi
    frontend: the highlight store ([shared/highlight_manager.ts]), the tag
    flattener ([components/lumi_span/lumi_span_utils.ts]), the per-character
    compositor ([components/lumi_span/lumi_span.ts]), the selection resolver
    ([shared/selection_utils.ts]) and the document index; then the collapse
    state of the answers ([shared/history_collapse_manager.ts]), the summary
    lookups ([shared/lumi_summary_maps.ts]), the highlight of the excerpt in
    the abstract ([components/lumi_doc/lumi_abstract.ts]), the grouping of
    the span summaries ([components/lumi_doc/content_summary.ts]) and the
    string utilities ([shared/string_utils.ts]).

    Conventions.
    - A JavaScript string is a [string]: the sequence of its code units
      (code units below 256; [length] is the JavaScript [.length]).
    - A JavaScript number used as an index or offset is a [Z].
    - A JavaScript object used as a dictionary and a [Map] are [gmap]s; an
      object spread [{...a, ...b}] is [b ∪ a] (stdpp's union keeps the left
      operand on a common key, the spread keeps the right one). A [Map]
      whose entries are read in insertion order is the list of its entries.
    - A regular expression is the matcher of its pattern, written out.
    - An object used as a set of names, such as the argument of [classMap],
      is the [gset] of the names it maps to [true].
    - A function that can throw a [TypeError] returns an [option]: [None]
      is the exception. *)

From Stdlib Require Import ZArith Lia Ascii String.
From stdpp Require Import gmap strings list fin_maps.

Set Warnings "-register-all".
Local Open Scope Z_scope.

(** ** Data model ([shared/lumi_doc.ts]) *)

Module LumiDoc.

Record Position := mkPosition { startIndex : Z; endIndex : Z }.

(** Modelled from the spec: the enumeration [InnerTagName] of
    [shared/lumi_doc.ts], which is not among the sources; the members are
    the ones the compositor, its tests and the stories use. *)
Inductive InnerTagName :=
| BOLD | ITALIC | UNDERLINE | A | CODE | MATH | MATH_DISPLAY
| REFERENCE | SPAN_REFERENCE | FOOTNOTE | CONCEPT.

(** [InnerTagMetadata = {[key: string]: string}]. The free-form metadata of
    a highlight has the same shape; an answer stored under the answer key
    is represented by its id. *)
Abbreviation InnerTagMetadata := (gmap string string).

(** [children?: InnerTag[]]: [None] is [undefined]. *)
Inductive InnerTag := mkInnerTag {
  tagName : InnerTagName;
  position : Position;
  metadata : InnerTagMetadata;
  children : option (list InnerTag)
}.

Record LumiSpan := mkLumiSpan {
  span_id : string;
  text : string;
  innerTags : list InnerTag
}.

Record Highlight := mkHighlight {
  color : string;
  spanId : string;
  hl_position : option Position;
  hl_metadata : option InnerTagMetadata
}.

Record LumiReference := mkLumiReference {
  ref_id : string;
  ref_span : LumiSpan
}.

Record LumiFootnote := mkLumiFootnote {
  note_id : string;
  note_span : LumiSpan
}.

End LumiDoc.

Export LumiDoc.

(** ** Highlight store ([shared/highlight_manager.ts]) *)

Module HighlightManager.

(** The two observable fields of [HighlightManagerBase]. *)
Record HighlightManagerBase := mkManager {
  highlightedSpans : gmap string (list Highlight);
  highlightedImages : gset string
}.

Definition create : HighlightManagerBase := mkManager ∅ ∅.

(** One iteration of the loop of [addHighlights]:
    [existing = get(spanId) || []; set(spanId, [...existing, highlight])]. *)
Definition addHighlight (m : HighlightManagerBase) (highlight : Highlight)
  : HighlightManagerBase :=
  let existing := default [] (highlightedSpans m !! spanId highlight) in
  mkManager (<[spanId highlight := existing ++ [highlight]]> (highlightedSpans m))
            (highlightedImages m).

Definition addHighlights (highlights : list Highlight) (m : HighlightManagerBase)
  : HighlightManagerBase :=
  foldl addHighlight m highlights.

(** [get(spanId) ?? []]. *)
Definition getSpanHighlights (m : HighlightManagerBase) (id : string)
  : list Highlight :=
  default [] (highlightedSpans m !! id).

Definition removeHighlights (spanIds : list string) (m : HighlightManagerBase)
  : HighlightManagerBase :=
  foldl (fun m id => mkManager (delete id (highlightedSpans m)) (highlightedImages m))
        m spanIds.

Definition addImageHighlight (imageStoragePath : string) (m : HighlightManagerBase)
  : HighlightManagerBase :=
  mkManager (highlightedSpans m) ({[imageStoragePath]} ∪ highlightedImages m).

Definition removeImageHighlight (imageStoragePath : string) (m : HighlightManagerBase)
  : HighlightManagerBase :=
  mkManager (highlightedSpans m) (highlightedImages m ∖ {[imageStoragePath]}).

Definition isImageHighlighted (m : HighlightManagerBase) (imageStoragePath : string)
  : bool :=
  bool_decide (imageStoragePath ∈ highlightedImages m).

Definition clearHighlights (m : HighlightManagerBase) : HighlightManagerBase :=
  mkManager ∅ ∅.

(** The highlights of a list that are addressed to span [id]. *)
Definition targets (id : string) (h : Highlight) : bool :=
  bool_decide (spanId h = id).

(** The calls that change a store, and the store a sequence of calls leaves
    when it starts from a new one. *)
Inductive Call :=
| AddHighlights (highlights : list Highlight)
| RemoveHighlights (spanIds : list string)
| AddImageHighlight (imageStoragePath : string)
| RemoveImageHighlight (imageStoragePath : string)
| ClearHighlights.

Definition call (m : HighlightManagerBase) (c : Call) : HighlightManagerBase :=
  match c with
  | AddHighlights highlights => addHighlights highlights m
  | RemoveHighlights spanIds => removeHighlights spanIds m
  | AddImageHighlight imageStoragePath => addImageHighlight imageStoragePath m
  | RemoveImageHighlight imageStoragePath =>
      removeImageHighlight imageStoragePath m
  | ClearHighlights => clearHighlights m
  end.

Definition run (calls : list Call) : HighlightManagerBase :=
  foldl call create calls.

(** Every list the store holds has an element, and its highlights are
    addressed to the key it is stored under. *)
Definition wellKeyed (m : HighlightManagerBase) : Prop :=
  ∀ id hs, highlightedSpans m !! id = Some hs →
           hs ≠ [] ∧ Forall (λ h, spanId h = id) hs.

End HighlightManager.

(** ** Tag flattener ([components/lumi_span/lumi_span_utils.ts]) *)

Module LumiSpanUtils.

(** [flattenTags(tags, parentOffset = 0)]. The function recurses through
    the [children] field of the elements of its argument, so the embedding
    is a fixpoint on one tag, [flattenTag], which is the body of the source's
    [for (const tag of tags)] loop: it pushes the tag with its absolute
    position and [children: undefined], then, when
    [tag.children && tag.children.length > 0], the flattened children,
    computed with the tag's absolute start as their offset. The inner [loop]
    is the recursive call [flattenTags(tag.children, ...)]. *)
Fixpoint flattenTag (parentOffset : Z) (tag : InnerTag) : list InnerTag :=
  let absolutePosition :=
    mkPosition (startIndex (position tag) + parentOffset)
               (endIndex (position tag) + parentOffset) in
  mkInnerTag (tagName tag) absolutePosition (metadata tag) None ::
  match children tag with
  | Some kids =>
      if bool_decide (0 < length kids)%nat
      then (fix loop (tags : list InnerTag) : list InnerTag :=
              match tags with
              | [] => []
              | child :: rest =>
                  flattenTag (startIndex absolutePosition) child ++ loop rest
              end) kids
      else []
  | None => []
  end.

Definition flattenTags (tags : list InnerTag) (parentOffset : Z) : list InnerTag :=
  flat_map (flattenTag parentOffset) tags.

(** [getSpanHighlightsFromManagers(spanId, highlightManager?,
    answerHighlightManager?)]: the highlights of the first manager, then
    those of the second; [None] is an absent manager. The class
    [AnswerHighlightManager] is not among the sources: the function calls
    its [getSpanHighlights] alone, which is what the second argument
    stands for. *)
Definition getSpanHighlightsFromManagers (spanId : string)
    (highlightManager : option HighlightManager.HighlightManagerBase)
    (answerHighlightManager : option (string → list Highlight))
  : list Highlight :=
  let highlights := [] in
  let highlights :=
    match highlightManager with
    | Some manager =>
        highlights ++ HighlightManager.getSpanHighlights manager spanId
    | None => highlights
    end in
  match answerHighlightManager with
  | Some getSpanHighlights => highlights ++ getSpanHighlights spanId
  | None => highlights
  end.

(** *** Notions used to state the flattener's contract *)

(** [tag.children], the empty list when absent. *)
Definition subTags (tag : InnerTag) : list InnerTag :=
  default [] (children tag).

(** What [flattenTags] pushes for [tag] under the offset [parentOffset]. *)
Definition emitted (parentOffset : Z) (tag : InnerTag) : InnerTag :=
  mkInnerTag (tagName tag)
             (mkPosition (startIndex (position tag) + parentOffset)
                         (endIndex (position tag) + parentOffset))
             (metadata tag) None.

(** The number of tags in the tree rooted at [tag], and in a list of trees. *)
Fixpoint tagSize (tag : InnerTag) : nat :=
  S match children tag with
    | Some kids =>
        (fix sizes (l : list InnerTag) : nat :=
           match l with
           | [] => 0
           | kid :: rest => tagSize kid + sizes rest
           end%nat) kids
    | None => 0%nat
    end.

Definition forestSize (tags : list InnerTag) : nat :=
  sum_list (tagSize <$> tags).

(** The tag reached from [tags] by a path of child indices (outermost index
    first), with its ancestors, outermost first. *)
Fixpoint tagAt (tags : list InnerTag) (path : list nat)
    : option (list InnerTag * InnerTag) :=
  match path with
  | [] => None
  | i :: rest =>
      match tags !! i with
      | None => None
      | Some tag =>
          match rest with
          | [] => Some ([], tag)
          | _ :: _ =>
              match tagAt (subTags tag) rest with
              | Some (ancestors, found) => Some (tag :: ancestors, found)
              | None => None
              end
          end
      end
  end.

(** The rank of the tag at [path] in the depth-first, parent-first order:
    the tags of the earlier siblings' trees come first, then the parent, then
    the rank among the parent's children. *)
Fixpoint preorderIndex (tags : list InnerTag) (path : list nat) : nat :=
  match path with
  | [] => 0%nat
  | i :: rest =>
      (forestSize (take i tags) +
       match rest with
       | [] => 0
       | _ :: _ =>
           match tags !! i with
           | Some tag => 1 + preorderIndex (subTags tag) rest
           | None => 0
           end
       end)%nat
  end.

(** The sum of the start offsets the ancestors carry themselves, relative
    to their own parents. *)
Definition relativeStarts (ancestors : list InnerTag) : Z :=
  foldr (λ a acc, startIndex (position a) + acc) 0 ancestors.

(** The absolute start offset of the tag at [path]: the start offset of what
    the flattener emits for it. *)
Definition absoluteStart (tags : list InnerTag) (path : list nat) : Z :=
  match flattenTags tags 0 !! preorderIndex tags path with
  | Some e => startIndex (position e)
  | None => 0
  end.

(** The paths of the ancestors of the tag at [path], outermost first. *)
Definition ancestorPaths (path : list nat) : list (list nat) :=
  (λ n, take n path) <$> seq 1 (length path - 1).

(** The sum of the absolute start offsets of the ancestors. *)
Definition ancestorAbsoluteStarts (tags : list InnerTag) (path : list nat) : Z :=
  foldr Z.add 0 (absoluteStart tags <$> ancestorPaths path).

(** The children of [tag], and theirs, lie within the text the tag covers:
    their relative intervals lie between [0] and the length of the parent's
    interval. *)
Fixpoint wellNested (tag : InnerTag) : Prop :=
  match children tag with
  | Some kids =>
      (fix all (l : list InnerTag) : Prop :=
         match l with
         | [] => True
         | kid :: rest =>
             (0 ≤ startIndex (position kid) ∧
              endIndex (position kid)
              ≤ endIndex (position tag) - startIndex (position tag) ∧
              wellNested kid) ∧ all rest
         end) kids
  | None => True
  end.

(** The interval of [inner] lies within the interval of [outer]. *)
Definition within (inner outer : Position) : Prop :=
  startIndex outer ≤ startIndex inner ∧ endIndex inner ≤ endIndex outer.

(** The three-level fixture of [lumi_span_utils.test.ts]. *)
Definition nestedFixture : list InnerTag :=
  [mkInnerTag BOLD (mkPosition 10 50) ∅
     (Some [mkInnerTag ITALIC (mkPosition 5 25) ∅
              (Some [mkInnerTag UNDERLINE (mkPosition 2 8) ∅ None]);
            mkInnerTag A (mkPosition 30 35) ∅ None])].

End LumiSpanUtils.

(** ** JavaScript helpers *)

Module Js.

(** The white space and line terminators [String.prototype.trim] strips,
    among the code units below 256: TAB, LF, VT, FF, CR, SP, NBSP. *)
Definition isWhiteSpace (c : ascii) : bool :=
  let n := nat_of_ascii c in
  ((9 <=? n) && (n <=? 13) || (n =? 32) || (n =? 160))%nat.

Fixpoint trimStart (s : string) : string :=
  match s with
  | EmptyString => EmptyString
  | String c rest => if isWhiteSpace c then trimStart rest else s
  end.

Definition trim (s : string) : string :=
  String.rev (trimStart (String.rev (trimStart s))).

(** [s.split(sep)] for a one-character separator: at least one piece. *)
Fixpoint split (sep : ascii) (s : string) : list string :=
  match s with
  | EmptyString => [EmptyString]
  | String c rest =>
      if bool_decide (c = sep) then EmptyString :: split sep rest
      else match split sep rest with
           | piece :: pieces => String c piece :: pieces
           | [] => [String c EmptyString]
           end
  end.

(** [for (let i = start; i < stop; i++) body(i)], threading the state the
    body mutates: [forRange n i] runs the [n] remaining iterations. *)
Fixpoint forRange {S : Type} (n : nat) (i : Z) (body : Z → S → S) (s : S) : S :=
  match n with
  | O => s
  | Datatypes.S n' => forRange n' (i + 1) body (body i s)
  end.

Definition forLoop {S : Type} (start stop : Z) (body : Z → S → S) (s : S) : S :=
  forRange (Z.to_nat (stop - start)) start body s.

(** [array[i]] for a number [i]: [undefined] ([None]) out of range. *)
Definition at_index {X : Type} (array : list X) (i : Z) : option X :=
  if bool_decide (0 ≤ i) then array !! Z.to_nat i else None.

End Js.

(** ** Compositor ([components/lumi_span/lumi_span.ts]) *)

Module LumiSpanViz.
Import LumiSpanUtils.

(** The keys of a [FormattingCounter]: the tag names, the two constants
    [GENERAL_HIGHLIGHT_KEY] and ["character"]. The enumeration's string
    values are distinct from both constants. *)
Inductive CounterKey :=
| TagKey (name : InnerTagName)
| GENERAL_HIGHLIGHT_KEY
| CHARACTER_KEY.

#[global] Instance InnerTagName_eq_dec : EqDecision InnerTagName.
Proof. solve_decision. Defined.

Definition InnerTagName_code (t : InnerTagName) : nat :=
  match t with
  | BOLD => 0 | ITALIC => 1 | UNDERLINE => 2 | A => 3 | CODE => 4 | MATH => 5
  | MATH_DISPLAY => 6 | REFERENCE => 7 | SPAN_REFERENCE => 8 | FOOTNOTE => 9
  | CONCEPT => 10
  end%nat.

Definition InnerTagName_decode (n : nat) : option InnerTagName :=
  match n with
  | 0 => Some BOLD | 1 => Some ITALIC | 2 => Some UNDERLINE | 3 => Some A
  | 4 => Some CODE | 5 => Some MATH | 6 => Some MATH_DISPLAY
  | 7 => Some REFERENCE | 8 => Some SPAN_REFERENCE | 9 => Some FOOTNOTE
  | 10 => Some CONCEPT | _ => None
  end%nat.

#[global] Instance InnerTagName_countable : Countable InnerTagName.
Proof.
  refine (inj_countable InnerTagName_code InnerTagName_decode _).
  by intros [].
Defined.

#[global] Instance CounterKey_eq_dec : EqDecision CounterKey.
Proof. solve_decision. Defined.

#[global] Instance CounterKey_countable : Countable CounterKey.
Proof.
  refine (inj_countable
    (λ k, match k with
          | TagKey t => inl t
          | GENERAL_HIGHLIGHT_KEY => inr false
          | CHARACTER_KEY => inr true
          end)
    (λ x, match x with
          | inl t => Some (TagKey t)
          | inr false => Some GENERAL_HIGHLIGHT_KEY
          | inr true => Some CHARACTER_KEY
          end) _).
  by intros [].
Defined.

Abbreviation FormattingCounter := (gmap CounterKey InnerTagMetadata).

Definition COLOR_HIGHLIGHT_KEY : string := "highlight_color".

(** What the templates of the component render to. A character template
    keeps the class object it is rendered with (the keys that
    [renderFormattedCharacter] sets to [true] in [classesObject]) and, for
    the click handler of a formatted character, [classesAndMetadata] itself;
    a plain character keeps its [characterClasses]. *)
Inductive TemplateResult :=
| CitationTemplate (citations : list (nat * LumiReference))
| FootnoteTemplate (index : nat) (footnote : LumiFootnote)
| SpanCitationTemplate (citations : list (nat * string))
| EquationTemplate (equationText : string) (hasDisplayMathTag : bool)
| EmptyTemplate
| LinkTemplate (href : string) (classesObject : gset string) (character : ascii)
| CharacterTemplate (classesObject : gset string)
                    (classesAndMetadata : FormattingCounter) (character : ascii)
| PlainCharacterTemplate (characterClasses : gset string) (character : ascii).

(** The renderer properties [calculateRenderedContent] reads; [None] is
    [undefined]. *)
Record Props := mkProps {
  span : option LumiSpan;
  highlights : option (list Highlight);
  references : option (list LumiReference);
  footnotes : option (list LumiFootnote);
  referencedSpans : option (list LumiSpan);
  font : option string
}.

Definition hasKey (counter : FormattingCounter) (key : CounterKey) : bool :=
  bool_decide (is_Some (counter !! key)).

Definition renderEquation (equationText : string) (hasDisplayMathTag : bool)
  : TemplateResult :=
  EquationTemplate equationText hasDisplayMathTag.

(** [innerTag.metadata["id"]] when it is truthy. *)
Definition truthyId (innerTag : InnerTag) : option string :=
  match metadata innerTag !! "id" with
  | Some id => if bool_decide (id = "") then None else Some id
  | None => None
  end.

(** [array.findIndex(pred)] paired with the element found. *)
Definition findIndex {X : Type} (P : X → Prop) `{∀ x, Decision (P x)}
    (array : list X) : option (nat * X) :=
  list_find P array.

(** The template one top-level tag contributes, when it contributes one:
    the three branches of the [forEach] callback of [createInsertionsMap]. *)
Definition insertionTemplate (props : Props) (innerTag : InnerTag)
  : option TemplateResult :=
  if bool_decide (tagName innerTag = REFERENCE)
     && bool_decide (is_Some (truthyId innerTag))
     && bool_decide (is_Some (references props))
  then
    let refIds := Js.trim <$> Js.split "," (default "" (truthyId innerTag)) in
    let citations :=
      omap (λ refId,
              match findIndex (λ ref, ref_id ref = refId)
                              (default [] (references props)) with
              | Some (refIndex, reference) => Some (refIndex + 1, reference)%nat
              | None => None
              end) refIds in
    if bool_decide (0 < length citations)%nat
    then Some (CitationTemplate citations) else None
  else if bool_decide (tagName innerTag = FOOTNOTE)
          && bool_decide (is_Some (truthyId innerTag))
          && bool_decide (is_Some (footnotes props))
  then
    let footnoteId := default "" (truthyId innerTag) in
    match findIndex (λ note, note_id note = footnoteId)
                    (default [] (footnotes props)) with
    | Some (footnoteIndex, footnote) =>
        Some (FootnoteTemplate (footnoteIndex + 1) footnote)
    | None => None
    end
  else if bool_decide (tagName innerTag = SPAN_REFERENCE)
          && bool_decide (is_Some (truthyId innerTag))
          && bool_decide (is_Some (referencedSpans props))
  then
    let refId := default "" (truthyId innerTag) in
    let citations :=
      match findIndex (λ id, id = refId)
                      (span_id <$> default [] (referencedSpans props)) with
      | Some (refIndex, _) => [(refIndex + 1, refId)%nat]
      | None => []
      end in
    if bool_decide (0 < length citations)%nat
    then Some (SpanCitationTemplate citations) else None
  else None.

(** [if (!insertions.has(i)) insertions.set(i, []); insertions.get(i).push(t)]. *)
Definition pushInsertion (insertionIndex : Z) (template : TemplateResult)
    (insertions : gmap Z (list TemplateResult)) : gmap Z (list TemplateResult) :=
  <[insertionIndex := default [] (insertions !! insertionIndex) ++ [template]]>
    insertions.

Definition createInsertionsMap (props : Props) (span : LumiSpan)
  : gmap Z (list TemplateResult) :=
  foldl (λ insertions innerTag,
           match insertionTemplate props innerTag with
           | Some template =>
               pushInsertion (startIndex (position innerTag)) template insertions
           | None => insertions
           end)
        ∅ (innerTags span).

(** [const currentCounter = formattingCounters[i];
     if (currentCounter) { ...mutate currentCounter... }]. *)
Definition markAt (update : FormattingCounter → FormattingCounter) (i : Z)
    (formattingCounters : list FormattingCounter) : list FormattingCounter :=
  match Js.at_index formattingCounters i with
  | Some currentCounter =>
      <[Z.to_nat i := update currentCounter]> formattingCounters
  | None => formattingCounters
  end.

(** [currentCounter[tagName] =
      {...innerTag.metadata, ...(currentCounter[tagName] || {})}]. *)
Definition tagUpdate (innerTag : InnerTag) (currentCounter : FormattingCounter)
  : FormattingCounter :=
  <[TagKey (tagName innerTag) :=
      default ∅ (currentCounter !! TagKey (tagName innerTag)) ∪ metadata innerTag]>
    currentCounter.

Definition markTag (formattingCounters : list FormattingCounter)
    (innerTag : InnerTag) : list FormattingCounter :=
  Js.forLoop (startIndex (position innerTag)) (endIndex (position innerTag))
             (markAt (tagUpdate innerTag)) formattingCounters.

(** [currentCounter[GENERAL_HIGHLIGHT_KEY] = {[COLOR_HIGHLIGHT_KEY]: color}],
    then, with metadata,
    [{...highlight.metadata, ...currentCounter[GENERAL_HIGHLIGHT_KEY]}]. *)
Definition highlightUpdate (highlight : Highlight)
    (currentCounter : FormattingCounter) : FormattingCounter :=
  let currentCounter :=
    <[GENERAL_HIGHLIGHT_KEY := {[COLOR_HIGHLIGHT_KEY := color highlight]}]>
      currentCounter in
  match hl_metadata highlight with
  | Some metadata =>
      <[GENERAL_HIGHLIGHT_KEY :=
          default ∅ (currentCounter !! GENERAL_HIGHLIGHT_KEY) ∪ metadata]>
        currentCounter
  | None => currentCounter
  end.

Definition markHighlight (spanText : string)
    (formattingCounters : list FormattingCounter) (highlight : Highlight)
  : list FormattingCounter :=
  let startIndex :=
    match hl_position highlight with Some p => startIndex p | None => 0 end in
  let endIndex :=
    match hl_position highlight with
    | Some p => endIndex p
    | None => Z.of_nat (String.length spanText)
    end in
  Js.forLoop startIndex endIndex (markAt (highlightUpdate highlight))
             formattingCounters.

(** The per-character decision table: one empty counter per character,
    marked by every flattened tag, then by every highlight. *)
Definition formattingCountersOf (spanText : string) (allInnerTags : list InnerTag)
    (allHighlights : list Highlight) : list FormattingCounter :=
  let formattingCounters :=
    (λ _, (∅ : FormattingCounter)) <$> list_ascii_of_string spanText in
  let formattingCounters := foldl markTag formattingCounters allInnerTags in
  foldl (markHighlight spanText) formattingCounters allHighlights.

Section EnumValues.
(** The string values of the enumeration [InnerTagName]
    ([shared/lumi_doc.ts]) and the constant [HIGHLIGHT_METADATA_ANSWER_KEY]
    ([shared/constants.ts]); neither file is among the sources. The values
    of the enumeration are distinct, differ from ["general_highlight_key"]
    and from ["character"], and none is the name of a property that every
    object inherits. *)
Variable tagString : InnerTagName → string.
Variable HIGHLIGHT_METADATA_ANSWER_KEY : string.

(** The property name a key of a counter stands for. *)
Definition keyString (key : CounterKey) : string :=
  match key with
  | TagKey name => tagString name
  | GENERAL_HIGHLIGHT_KEY => "general_highlight_key"
  | CHARACTER_KEY => "character"
  end.

(** The truthiness of a string that may be [undefined]. *)
Definition truthy (value : option string) : bool :=
  match value with
  | Some s => negb (bool_decide (s = ""))
  | None => false
  end.

(** [classesObject] of [renderFormattedCharacter], as the set of the
    properties it sets to [true]: the keys of [classesAndMetadata], the font
    when there is one, then, when the counter has a highlight, the value of
    its colour (the key ["undefined"] when it has none) and ["clickable"]
    when it has an answer. The font and the colour are class names like any
    other: one that is the value of a tag name makes the tests of
    [renderFormattedCharacter] on that tag name succeed. *)
Definition classesObjectOf (font : option string)
    (classesAndMetadata : FormattingCounter) : gset string :=
  let classesObject : gset string :=
    set_map keyString (dom classesAndMetadata) in
  let classesObject :=
    if truthy font then classesObject ∪ {[default "" font]}
    else classesObject in
  match classesAndMetadata !! GENERAL_HIGHLIGHT_KEY with
  | Some highlightMetadata =>
      let classesObject :=
        classesObject
        ∪ {[default "undefined" (highlightMetadata !! COLOR_HIGHLIGHT_KEY)]} in
      if truthy (highlightMetadata !! HIGHLIGHT_METADATA_ANSWER_KEY)
      then classesObject ∪ {["clickable"]}
      else classesObject
  | None => classesObject
  end.

(** [renderFormattedCharacter(character, classesAndMetadata)]. The tests
    read [classesObject]: [classesObject[InnerTagName.X]] is truthy when the
    value of [X] is one of its keys. [None] is the [TypeError] of
    [metadata["href"]] when [classesObject] has the key of the link tag and
    [classesAndMetadata] has no entry for it. *)
Definition renderFormattedCharacter (font : option string) (character : ascii)
    (classesAndMetadata : FormattingCounter) : option TemplateResult :=
  let classesObject := classesObjectOf font classesAndMetadata in
  if bool_decide (tagString REFERENCE ∈ classesObject)
     || bool_decide (tagString SPAN_REFERENCE ∈ classesObject)
     || bool_decide (tagString FOOTNOTE ∈ classesObject)
  then Some EmptyTemplate
  else if bool_decide (tagString A ∈ classesObject) then
    match classesAndMetadata !! TagKey A with
    | None => None
    | Some metadata =>
        let href := match metadata !! "href" with
                    | Some h => if bool_decide (h = "") then "#" else h
                    | None => "#"
                    end in
        Some (LinkTemplate href classesObject character)
    end
  else Some (CharacterTemplate classesObject classesAndMetadata character).

(** [renderNonformattedCharacters(value)]: [characterClasses] holds
    ["character"] and the font when there is one. *)
Definition renderNonformattedCharacters (font : option string) (value : string)
  : list TemplateResult :=
  let characterClasses : gset string := {["character"]} in
  let characterClasses :=
    if truthy font then characterClasses ∪ {[default "" font]}
    else characterClasses in
  PlainCharacterTemplate characterClasses <$> list_ascii_of_string value.

(** The callback of [flatMap] at one character. The closure variable
    [equationText] is threaded; [None] is a [TypeError]: that of reading a
    property of [formattingCounters[index]] when that is [undefined], or
    that of [renderFormattedCharacter]. *)
Definition renderCharacter (font : option string)
    (insertions : gmap Z (list TemplateResult))
    (formattingCounters : list FormattingCounter) (spanText : string)
    (equationText : string) (index : nat) (char : ascii)
  : option (list TemplateResult * string) :=
  let templates := default [] (insertions !! Z.of_nat index) in
  match formattingCounters !! index with
  | None => None
  | Some counter =>
      let hasBasicMathTag := hasKey counter (TagKey MATH) in
      let hasDisplayMathTag := hasKey counter (TagKey MATH_DISPLAY) in
      let hasMathTag := hasBasicMathTag || hasDisplayMathTag in
      if hasMathTag then
        let equationText := (equationText +:+ String char EmptyString)%string in
        let nextIndex := (index + 1)%nat in
        let tagToCheck := if hasBasicMathTag then MATH else MATH_DISPLAY in
        if bool_decide (nextIndex < String.length spanText)%nat
           && match formattingCounters !! nextIndex with
              | Some next => hasKey next (TagKey tagToCheck)
              | None => false
              end
        then Some (templates, equationText)
        else
          let currentEquationText := equationText in
          Some (templates ++ [renderEquation currentEquationText hasDisplayMathTag],
                EmptyString)
      else
        match renderFormattedCharacter font char
                (counter ∪ {[CHARACTER_KEY := ∅]}) with
        | Some template => Some (templates ++ [template], equationText)
        | None => None
        end
  end.

(** [spanText.split("").flatMap(callback)] is the list of the callback's
    results, one array per character, then flattened. [callbackResults] runs
    the callback from character [index] on and returns the arrays with the
    value [equationText] is left with. *)
Fixpoint callbackResults (font : option string)
      (insertions : gmap Z (list TemplateResult))
      (formattingCounters : list FormattingCounter) (spanText : string)
      (equationText : string) (index : nat) (chars : list ascii)
    : option (list (list TemplateResult) * string) :=
  match chars with
  | [] => Some ([], equationText)
  | char :: rest =>
      match renderCharacter font insertions formattingCounters spanText
                            equationText index char with
      | None => None
      | Some (templates, equationText) =>
          match callbackResults font insertions formattingCounters spanText
                                equationText (S index) rest with
          | None => None
          | Some (more, equationText) => Some (templates :: more, equationText)
          end
      end
  end.

Definition renderCharacters (font : option string)
      (insertions : gmap Z (list TemplateResult))
      (formattingCounters : list FormattingCounter) (spanText : string)
    : option (list TemplateResult) :=
  match callbackResults font insertions formattingCounters spanText EmptyString 0
                        (list_ascii_of_string spanText) with
  | Some (results, _) => Some (concat results)
  | None => None
  end.

(** The value assigned to [renderedContent]: the empty template, or the
    wrapping renderer element with its parts. *)
Inductive RenderedContent :=
| EmptyContent
| RendererElement (parts : list TemplateResult).

Definition calculateRenderedContent (props : Props) : option RenderedContent :=
  match span props with
  | None => Some EmptyContent
  | Some span =>
      let highlights := default [] (highlights props) in
      let allHighlights := highlights in
      let spanText := text span in
      let hasHighlight := bool_decide (0 < length highlights)%nat in
      let allInnerTags := flattenTags (innerTags span) 0 in
      let insertions := createInsertionsMap props span in
      if negb hasHighlight && bool_decide (length allInnerTags = 0%nat)
         && bool_decide (size insertions = 0%nat)
      then Some (RendererElement
                   (renderNonformattedCharacters (font props) (text span)))
      else
        let formattingCounters :=
          formattingCountersOf spanText allInnerTags allHighlights in
        match renderCharacters (font props) insertions formattingCounters
                               spanText with
        | None => None
        | Some partsTemplateResults =>
            Some (RendererElement
                    (partsTemplateResults ++
                     default [] (insertions !! Z.of_nat (String.length spanText))))
        end
  end.

End EnumValues.

(** *** Notions used to state the compositor's contract *)

(** Character [j] lies in the half-open interval of [p]. *)
Definition covers (j : nat) (p : Position) : bool :=
  bool_decide (startIndex p ≤ Z.of_nat j < endIndex p).

(** The interval of a highlight: the whole span when it has no position. *)
Definition highlightRange (spanText : string) (highlight : Highlight) : Position :=
  match hl_position highlight with
  | Some p => p
  | None => mkPosition 0 (Z.of_nat (String.length spanText))
  end.

(** The tags of kind [name] that cover character [j], in list order. *)
Definition tagsCovering (name : InnerTagName) (j : nat) (tags : list InnerTag)
    : list InnerTag :=
  List.filter (λ t, bool_decide (tagName t = name) && covers j (position t)) tags.

(** The highlights that cover character [j], in list order. *)
Definition highlightsCovering (spanText : string) (j : nat)
      (highlights : list Highlight) : list Highlight :=
  List.filter (λ h, covers j (highlightRange spanText h)) highlights.

(** What one highlight writes under [GENERAL_HIGHLIGHT_KEY]. *)
Definition highlightMark (highlight : Highlight) : InnerTagMetadata :=
  {[COLOR_HIGHLIGHT_KEY := color highlight]} ∪ default ∅ (hl_metadata highlight).

(** A counter records a highlight when the highlight's colour is a value of
    one of its entries. *)
Definition recordsColor (counter : FormattingCounter) (highlight : Highlight)
    : Prop :=
  ∃ key entry field,
    counter !! key = Some entry ∧ entry !! field = Some (color highlight).

(** The composition of the marks of one character, tag by tag and highlight
    by highlight. *)
Definition applyTags (j : nat) (tags : list InnerTag) (counter : FormattingCounter)
    : FormattingCounter :=
  foldl (λ c t, if covers j (position t) then tagUpdate t c else c) counter tags.

(** An interval cut down to the characters of a text of length [n]. *)
Definition clipPosition (n : nat) (p : Position) : Position :=
  mkPosition (Z.max 0 (startIndex p)) (Z.min (Z.of_nat n) (endIndex p)).

Definition clipTag (n : nat) (tag : InnerTag) : InnerTag :=
  mkInnerTag (tagName tag) (clipPosition n (position tag)) (metadata tag)
             (children tag).

Definition clipHighlight (n : nat) (highlight : Highlight) : Highlight :=
  mkHighlight (color highlight) (spanId highlight)
              (clipPosition n <$> hl_position highlight) (hl_metadata highlight).

Definition applyHighlights (spanText : string) (j : nat)
      (highlights : list Highlight) (counter : FormattingCounter)
    : FormattingCounter :=
  foldl (λ c h, if covers j (highlightRange spanText h) then highlightUpdate h c else c)
        counter highlights.

(** The tag starts at offset [i]. *)
Definition anchoredAt (i : Z) (tag : InnerTag) : bool :=
  bool_decide (startIndex (position tag) = i).

(** The insertions anchored at offset [i]. *)
Definition insertionsAt (props : Props) (span : LumiSpan) (i : nat)
    : list TemplateResult :=
  default [] (createInsertionsMap props span !! Z.of_nat i).

(** The markers of citations, footnotes and cross-span references. *)
Definition isMarker (t : TemplateResult) : bool :=
  match t with
  | CitationTemplate _ | FootnoteTemplate _ _ | SpanCitationTemplate _ => true
  | _ => false
  end.

(** Character [i] of the table carries the tag kind [name]. *)
Definition carries (formattingCounters : list FormattingCounter) (i : nat)
      (name : InnerTagName) : bool :=
  match formattingCounters !! i with
  | Some counter => hasKey counter (TagKey name)
  | None => false
  end.

Definition otherMathKind (name : InnerTagName) : InnerTagName :=
  match name with MATH => MATH_DISPLAY | _ => MATH end.

(** [a, b) is a maximal run of characters carrying the math kind [name] in
    a table of [n] characters. *)
Definition MaximalRun (formattingCounters : list FormattingCounter) (n : nat)
      (name : InnerTagName) (a b : nat) : Prop :=
  (name = MATH ∨ name = MATH_DISPLAY) ∧
  (a < b ≤ n)%nat ∧
  (∀ i, (a ≤ i < b)%nat → carries formattingCounters i name = true) ∧
  (a = 0%nat ∨ carries formattingCounters (a - 1) name = false) ∧
  (b = n ∨ carries formattingCounters b name = false).

(** A display-math tag over ["abc"] with a math tag nested on its middle
    character. *)
Definition nestedMathSpan : LumiSpan :=
  mkLumiSpan "s1" "abc"
    [mkInnerTag MATH_DISPLAY (mkPosition 0 3) ∅ None;
     mkInnerTag MATH (mkPosition 1 2) ∅ None].

Definition nestedMathProps : Props :=
  mkProps (Some nestedMathSpan) None None None None None.

(** The equation fixture of [lumi_span.test.ts]. *)
Definition equationSpan : LumiSpan :=
  mkLumiSpan "s2" "An equation: E=mc^2"
    [mkInnerTag MATH (mkPosition 13 19) ∅ None].

Definition equationProps : Props :=
  mkProps (Some equationSpan) None None None None None.

(** The lookup of a tag's id finds no entry: the list is absent, the id is
    absent or empty, or no entry has the id (for a citation, none of the
    comma-separated, trimmed ids). *)
Definition unresolved (props : Props) (innerTag : InnerTag) : Prop :=
  let id := default "" (metadata innerTag !! "id") in
  match tagName innerTag with
  | REFERENCE =>
      ∀ refId reference,
        refId ∈ Js.trim <$> Js.split "," id →
        reference ∈ default [] (references props) →
        ref_id reference ≠ refId
  | FOOTNOTE =>
      ∀ footnote, footnote ∈ default [] (footnotes props) → note_id footnote ≠ id
  | SPAN_REFERENCE =>
      ∀ referenced,
        referenced ∈ default [] (referencedSpans props) → span_id referenced ≠ id
  | _ => False
  end.

(** The citation fixture of [lumi_span.test.ts]: ["Sentence"] with a
    reference tag at offset 8 citing ["ref1, ref2"]. *)
Definition citationReferences : list LumiReference :=
  [mkLumiReference "ref1" (mkLumiSpan "ref-s1" "" []);
   mkLumiReference "ref2" (mkLumiSpan "ref-s2" "" [])].

Definition citationSpan : LumiSpan :=
  mkLumiSpan "s2" "Sentence"
    [mkInnerTag REFERENCE (mkPosition 8 8) {["id" := "ref1, ref2"]} None].

Definition citationProps : Props :=
  mkProps (Some citationSpan) None (Some citationReferences) None None None.

(** A reference tag over the character ["1"] of ["a1b"] whose id is not in
    the (empty) list of references. *)
Definition danglingTag : InnerTag :=
  mkInnerTag REFERENCE (mkPosition 1 2) {["id" := "x"]} None.

Definition danglingSpan : LumiSpan := mkLumiSpan "s1" "a1b" [danglingTag].

Definition danglingProps : Props :=
  mkProps (Some danglingSpan) None (Some []) None None None.

(** Two characters, the first one under a yellow highlight. *)
Definition highlightedSpan : LumiSpan := mkLumiSpan "s1" "ab" [].

Definition highlightedProps : Props :=
  mkProps (Some highlightedSpan)
          (Some [mkHighlight "yellow" "s1" (Some (mkPosition 0 1)) None])
          None None None None.

(** One character under a highlight whose colour is ["a"]. *)
Definition colourLinkSpan : LumiSpan := mkLumiSpan "s1" "x" [].

Definition colourLinkProps : Props :=
  mkProps (Some colourLinkSpan)
          (Some [mkHighlight "a" "s1" None None]) None None None None.

(** A link over the second character of ["ab"]. *)
Definition linkSpan : LumiSpan :=
  mkLumiSpan "s1" "ab"
    [mkInnerTag A (mkPosition 1 2) {["href" := "https://example.com"]} None].

Definition linkProps : Props :=
  mkProps (Some linkSpan) None None None None None.

(** The properties with another span. *)
Definition withSpan (props : Props) (s : LumiSpan) : Props :=
  mkProps (Some s) (highlights props) (references props) (footnotes props)
          (referencedSpans props) (font props).

(** The characters a template shows: those of an equation, the character
    of a character template, none for a marker or the empty template. *)
Definition textChars (t : TemplateResult) : list ascii :=
  match t with
  | EquationTemplate equationText _ => list_ascii_of_string equationText
  | LinkTemplate _ _ character
  | CharacterTemplate _ _ character
  | PlainCharacterTemplate _ character => [character]
  | CitationTemplate _ | FootnoteTemplate _ _ | SpanCitationTemplate _
  | EmptyTemplate => []
  end.

(** The tag starts at an offset of a text of [n] characters, the end-of-text
    offset included. *)
Definition anchoredInside (n : nat) (tag : InnerTag) : bool :=
  bool_decide (0 ≤ startIndex (position tag) ≤ Z.of_nat n).

(** The classes and metadata of character [j] of a span that has highlights
    and no tag: the mark of the last highlight that covers it, if any, and
    the key of the character class. *)
Definition highlightCounter (spanText : string) (highlights : list Highlight)
    (j : nat) : FormattingCounter :=
  match last (highlightsCovering spanText j highlights) with
  | Some h => {[GENERAL_HIGHLIGHT_KEY := highlightMark h]}
  | None => ∅
  end ∪ {[CHARACTER_KEY := ∅]}.

(** Character [i] of the table carries a math tag. *)
Definition isMathAt (formattingCounters : list FormattingCounter) (i : nat)
  : bool :=
  carries formattingCounters i MATH || carries formattingCounters i MATH_DISPLAY.

(** The equation of character [i] goes on with character [i + 1]:
    character [i] carries a math tag and the next character of a text of [n]
    characters carries the kind looked for, which is math when character [i]
    carries math and display math otherwise. *)
Definition continues (formattingCounters : list FormattingCounter) (n i : nat)
  : bool :=
  isMathAt formattingCounters i
  && bool_decide (S i < n)%nat
  && carries formattingCounters (S i)
             (if carries formattingCounters i MATH then MATH else MATH_DISPLAY).

(** The first character of the equation that character [i] belongs to:
    [i] itself when the character before does not go on with it. *)
Fixpoint runStart (formattingCounters : list FormattingCounter) (n i : nat)
  : nat :=
  match i with
  | O => O
  | S j => if continues formattingCounters n j
           then runStart formattingCounters n j else S j
  end.

(** What [equationText] holds when the callback reaches character [i]: the
    characters of the equation under way, from its first character to the
    one before [i]. *)
Definition pendingEquation (formattingCounters : list FormattingCounter)
    (spanText : string) (i : nat) : string :=
  let start := runStart formattingCounters (String.length spanText) i in
  substring start (i - start) spanText.

(** The condition of the plain path of [calculateRenderedContent]. *)
Definition plainPath (props : Props) (s : LumiSpan) : bool :=
  negb (bool_decide (0 < length (default [] (highlights props)))%nat)
  && bool_decide (length (flattenTags (innerTags s) 0) = 0%nat)
  && bool_decide (size (createInsertionsMap props s) = 0%nat).

(** The table of counters of a span under the properties. *)
Definition countersOf (props : Props) (s : LumiSpan) : list FormattingCounter :=
  formattingCountersOf (text s) (flattenTags (innerTags s) 0)
                       (default [] (highlights props)).

(** [characterClasses] of [renderNonformattedCharacters]. *)
Definition plainClasses (font : option string) : gset string :=
  if truthy font then {["character"]} ∪ {[default "" font]} else {["character"]}.

(** String values for the enumeration and the answer key, for the
    fixtures: ["b"] and ["i"] are the classes the test suite selects for
    bold and italic. *)
Definition exampleTagString (name : InnerTagName) : string :=
  match name with
  | BOLD => "b" | ITALIC => "i" | UNDERLINE => "u" | A => "a" | CODE => "code"
  | MATH => "math" | MATH_DISPLAY => "math_display" | REFERENCE => "ref"
  | SPAN_REFERENCE => "spanref" | FOOTNOTE => "footnote" | CONCEPT => "concept"
  end.

Definition exampleAnswerKey : string := "answer".

Section EnumValuesNotions.
Variable tagString : InnerTagName → string.
Variable HIGHLIGHT_METADATA_ANSWER_KEY : string.

(** The class object character [i] is rendered with when it is rendered as
    a formatted character. *)
Definition classesAt (font : option string)
    (formattingCounters : list FormattingCounter) (i : nat) : gset string :=
  match formattingCounters !! i with
  | Some counter =>
      classesObjectOf tagString HIGHLIGHT_METADATA_ANSWER_KEY font
                      (counter ∪ {[CHARACTER_KEY := ∅]})
  | None => ∅
  end.

(** The class object of character [i] has the class of a citation, of a
    cross-span reference or of a footnote. *)
Definition hasHidingClass (font : option string)
    (formattingCounters : list FormattingCounter) (i : nat) : bool :=
  bool_decide (tagString REFERENCE ∈ classesAt font formattingCounters i)
  || bool_decide (tagString SPAN_REFERENCE ∈ classesAt font formattingCounters i)
  || bool_decide (tagString FOOTNOTE ∈ classesAt font formattingCounters i).

(** What character [i] of the text renders to by itself on the formatted
    path: nothing while its equation goes on, the equation from its first
    character to [i] when it ends at [i], and the formatted character when
    [i] carries no math tag. *)
Definition characterUnit (font : option string)
    (formattingCounters : list FormattingCounter) (spanText : string)
    (i : nat) (char : ascii) : option (list TemplateResult) :=
  let n := String.length spanText in
  match formattingCounters !! i with
  | None => None
  | Some counter =>
      if isMathAt formattingCounters i then
        if continues formattingCounters n i then Some []
        else
          let start := runStart formattingCounters n i in
          Some [EquationTemplate (substring start (S i - start) spanText)
                                 (carries formattingCounters i MATH_DISPLAY)]
      else
        (λ template, [template])
          <$> renderFormattedCharacter tagString HIGHLIGHT_METADATA_ANSWER_KEY
                font char (counter ∪ {[CHARACTER_KEY := ∅]})
  end.

(** What character [i] of the span renders to by itself: the plain
    character on the plain path. *)
Definition ownUnit (props : Props) (s : LumiSpan) (i : nat) (char : ascii)
  : option (list TemplateResult) :=
  if plainPath props s
  then Some [PlainCharacterTemplate (plainClasses (font props)) char]
  else characterUnit (font props) (countersOf props s) (text s) i char.

(** Character [i] is hidden: it carries no math tag and its class object
    has the class of a citation, of a cross-span reference or of a
    footnote. *)
Definition hidden (font : option string)
    (formattingCounters : list FormattingCounter) (i : nat) : bool :=
  negb (isMathAt formattingCounters i)
  && hasHidingClass font formattingCounters i.

(** The characters of [chars], numbered from [index], that are not hidden. *)
Fixpoint visibleFrom (font : option string)
    (formattingCounters : list FormattingCounter) (index : nat)
    (chars : list ascii) : list ascii :=
  match chars with
  | [] => []
  | char :: rest =>
      (if hidden font formattingCounters index then [] else [char])
      ++ visibleFrom font formattingCounters (S index) rest
  end.

End EnumValuesNotions.

End LumiSpanViz.

(** ** A synthetic tree for the rendered DOM *)

Module Dom.

(** An element ([tagName] as the source compares it, in lower case, its
    [id], its [classList] and its child nodes) or a text node. *)
Inductive Node :=
| Element (tagName : string) (id : string) (classList : list string)
          (childNodes : list Node)
| Text (data : string).

(** A node is addressed by the indices that lead to it, innermost first:
    [i :: p] is child number [i] of the node at [p], and [[]] is the root
    container (a shadow root or a document), which is not an element. Two
    handles denote the same node exactly when they are equal. *)
Abbreviation Path := (list nat).

Definition childNodesOfNode (n : Node) : list Node :=
  match n with
  | Element _ _ _ childNodes => childNodes
  | Text _ => []
  end.

Fixpoint nodeAt (roots : list Node) (p : Path) : option Node :=
  match p with
  | [] => None
  | i :: parent =>
      match parent with
      | [] => roots !! i
      | _ :: _ =>
          match nodeAt roots parent with
          | Some n => childNodesOfNode n !! i
          | None => None
          end
      end
  end.

Definition childNodesAt (roots : list Node) (p : Path) : list Node :=
  match p with
  | [] => roots
  | _ :: _ => match nodeAt roots p with
              | Some n => childNodesOfNode n
              | None => []
              end
  end.

Definition isElement (n : Node) : bool :=
  match n with Element _ _ _ _ => true | Text _ => false end.

Definition tagNameOf (n : Node) : string :=
  match n with Element tagName _ _ _ => tagName | Text _ => "" end.

Definition idOf (n : Node) : string :=
  match n with Element _ id _ _ => id | Text _ => "" end.

Definition classListOf (n : Node) : list string :=
  match n with Element _ _ classList _ => classList | Text _ => [] end.

(** [node.parentElement]: [null] for a child of the root container. *)
Definition parentElement (p : Path) : option Path :=
  match p with
  | _ :: (_ :: _) as parent => Some parent
  | _ => None
  end.

(** [element.children]: the child nodes that are elements, in order. *)
Definition children (roots : list Node) (p : Path) : list Path :=
  omap (λ '(i, n), if isElement n then Some (i :: p) else None)
       (imap pair (childNodesAt roots p)).

(** The chain [p.nextElementSibling, p.nextElementSibling.nextElementSibling,
    ...] up to [null]. *)
Definition nextElementSiblings (roots : list Node) (p : Path) : list Path :=
  match p with
  | [] => []
  | i :: parent =>
      omap (λ '(j, n), if isElement n && bool_decide (i < j)%nat
                       then Some (j :: parent) else None)
           (imap pair (childNodesAt roots parent))
  end.

(** [node.textContent]: the data of the text nodes below, in order. *)
Fixpoint textContentOfNode (n : Node) : string :=
  match n with
  | Text data => data
  | Element _ _ _ childNodes =>
      (fix concat (nodes : list Node) : string :=
         match nodes with
         | [] => EmptyString
         | child :: rest => (textContentOfNode child +:+ concat rest)%string
         end) childNodes
  end.

Definition textContent (roots : list Node) (p : Path) : string :=
  match nodeAt roots p with
  | Some n => textContentOfNode n
  | None => EmptyString
  end.

(** The paths of the elements of [kids], the children of [parent], numbered
    from [k]. *)
Fixpoint elementPaths (k : nat) (kids : list Node) (parent : Path) : list Path :=
  match kids with
  | [] => []
  | n :: rest =>
      (if isElement n then [k :: parent] else []) ++ elementPaths (S k) rest parent
  end.

End Dom.

(** ** Selection resolver ([shared/selection_utils.ts]) *)

Module SelectionUtils.
Import Dom.

Record HighlightSelection := mkHighlightSelection {
  sel_spanId : string;
  sel_position : option Position
}.

Record SelectionInfo := mkSelectionInfo {
  selectedText : string;
  parentSpan : Path;
  highlightSelection : list HighlightSelection
}.

(** What the resolver reads of a [Selection]: [toString()] and the
    boundary containers of [getRangeAt(0)] ([None]: no range). *)
Record Range := mkRange { startContainer : Path; endContainer : Path }.
Record Selection := mkSelection { toString : string; getRangeAt0 : option Range }.

(** [findParent(startNode, condition)]: the loop follows [parentElement];
    the path gets shorter at each step. *)
Fixpoint findParent (roots : list Node) (startNode : Path)
    (condition : Node → bool) : option Path :=
  match startNode with
  | [] => None
  | _ :: parent =>
      match nodeAt roots startNode with
      | Some current =>
          if isElement current && condition current then Some startNode
          else match parentElement startNode with
               | Some _ => findParent roots parent condition
               | None => None
               end
      | None => None
      end
  end.

(** [array.indexOf(x)]: [-1] when absent. *)
Definition indexOf {X : Type} `{EqDecision X} (array : list X) (x : X) : Z :=
  match list_find (λ y, y = x) array with
  | Some (i, _) => Z.of_nat i
  | None => -1
  end.

(** [array.slice(0, stop)]: a negative [stop] counts from the end. *)
Definition slice0 {X : Type} (array : list X) (stop : Z) : list X :=
  if bool_decide (stop < 0)
  then take (Z.to_nat (Z.of_nat (length array) + stop)) array
  else take (Z.to_nat stop) array.

Definition isLumiSpan (el : Node) : bool :=
  bool_decide (tagNameOf el = "lumi-span").

Section Constants.
(** The two class names exported by [shared/constants.ts], which is not
    among the sources. *)
Variables CITATION_CLASSNAME FOOTNOTE_CLASSNAME : string.

Definition isInlineTag (el : Node) : bool :=
  bool_decide (CITATION_CLASSNAME ∈ classListOf el)
  || bool_decide (FOOTNOTE_CLASSNAME ∈ classListOf el).

Definition getOffsetInLumiSpan (roots : list Node) (textNode : Path) : Z :=
  match parentElement textNode with
  | None => -1
  | Some characterSpan =>
      match parentElement characterSpan with
      | None => -1
      | Some lumiSpanRendererElement =>
          let lumiSpanRendererChildren := children roots lumiSpanRendererElement in
          let spanIndex := indexOf lumiSpanRendererChildren characterSpan in
          let inlineTagOffset :=
            length (List.filter
                      (λ element,
                         match nodeAt roots element with
                         | Some el => isInlineTag el
                         | None => false
                         end)
                      (slice0 lumiSpanRendererChildren spanIndex)) in
          spanIndex - Z.of_nat inlineTagOffset
      end
  end.

(** The [while] loop that collects the units after [startLumiSpan]:
    [following] is what is left of the chain of next element siblings. *)
Fixpoint collectLumiSpans (roots : list Node) (endLumiSpan : Path)
    (following : list Path) : list Path :=
  match following with
  | [] => []
  | current :: rest =>
      (if match nodeAt roots current with
          | Some el => isElement el && isLumiSpan el
          | None => false
          end
       then [current] else [])
      ++ (if bool_decide (current = endLumiSpan) then []
          else collectLumiSpans roots endLumiSpan rest)
  end.

(** The body of [for (const lumiSpan of allLumiSpans)]. *)
Definition selectionOfLumiSpan (roots : list Node) (range : Range)
    (startLumiSpan endLumiSpan lumiSpan : Path) : list HighlightSelection :=
  let id := default "" (idOf <$> nodeAt roots lumiSpan) in
  if bool_decide (id = "") then []
  else
    let startOffset := 0 in
    let endOffset := Z.of_nat (String.length (textContent roots lumiSpan)) in
    let startOffset :=
      if bool_decide (lumiSpan = startLumiSpan)
      then getOffsetInLumiSpan roots (startContainer range) else startOffset in
    let endOffset :=
      if bool_decide (lumiSpan = endLumiSpan)
      then getOffsetInLumiSpan roots (endContainer range) else endOffset in
    [mkHighlightSelection id (Some (mkPosition startOffset (endOffset + 1)))].

Definition getSelectionInfo (roots : list Node) (selection : Selection)
  : option SelectionInfo :=
  let selectedText := Js.trim (toString selection) in
  if bool_decide (String.length selectedText = 0%nat) then None
  else
    match getRangeAt0 selection with
    | None => None
    | Some range =>
        match findParent roots (startContainer range) isLumiSpan,
              findParent roots (endContainer range) isLumiSpan with
        | Some startLumiSpan, Some endLumiSpan =>
            if bool_decide (default "" (idOf <$> nodeAt roots startLumiSpan) = "")
               || bool_decide (default "" (idOf <$> nodeAt roots endLumiSpan) = "")
            then None
            else
              let allLumiSpans :=
                startLumiSpan ::
                (if bool_decide (startLumiSpan ≠ endLumiSpan)
                 then collectLumiSpans roots endLumiSpan
                        (nextElementSiblings roots startLumiSpan)
                 else []) in
              let highlightSelection :=
                flat_map (selectionOfLumiSpan roots range startLumiSpan endLumiSpan)
                         allLumiSpans in
              match findParent roots (startContainer range)
                               (λ el, bool_decide (tagNameOf el = "span")) with
              | None => None
              | Some firstParentSpan =>
                  Some (mkSelectionInfo selectedText firstParentSpan
                                        highlightSelection)
              end
        | _, _ => None
        end
    end.

End Constants.

(** *** Notions used to state the resolver's contract *)

(** [unit] is a span-rendering unit strictly between the sibling units
    [first] and [last]. *)
Definition StrictlyBetween (roots : list Node) (first last unit : Path) : Prop :=
  ∃ (s i e : nat) (parent : Path) (el : Node),
    first = s :: parent ∧ unit = i :: parent ∧ last = e :: parent ∧
    (s < i < e)%nat ∧
    nodeAt roots unit = Some el ∧ isElement el = true ∧ isLumiSpan el = true.

(** The element at [p] is a span-rendering unit. *)
Definition isUnit (roots : list Node) (p : Path) : bool :=
  match nodeAt roots p with
  | Some el => isElement el && isLumiSpan el
  | None => false
  end.

(** The id of the element at [p]. *)
Definition idAt (roots : list Node) (p : Path) : string :=
  default "" (idOf <$> nodeAt roots p).

(** What is reported for a unit the selection covers whole. *)
Definition wholeUnit (roots : list Node) (unit : Path) : list HighlightSelection :=
  if bool_decide (idAt roots unit = "") then []
  else [mkHighlightSelection
          (idAt roots unit)
          (Some (mkPosition 0 (Z.of_nat (String.length (textContent roots unit)) + 1)))].

(** The multi-unit fixture selected backwards: from the third unit to the
    first. *)
Definition backwardSelection : Selection :=
  mkSelection "part. Second part. Third"
              (Some (mkRange [0; 4; 0; 2]%nat [0; 6; 0; 0]%nat)).

(** The helpers of [selection_utils.test.ts]: one [span] per character
    inside an outer [span], inside a [lumi-span]. *)
Definition createCharacterSpans (text : string) : Node :=
  Element "span" "" ["outer-span"]
    ((λ c, Element "span" "" [] [Text (String c EmptyString)])
       <$> list_ascii_of_string text).

Definition createLumiSpan (id text : string) : Node :=
  Element "lumi-span" id [] [createCharacterSpans text].

(** The fixture of the multi-unit test: the selection runs from character 6
    of the first unit to character 4 of the third. *)
Definition multiUnitRoots : list Node :=
  [createLumiSpan "test-span-1" "First part. ";
   createLumiSpan "test-span-2" "Second part. ";
   createLumiSpan "test-span-3" "Third part."].

Definition multiUnitSelection : Selection :=
  mkSelection "part. Second part. Third"
              (Some (mkRange [0; 6; 0; 0]%nat [0; 4; 0; 2]%nat)).

(** What the resolver returns on the multi-unit fixture. *)
Definition multiUnitInfo : SelectionInfo :=
  mkSelectionInfo "part. Second part. Third" [6; 0; 0]%nat
    [mkHighlightSelection "test-span-1" (Some (mkPosition 6 13));
     mkHighlightSelection "test-span-2" (Some (mkPosition 0 14));
     mkHighlightSelection "test-span-3" (Some (mkPosition 0 5))].

(** The fixture of the inline-marker test: a citation before character 0
    and a footnote before character 1 of ["Some text."]. *)
Definition inlineRoots (CITATION_CLASSNAME FOOTNOTE_CLASSNAME : string)
    : list Node :=
  [Element "lumi-span" "test-span-inline" []
     [Element "span" "" ["outer-span"]
        ([Element "span" "" [CITATION_CLASSNAME] [Text "[1]"];
          Element "span" "" [] [Text "S"];
          Element "sup" "" [FOOTNOTE_CLASSNAME] [Text "2"]]
         ++ ((λ c, Element "span" "" [] [Text (String c EmptyString)])
               <$> list_ascii_of_string "ome text."))]].

End SelectionUtils.

(** ** Document index ([shared/lumi_doc_manager.ts]) *)

Module LumiDocManager.

(** Modelled from the spec: the document shapes of [shared/lumi_doc.ts]
    (section 3 of the specification and the fixtures of
    [lumi_doc_manager.test.ts]); the file is not among the sources. A list
    item is its spans and an optional nested sub-list. *)
Inductive ListContent := mkListContent {
  listItems : list (list LumiSpan * option ListContent);
  isOrdered : bool
}.

Inductive LumiContent :=
| TextContent (tagName : string) (spans : list LumiSpan)
| ListContentBlock (listContent : ListContent)
| ImageContent (caption : option LumiSpan)
| FigureContent (images : list (option LumiSpan)) (caption : option LumiSpan)
| HtmlFigureContent (caption : option LumiSpan).

Inductive LumiSection := mkLumiSection {
  section_id : string;
  headingLevel : nat;
  headingText : string;
  contents : list LumiContent;
  subSections : list LumiSection
}.

Record LumiDoc := mkLumiDoc {
  abstract : list LumiContent;
  sections : list LumiSection;
  doc_references : list LumiReference;
  doc_footnotes : list LumiFootnote
}.

(** The spans of a list, walked recursively into nested sub-lists. *)
Fixpoint listSpans (l : ListContent) : list LumiSpan :=
  (fix items (its : list (list LumiSpan * option ListContent)) : list LumiSpan :=
     match its with
     | [] => []
     | (spans, subListContent) :: rest =>
         spans ++ match subListContent with
                  | Some sub => listSpans sub
                  | None => []
                  end ++ items rest
     end) (listItems l).

Definition captionSpans (caption : option LumiSpan) : list LumiSpan :=
  match caption with Some c => [c] | None => [] end.

(** The spans of one content block, captions included. *)
Definition contentSpans (content : LumiContent) : list LumiSpan :=
  match content with
  | TextContent _ spans => spans
  | ListContentBlock l => listSpans l
  | ImageContent caption => captionSpans caption
  | FigureContent images caption =>
      flat_map captionSpans images ++ captionSpans caption
  | HtmlFigureContent caption => captionSpans caption
  end.

(** The three lookups of the index. *)
Record Index := mkIndex {
  spanMap : gmap string LumiSpan;
  spanToSectionMap : gmap string LumiSection;
  sectionToParentMap : gmap string LumiSection
}.

(** Modelled from the spec: [LumiDocManager]'s single indexing pass
    (section 4.1), whose source file is not among the sources. A span is
    recorded under its id; when it is walked inside a section, that section
    is recorded as its owner. *)
Definition indexSpan (section : option LumiSection) (idx : Index) (s : LumiSpan)
  : Index :=
  mkIndex (<[span_id s := s]> (spanMap idx))
          (match section with
           | Some sec => <[span_id s := sec]> (spanToSectionMap idx)
           | None => spanToSectionMap idx
           end)
          (sectionToParentMap idx).

Definition indexContent (section : option LumiSection) (idx : Index)
    (content : LumiContent) : Index :=
  foldl (indexSpan section) idx (contentSpans content).

(** Modelled from the spec: a section's own content first, then its
    subsections, depth-first and in order, each with the section above it
    as parent. *)
Fixpoint indexSection (parentSection : option LumiSection) (idx : Index)
    (section : LumiSection) : Index :=
  let idx :=
    match parentSection with
    | Some parent =>
        mkIndex (spanMap idx) (spanToSectionMap idx)
                (<[section_id section := parent]> (sectionToParentMap idx))
    | None => idx
    end in
  let idx := foldl (indexContent (Some section)) idx (contents section) in
  (fix subs (l : list LumiSection) (idx : Index) : Index :=
     match l with
     | [] => idx
     | sub :: rest => subs rest (indexSection (Some section) idx sub)
     end) (subSections section) idx.

(** Modelled from the spec: the constructor of [LumiDocManager]: the
    abstract (attributed to no section), the top-level sections, then the
    spans of the references and of the footnotes. *)
Definition indexDocument (doc : LumiDoc) : Index :=
  let idx := mkIndex ∅ ∅ ∅ in
  let idx := foldl (indexContent None) idx (abstract doc) in
  let idx := foldl (indexSection None) idx (sections doc) in
  let idx := foldl (indexSpan None) idx (ref_span <$> doc_references doc) in
  foldl (indexSpan None) idx (note_span <$> doc_footnotes doc).

Definition getSpanById (doc : LumiDoc) (id : string) : option LumiSpan :=
  spanMap (indexDocument doc) !! id.

Definition getSectionForSpan (doc : LumiDoc) (id : string) : option LumiSection :=
  spanToSectionMap (indexDocument doc) !! id.

Definition getParentSection (doc : LumiDoc) (id : string) : option LumiSection :=
  sectionToParentMap (indexDocument doc) !! id.

(** *** Notions used to state the index's contract *)

(** The spans directly in the content of a section. *)
Definition sectionSpans (section : LumiSection) : list LumiSpan :=
  flat_map contentSpans (contents section).

(** A section and the sections nested below it, parent first. *)
Fixpoint sectionsOf (section : LumiSection) : list LumiSection :=
  section ::
  (fix below (l : list LumiSection) : list LumiSection :=
     match l with
     | [] => []
     | sub :: rest => sectionsOf sub ++ below rest
     end) (subSections section).

(** The span ids walked inside a section, each with the section that
    directly contains the span, in the order of the walk. *)
Fixpoint ownedPairs (section : LumiSection) : list (string * LumiSection) :=
  ((λ s, (span_id s, section)) <$> sectionSpans section) ++
  (fix below (l : list LumiSection) : list (string * LumiSection) :=
     match l with
     | [] => []
     | sub :: rest => ownedPairs sub ++ below rest
     end) (subSections section).

(** Recording the pairs of a walk, in order. *)
Definition recordAll (pairs : list (string * LumiSection))
      (m : gmap string LumiSection) : gmap string LumiSection :=
  foldl (λ m kv, <[kv.1 := kv.2]> m) m pairs.

Definition allSections (doc : LumiDoc) : list LumiSection :=
  flat_map sectionsOf (sections doc).

Definition abstractSpans (doc : LumiDoc) : list LumiSpan :=
  flat_map contentSpans (abstract doc).

(** The ids of the spans of the sections, and of the abstract and the
    sections together. *)
Definition sectionSpanIds (doc : LumiDoc) : list string :=
  fst <$> flat_map ownedPairs (sections doc).

Definition docSpanIds (doc : LumiDoc) : list string :=
  (span_id <$> abstractSpans doc) ++ sectionSpanIds doc.

(** The fixture of the [getSectionForSpan] tests of
    [lumi_doc_manager.test.ts]. *)
Definition createSpan (id text : string) : LumiSpan := mkLumiSpan id text [].

Definition subSectionFixture : LumiSection :=
  mkLumiSection "sub-section" 1 "Test Section"
    [TextContent "p" [createSpan "span-2" "Nested"]] [].

Definition topSectionFixture : LumiSection :=
  mkLumiSection "top-section" 1 "Test Section"
    [TextContent "p" [createSpan "span-1" "Top level"];
     ListContentBlock
       (mkListContent [([createSpan "span-3" "In a list"], None)] false)]
    [subSectionFixture].

Definition docFixture : LumiDoc :=
  mkLumiDoc [TextContent "p" [createSpan "abstract-span" "Abstract"]]
            [topSectionFixture] [] [].

End LumiDocManager.

(** ** Requests and answers ([shared/api.ts]) *)

Module Api.

Record ImageInfo := mkImageInfo {
  imageStoragePath : string;
  image_caption : option string
}.

Record LumiAnswerRequest := mkLumiAnswerRequest {
  query : option string;
  highlight : option string;
  highlightedSpans : option (list SelectionUtils.HighlightSelection);
  image : option ImageInfo
}.

Record LumiAnswer := mkLumiAnswer {
  answer_id : string;
  request : LumiAnswerRequest;
  responseContent : list LumiDocManager.LumiContent;
  timestamp : Z;
  isLoading : option bool
}.

End Api.

(** ** Collapse state of the answers ([shared/history_collapse_manager.ts]) *)

Module HistoryCollapseManager.
Import Api.

Definition INITIAL_ANSWERS_COLLAPSE_STATE : bool := true.
Definition FIRST_ANSWER_COLLAPSE_STATE : bool := false.

(** The observable field [answerCollapseState]. *)
Abbreviation CollapseState := (gmap string bool).

Definition create : CollapseState := ∅.

(** [answers.forEach((answer, index) => ...set(answer.id, collapseState))]. *)
Definition initialize (answers : list LumiAnswer) (state : CollapseState)
  : CollapseState :=
  foldl (λ state '(index, answer),
           let collapseState := INITIAL_ANSWERS_COLLAPSE_STATE in
           let collapseState :=
             if bool_decide (index = 0%nat) then FIRST_ANSWER_COLLAPSE_STATE
             else collapseState in
           <[answer_id answer := collapseState]> state)
        state (imap pair answers).

(** [get(answerId) ?? false]. *)
Definition isAnswerCollapsed (state : CollapseState) (answerId : string) : bool :=
  default false (state !! answerId).

Definition setAnswerCollapsed (answerId : string) (value : bool)
    (state : CollapseState) : CollapseState :=
  <[answerId := value]> state.

Definition toggleAnswerCollapsed (answerId : string) (state : CollapseState)
  : CollapseState :=
  let currentState := isAnswerCollapsed state answerId in
  <[answerId := negb currentState]> state.

(** The loop runs over the keys the map has when it starts; it only
    overwrites entries of those keys, so their order does not matter. *)
Definition collapseAllAnswersExcept (answerIdToKeepExpanded : string)
    (state : CollapseState) : CollapseState :=
  let state' :=
    foldl (λ st answerId,
             if bool_decide (answerId ≠ answerIdToKeepExpanded)
             then <[answerId := true]> st else st)
          state (map_to_list state).*1 in
  <[answerIdToKeepExpanded := false]> state'.

End HistoryCollapseManager.

(** ** Summary lookups ([shared/lumi_summary_maps.ts]) *)

Module LumiSummaryMaps.

(** [LumiSummary] and [LumiSummaries] of [shared/lumi_doc.ts], with the
    fields the fixtures of the sources give them. *)
Record LumiSummary := mkLumiSummary {
  summary_id : string;
  summary : LumiSpan
}.

Record LumiSummaries := mkLumiSummaries {
  sectionSummaries : list LumiSummary;
  contentSummaries : list LumiSummary;
  spanSummaries : list LumiSummary
}.

Record Maps := mkMaps {
  sectionSummariesMap : gmap string LumiSummary;
  contentSummariesMap : gmap string LumiSummary;
  spanSummariesMap : gmap string LumiSummary
}.

(** [newSummariesMap = new Map(); summaries.forEach(s => set(s.id, s))]. *)
Definition newSummariesMap (summaries : list LumiSummary) : gmap string LumiSummary :=
  foldl (λ m s, <[summary_id s := s]> m) ∅ summaries.

Definition setSectionSummaries (summaries : list LumiSummary) (maps : Maps) : Maps :=
  mkMaps (newSummariesMap summaries) (contentSummariesMap maps)
         (spanSummariesMap maps).

Definition setContentSummaries (summaries : list LumiSummary) (maps : Maps) : Maps :=
  mkMaps (sectionSummariesMap maps) (newSummariesMap summaries)
         (spanSummariesMap maps).

Definition setSpanSummaries (summaries : list LumiSummary) (maps : Maps) : Maps :=
  mkMaps (sectionSummariesMap maps) (contentSummariesMap maps)
         (newSummariesMap summaries).

(** The constructor: the three setters on the empty maps of the field
    initialisers. *)
Definition create (summaries : LumiSummaries) : Maps :=
  setSpanSummaries (spanSummaries summaries)
    (setContentSummaries (contentSummaries summaries)
       (setSectionSummaries (sectionSummaries summaries) (mkMaps ∅ ∅ ∅))).

End LumiSummaryMaps.

(** ** The abstract ([components/lumi_doc/lumi_abstract.ts]) *)

Module LumiAbstract.
Import LumiDocManager LumiSpanUtils.

(** [content.textContent?.spans]: nothing for a block that is not text. *)
Definition textSpans (content : LumiContent) : list LumiSpan :=
  match content with
  | TextContent _ spans => spans
  | _ => []
  end.

(** The highlight pushed for the excerpt span:
    [{color: "cyan", spanId: span.id,
      position: {startIndex: 0, endIndex: span.text.length - 1}}]. *)
Definition excerptHighlight (span : LumiSpan) : Highlight :=
  mkHighlight "cyan" (span_id span)
              (Some (mkPosition 0 (Z.of_nat (String.length (text span)) - 1)))
              None.

(** The body of the inner [map] of [updateHighlightsMap]; [excerptSpanId]
    is [None] when the property is [undefined]. *)
Definition newHighlights (isCollapsed : bool) (excerptSpanId : option string)
    (span : LumiSpan) : list Highlight :=
  let newHighlights := [] in
  if negb isCollapsed && bool_decide (Some (span_id span) = excerptSpanId)
  then newHighlights ++ [excerptHighlight span]
  else newHighlights.

(** [updateHighlightsMap()]: the map is cleared, then every span of every
    text block of the abstract gets an entry. *)
Definition updateHighlightsMap (abstract : list LumiContent) (isCollapsed : bool)
    (excerptSpanId : option string) : gmap string (list Highlight) :=
  foldl (λ highlightsMap content,
           foldl (λ highlightsMap span,
                    <[span_id span := newHighlights isCollapsed excerptSpanId span]>
                      highlightsMap)
                 highlightsMap (textSpans content))
        ∅ abstract.

(** The highlights [render] gives to the unit of one span:
    [[...(highlightsMap.get(span.id) ?? []),
      ...getSpanHighlightsFromManagers(span.id, ...)]]. *)
Definition spanHighlights (highlightsMap : gmap string (list Highlight))
    (span : LumiSpan)
    (highlightManager : option HighlightManager.HighlightManagerBase)
    (answerHighlightManager : option (string → list Highlight))
  : list Highlight :=
  default [] (highlightsMap !! span_id span)
  ++ getSpanHighlightsFromManagers (span_id span) highlightManager
                                   answerHighlightManager.

End LumiAbstract.

(** ** Summaries of a content block ([components/lumi_doc/content_summary.ts]) *)

Module ContentSummary.
Import LumiDocManager.

(** A [Map] whose order of entries matters, as the list of its entries in
    insertion order. *)
Abbreviation OrderedMap K V := (list (K * V)).

(** The body of the [forEach] of [renderSpanSummaries] on
    [summariesToSpanIds]: the id is pushed on the array of the entry of the
    text when there is one, and a new entry is set otherwise, at the end. *)
Fixpoint pushSpanId (summaryText spanId : string)
    (summariesToSpanIds : OrderedMap string (list string))
  : OrderedMap string (list string) :=
  match summariesToSpanIds with
  | [] => [(summaryText, [spanId])]
  | (key, existingIds) :: rest =>
      if bool_decide (key = summaryText)
      then (key, existingIds ++ [spanId]) :: rest
      else (key, existingIds) :: pushSpanId summaryText spanId rest
  end.

Definition summariesToSpanIds
    (spanSummaries : OrderedMap string LumiSummaryMaps.LumiSummary)
  : OrderedMap string (list string) :=
  foldl (λ entries summary,
           pushSpanId (text (LumiSummaryMaps.summary summary))
                      (LumiSummaryMaps.summary_id summary) entries)
        [] spanSummaries.*2.

(** What [renderSpanSummaries] lays out: [None] is [nothing] for the whole
    block; otherwise one item per entry of [summariesToSpanIds], the
    representative summary with the span ids of the entry, or [None] where
    the callback returns [nothing]. *)
Definition renderSpanSummaries
    (spanSummaries : option (OrderedMap string LumiSummaryMaps.LumiSummary))
    (content : LumiContent)
  : option (list (option (LumiSummaryMaps.LumiSummary * list string))) :=
  match spanSummaries with
  | None => None
  | Some spanSummaries =>
      if bool_decide (length spanSummaries ≤ 1)%nat then None
      else match content with
           | ListContentBlock _ => None
           | _ =>
               Some ((λ '(summaryText, spanIds),
                        match List.find
                                (λ s, bool_decide
                                        (text (LumiSummaryMaps.summary s)
                                         = summaryText))
                                spanSummaries.*2 with
                        | Some summary => Some (summary, spanIds)
                        | None => None
                        end) <$> summariesToSpanIds spanSummaries)
           end
  end.

(** The ids of the summaries of a list that have the text [summaryText]. *)
Definition idsWithText (summaries : list LumiSummaryMaps.LumiSummary)
    (summaryText : string) : list string :=
  LumiSummaryMaps.summary_id
    <$> List.filter (λ s, bool_decide (text (LumiSummaryMaps.summary s)
                                       = summaryText)) summaries.

(** The texts of the summaries of a list, each once, in the order in which
    they first occur. *)
Definition distinctTexts (summaries : list LumiSummaryMaps.LumiSummary)
  : list string :=
  foldl (λ seen s,
           if bool_decide (text (LumiSummaryMaps.summary s) ∈ seen) then seen
           else seen ++ [text (LumiSummaryMaps.summary s)])
        [] summaries.

End ContentSummary.

(** ** String utilities ([shared/string_utils.ts]) *)

Module StringUtils.

(** [pieces.join(sep)]. *)
Definition join (sep : string) (pieces : list string) : string :=
  String.concat sep pieces.

Record KeyValue := mkKeyValue { key : string; value : string }.

(** [split = s.split(":"); key = split[0].trim();
     value = split.slice(1).join(":").trim()]. [split] has at least one
    piece. *)
Definition parseColonKeyValue (originalString : string) : KeyValue :=
  let split := Js.split ":" originalString in
  let key := Js.trim (default EmptyString (head split)) in
  let value := Js.trim (join ":" (tail split)) in
  mkKeyValue key value.

(** The character classes [[a-zA-Z]] and [\d]. *)
Definition isLetter (c : ascii) : bool :=
  let n := nat_of_ascii c in
  ((65 <=? n) && (n <=? 90) || (97 <=? n) && (n <=? 122))%nat.

Definition isDigit (c : ascii) : bool :=
  let n := nat_of_ascii c in ((48 <=? n) && (n <=? 57))%nat.

(** The literal [lit] at the start of [s]: what follows it. *)
Fixpoint afterLiteral (lit s : string) : option string :=
  match lit, s with
  | EmptyString, _ => Some s
  | String a lit', String b s' =>
      if bool_decide (a = b) then afterLiteral lit' s' else None
  | String _ _, EmptyString => None
  end.

(** [[a-zA-Z]+], greedy: what follows the longest run of letters, and
    whether the run is not empty. A shorter run cannot be followed by the
    ["/"] the pattern asks for next, so that the longest is the only one to
    try. *)
Fixpoint afterLetters (s : string) : string :=
  match s with
  | String c s' => if isLetter c then afterLetters s' else s
  | EmptyString => EmptyString
  end.

(** [\d{n}]: the [n] digits at the start of [s] and what follows them. *)
Fixpoint digits (n : nat) (s : string) : option (string * string) :=
  match n with
  | O => Some (EmptyString, s)
  | S n' =>
      match s with
      | String c s' =>
          if isDigit c
          then match digits n' s' with
               | Some (ds, rest) => Some (String c ds, rest)
               | None => None
               end
          else None
      | EmptyString => None
      end
  end.

(** [(?!\d)]: the next character is not a digit. *)
Definition notDigitNext (s : string) : bool :=
  match s with
  | String c _ => negb (isDigit c)
  | EmptyString => true
  end.

(** [ARXIV_CAPTURE_REGEX] matched at the start of [s]: the capture group.
    [/arxiv\.org\/[a-zA-Z]+\/(\d{4}\.\d{5})(?!\d)/]. *)
Definition matchArxivAt (s : string) : option string :=
  match afterLiteral "arxiv.org/" s with
  | None => None
  | Some s1 =>
      match s1 with
      | String c _ =>
          if isLetter c then
            match afterLiteral "/" (afterLetters s1) with
            | None => None
            | Some s2 =>
                match digits 4 s2 with
                | None => None
                | Some (d4, s3) =>
                    match afterLiteral "." s3 with
                    | None => None
                    | Some s4 =>
                        match digits 5 s4 with
                        | None => None
                        | Some (d5, s5) =>
                            if notDigitNext s5
                            then Some (d4 +:+ "." +:+ d5)%string
                            else None
                        end
                    end
                end
            end
          else None
      | EmptyString => None
      end
  end.

(** [ARXIV_CAPTURE_REGEX.exec(url)]: the match at the leftmost position
    that has one. *)
Fixpoint execArxiv (url : string) : option string :=
  match matchArxivAt url with
  | Some id => Some id
  | None =>
      match url with
      | String _ rest => execArxiv rest
      | EmptyString => None
      end
  end.

Definition extractArxivId (url : string) : option string :=
  match execArxiv url with
  | None => None
  | Some id => if bool_decide (id = EmptyString) then None else Some id
  end.

(** Every character of [s] meets [P]. *)
Fixpoint allChars (P : ascii → bool) (s : string) : bool :=
  match s with
  | EmptyString => true
  | String c rest => P c && allChars P rest
  end.

Definition noColon (s : string) : bool :=
  allChars (λ c, negb (bool_decide (c = ":"%char))) s.

End StringUtils.

(** * Properties *)

(** ** Highlight store *)

Section HighlightStore.
Import HighlightManager.

Lemma getSpanHighlights_addHighlight m h id :
  getSpanHighlights (addHighlight m h) id =
  getSpanHighlights m id ++ (if targets id h then [h] else []).
Proof.
  unfold getSpanHighlights, addHighlight, targets; simpl.
  case_bool_decide as E.
  - subst id. by rewrite lookup_insert_eq.
  - rewrite lookup_insert_ne by done. by rewrite app_nil_r.
Qed.

Lemma getSpanHighlights_addHighlights hs : ∀ m id,
  getSpanHighlights (addHighlights hs m) id =
  getSpanHighlights m id ++ List.filter (targets id) hs.
Proof.
  unfold addHighlights.
  induction hs as [|h hs IH]; intros m id; simpl.
  - by rewrite app_nil_r.
  - rewrite IH, getSpanHighlights_addHighlight.
    rewrite <- app_assoc. by destruct (targets id h).
Qed.

Lemma filter_targets_all id hs :
  Forall (λ h, spanId h = id) hs → List.filter (targets id) hs = hs.
Proof.
  induction 1 as [|h hs Hh _ IH]; simpl; [done|].
  unfold targets at 1. rewrite bool_decide_eq_true_2 by done. by rewrite IH.
Qed.

Lemma getSpanHighlights_removeHighlights ids : ∀ m id,
  getSpanHighlights (removeHighlights ids m) id =
  if bool_decide (id ∈ ids) then [] else getSpanHighlights m id.
Proof.
  unfold removeHighlights.
  induction ids as [|x ids IH]; intros m id; cbn [foldl].
  - rewrite bool_decide_eq_false_2; [done | by apply not_elem_of_nil].
  - rewrite IH.
    assert (Hdel : getSpanHighlights
              (mkManager (delete x (highlightedSpans m)) (highlightedImages m)) id
            = if bool_decide (id = x) then [] else getSpanHighlights m id).
    { unfold getSpanHighlights; simpl. case_bool_decide as E.
      - subst. by rewrite lookup_delete_eq.
      - by rewrite lookup_delete_ne. }
    rewrite Hdel.
    destruct (decide (id = x)) as [->|Hne].
    + rewrite (bool_decide_eq_true_2 (x ∈ x :: ids)) by apply list_elem_of_here.
      rewrite (bool_decide_eq_true_2 (x = x)) by done.
      by destruct (bool_decide (x ∈ ids)).
    + rewrite (bool_decide_eq_false_2 (id = x)) by done.
      destruct (decide (id ∈ ids)) as [Hin|Hnin].
      * rewrite !bool_decide_eq_true_2; [done | by apply list_elem_of_further | done].
      * rewrite !bool_decide_eq_false_2; [done | | done].
        rewrite elem_of_cons. tauto.
Qed.

Lemma removeHighlights_unknown m id :
  highlightedSpans m !! id = None → removeHighlights [id] m = m.
Proof.
  intros Hnone. destruct m as [spans images]; simpl in *.
  unfold removeHighlights; simpl. by rewrite delete_id.
Qed.

(** C7. Adding highlights appends each one to the list of its span, after
    the highlights the span already has and in the order given; removing
    span ids empties exactly those spans and leaves the others alone, and
    removing an id without entries changes nothing; clearing empties every
    span; a span without entries has the empty list. *)
Theorem highlight_store_contract (m : HighlightManagerBase) :
  (∀ hs id, getSpanHighlights (addHighlights hs m) id =
            getSpanHighlights m id ++ List.filter (targets id) hs) ∧
  (∀ hs X, Forall (λ h, spanId h = X) hs →
           getSpanHighlights (addHighlights hs m) X = getSpanHighlights m X ++ hs) ∧
  (∀ ids id, getSpanHighlights (removeHighlights ids m) id =
             if bool_decide (id ∈ ids) then [] else getSpanHighlights m id) ∧
  (∀ X, highlightedSpans m !! X = None → removeHighlights [X] m = m) ∧
  (∀ id, getSpanHighlights (clearHighlights m) id = []) ∧
  (∀ id, highlightedSpans m !! id = None → getSpanHighlights m id = []).
Proof.
  split_and!.
  - intros. apply getSpanHighlights_addHighlights.
  - intros hs X HX.
    by rewrite getSpanHighlights_addHighlights, filter_targets_all.
  - intros. apply getSpanHighlights_removeHighlights.
  - intros. by apply removeHighlights_unknown.
  - intros id. unfold getSpanHighlights, clearHighlights.
    cbn [highlightedSpans]. by rewrite lookup_empty.
  - intros id Hnone. unfold getSpanHighlights. by rewrite Hnone.
Qed.

(** The store of the test suite: one highlight on [s1], then two more. *)
Lemma highlight_store_contract_witness :
  let h c := mkHighlight c "s1" None None in
  let m := addHighlights [h "yellow"] create in
  getSpanHighlights (addHighlights [h "green"; h "blue"] m) "s1"
    = [h "yellow"; h "green"; h "blue"]
  ∧ removeHighlights ["s2"] m = m
  ∧ getSpanHighlights m "s2" = [].
Proof.
  intros h m.
  destruct (highlight_store_contract m) as (_ & Happ & _ & Hrm & _ & Hq).
  split; [|split].
  - apply (Happ [h "green"; h "blue"] "s1").
    repeat constructor.
  - apply Hrm. vm_compute. reflexivity.
  - apply Hq. vm_compute. reflexivity.
Defined.

End HighlightStore.

(** ** Tag flattener *)

Section TagFlattener.
Import LumiSpanUtils.

(** Induction on a tag with the property available for its children. *)
Lemma InnerTag_nested_ind (P : InnerTag → Prop) :
  (∀ tag, Forall P (subTags tag) → P tag) → ∀ tag, P tag.
Proof.
  intros step. fix IH 1. intros [name pos md kids].
  apply step. unfold subTags; simpl.
  destruct kids as [kids|]; simpl; [|constructor].
  induction kids as [|kid kids IHkids]; constructor; [apply IH | apply IHkids].
Qed.

Lemma flattenTag_unfold off tag :
  flattenTag off tag =
  emitted off tag :: flattenTags (subTags tag) (startIndex (position tag) + off).
Proof.
  destruct tag as [name pos md [kids|]]; unfold subTags, emitted; simpl; [|done].
  f_equal. case_bool_decide as Hlen.
  - clear Hlen. induction kids as [|kid kids IH]; [done|].
    unfold flattenTags in *. simpl. by rewrite IH.
  - destruct kids; [done|]. simpl in Hlen. lia.
Qed.

Lemma flattenTags_cons off tag rest :
  flattenTags (tag :: rest) off =
  emitted off tag :: flattenTags (subTags tag) (startIndex (position tag) + off)
  ++ flattenTags rest off.
Proof. unfold flattenTags at 1. simpl. by rewrite flattenTag_unfold. Qed.

Lemma tagSize_unfold tag : tagSize tag = S (forestSize (subTags tag)).
Proof.
  destruct tag as [name pos md [kids|]]; unfold subTags, forestSize; simpl; [|done].
  f_equal. induction kids as [|kid kids IH]; [done|]. simpl. by rewrite IH.
Qed.

Lemma flattenTag_length tag : ∀ off, length (flattenTag off tag) = tagSize tag.
Proof.
  induction tag as [tag IH] using InnerTag_nested_ind. intros off.
  rewrite flattenTag_unfold, tagSize_unfold. simpl. f_equal.
  generalize (startIndex (position tag) + off). intros off'.
  induction IH as [|kid kids Hkid _ IHkids]; [done|].
  unfold flattenTags, forestSize in *. simpl.
  by rewrite length_app, Hkid, IHkids.
Qed.

Lemma flattenTags_length tags off :
  length (flattenTags tags off) = forestSize tags.
Proof.
  unfold flattenTags, forestSize.
  induction tags as [|tag tags IH]; [done|]. simpl.
  by rewrite length_app, flattenTag_length, IH.
Qed.

Lemma flattenTags_lookup_tree off tags : ∀ i tag k,
  tags !! i = Some tag → (k < tagSize tag)%nat →
  flattenTags tags off !! (forestSize (take i tags) + k)%nat
  = flattenTag off tag !! k.
Proof.
  induction tags as [|t tags IH]; intros [|i] tag k Hi Hk; simplify_eq/=.
  - unfold flattenTags. simpl. rewrite lookup_app_l; [done|].
    by rewrite flattenTag_length.
  - unfold flattenTags, forestSize in *. simpl.
    rewrite lookup_app_r; rewrite flattenTag_length; [|lia].
    rewrite <- (IH i tag k Hi Hk). f_equal. unfold fmap. lia.
Qed.

Lemma flattenTags_at_path : ∀ path tags off ancestors tag,
  tagAt tags path = Some (ancestors, tag) →
  flattenTags tags off !! preorderIndex tags path
  = Some (emitted (relativeStarts ancestors + off) tag).
Proof.
  induction path as [|i rest IH]; intros tags off ancestors tag Hat; [done|].
  simpl in Hat. destruct (tags !! i) as [t|] eqn:Hi; [|done].
  destruct rest as [|j rest].
  - simplify_eq/=.
    rewrite (flattenTags_lookup_tree off tags i tag 0 Hi);
      [|rewrite tagSize_unfold; lia].
    by rewrite flattenTag_unfold.
  - destruct (tagAt (subTags t) (j :: rest)) as [[anc found]|] eqn:Hsub; [|done].
    simplify_eq.
    pose proof (IH (subTags t) (startIndex (position t) + off) anc tag Hsub) as Hin.
    cbn [preorderIndex]. rewrite Hi.
    rewrite (flattenTags_lookup_tree off tags i t _ Hi).
    + rewrite flattenTag_unfold.
      transitivity (flattenTags (subTags t) (startIndex (position t) + off)
                    !! preorderIndex (subTags t) (j :: rest)); [reflexivity|].
      rewrite Hin. do 2 f_equal. unfold relativeStarts. simpl. lia.
    + apply lookup_lt_Some in Hin. rewrite flattenTags_length in Hin.
      change (1 + preorderIndex (subTags t) (j :: rest) < tagSize t)%nat.
      rewrite tagSize_unfold. lia.
Qed.

Lemma flattenTags_children_cleared tags :
  ∀ off, Forall (λ e, children e = None) (flattenTags tags off).
Proof.
  induction tags as [|tag tags IHtags]; intros off; [constructor|].
  unfold flattenTags. simpl. apply Forall_app. split; [|apply IHtags].
  clear. revert off.
  induction tag as [tag IH] using InnerTag_nested_ind. intros off.
  rewrite flattenTag_unfold. constructor; [done|].
  generalize (startIndex (position tag) + off). intros off'.
  induction IH as [|kid kids Hkid _ IHkids]; [constructor|].
  unfold flattenTags. simpl. apply Forall_app. split; [apply Hkid | apply IHkids].
Qed.

Lemma tagAt_snoc : ∀ path tags i ancestors tag,
  path ≠ [] → tagAt tags (path ++ [i]) = Some (ancestors, tag) →
  ∃ above parent,
    tagAt tags path = Some (above, parent) ∧ ancestors = above ++ [parent]
    ∧ subTags parent !! i = Some tag.
Proof.
  induction path as [|j rest IH]; intros tags i ancestors tag Hne Hat; [done|].
  simpl in Hat. destruct (tags !! j) as [t|] eqn:Hj; [|done].
  destruct rest as [|k rest]; simpl in Hat.
  - destruct (subTags t !! i) as [x|] eqn:Hx; [|done]. simplify_eq.
    exists [], t. simpl. by rewrite Hj.
  - change (match tagAt (subTags t) ((k :: rest) ++ [i]) with
            | Some (ancestors, found) => Some (t :: ancestors, found)
            | None => None
            end = Some (ancestors, tag)) in Hat.
    destruct (tagAt (subTags t) ((k :: rest) ++ [i])) as [[anc found]|] eqn:Hsub;
      [|done].
    simplify_eq.
    destruct (IH (subTags t) i anc tag ltac:(done) Hsub)
      as (above & parent & Hp & -> & Hi).
    exists (t :: above), parent. split_and!; [|done|done].
    change (match tags !! j with
            | Some tag0 =>
                match tagAt (subTags tag0) (k :: rest) with
                | Some (ancestors, found) => Some (tag0 :: ancestors, found)
                | None => None
                end
            | None => None
            end = Some (t :: above, parent)).
    by rewrite Hj, Hp.
Qed.

Lemma relativeStarts_snoc above parent :
  relativeStarts (above ++ [parent])
  = startIndex (position parent) + relativeStarts above.
Proof.
  unfold relativeStarts. induction above as [|a above IH]; simpl; [lia|].
  rewrite IH. lia.
Qed.

(** C4, as the code has it. The flattener lists the tags depth-first, each
    parent immediately followed by its flattened subtree and then by its
    later siblings; the tag reached by a path of child indices is emitted at
    its depth-first rank with its own relative start and end offsets shifted
    by the sum of its ancestors' relative start offsets, which is the
    absolute start offset of its parent (0 at the root); every emitted tag
    has its children cleared, and nothing else is emitted. *)
Theorem flattenTags_depth_first_offsets (tags : list InnerTag) :
  (∀ off tag rest,
     flattenTags (tag :: rest) off =
     emitted off tag :: flattenTags (subTags tag) (startIndex (position tag) + off)
     ++ flattenTags rest off) ∧
  length (flattenTags tags 0) = forestSize tags ∧
  (∀ path ancestors tag,
     tagAt tags path = Some (ancestors, tag) →
     flattenTags tags 0 !! preorderIndex tags path
     = Some (emitted (relativeStarts ancestors) tag)) ∧
  (∀ path i ancestors tag,
     path ≠ [] → tagAt tags (path ++ [i]) = Some (ancestors, tag) →
     relativeStarts ancestors = absoluteStart tags path) ∧
  Forall (λ e, children e = None) (flattenTags tags 0).
Proof.
  split_and!.
  - intros. apply flattenTags_cons.
  - apply flattenTags_length.
  - intros path ancestors tag Hat.
    rewrite (flattenTags_at_path path tags 0 ancestors tag Hat).
    by rewrite Z.add_0_r.
  - intros path i ancestors tag Hne Hat.
    destruct (tagAt_snoc path tags i ancestors tag Hne Hat)
      as (above & parent & Hp & -> & _).
    unfold absoluteStart.
    rewrite (flattenTags_at_path path tags 0 above parent Hp).
    rewrite relativeStarts_snoc. simpl. lia.
  - apply flattenTags_children_cleared.
Qed.

(** The fixture of the test suite: the underline tag, third level, is
    emitted third at [17,23]. *)
Lemma flattenTags_depth_first_offsets_witness :
  tagAt nestedFixture [0; 0; 0]%nat
  = Some ([mkInnerTag BOLD (mkPosition 10 50) ∅
             (Some [mkInnerTag ITALIC (mkPosition 5 25) ∅
                      (Some [mkInnerTag UNDERLINE (mkPosition 2 8) ∅ None]);
                    mkInnerTag A (mkPosition 30 35) ∅ None]);
           mkInnerTag ITALIC (mkPosition 5 25) ∅
             (Some [mkInnerTag UNDERLINE (mkPosition 2 8) ∅ None])],
          mkInnerTag UNDERLINE (mkPosition 2 8) ∅ None)
  ∧ flattenTags nestedFixture 0 !! 2%nat
    = Some (mkInnerTag UNDERLINE (mkPosition 17 23) ∅ None)
  ∧ 15 = absoluteStart nestedFixture [0; 0]%nat.
Proof.
  destruct (flattenTags_depth_first_offsets nestedFixture)
    as (_ & _ & Hpath & Hparent & _).
  split_and!.
  - reflexivity.
  - exact (Hpath [0; 0; 0]%nat _ _ eq_refl).
  - refine (Hparent [0; 0]%nat 0%nat _ _ _ eq_refl). discriminate.
Defined.

(** C4, as stated: shifting by the sum of the ancestors' absolute start
    offsets is wrong from the third level on. In the fixture the ancestors of
    the underline tag start at 10 and 15 in absolute terms; the tag would be
    at [27,33], and it is emitted at [17,23]. *)
Lemma flattenTags_absolute_sum_counterexample :
  ¬ (∀ tags path ancestors tag,
       tagAt tags path = Some (ancestors, tag) →
       flattenTags tags 0 !! preorderIndex tags path
       = Some (emitted (ancestorAbsoluteStarts tags path) tag)).
Proof.
  intros claim.
  specialize (claim nestedFixture [0; 0; 0]%nat _ _ eq_refl).
  vm_compute in claim. discriminate claim.
Qed.

End TagFlattener.

(** ** Compositor: the marking pass *)

Section Marking.
Import LumiSpanViz.

Lemma markAt_length f i cs : length (markAt f i cs) = length cs.
Proof.
  unfold markAt. destruct (Js.at_index cs i); [|done]. apply length_insert.
Qed.

Lemma markAt_lookup f i cs (j : nat) :
  markAt f i cs !! j
  = if bool_decide (Z.of_nat j = i) then f <$> cs !! j else cs !! j.
Proof.
  unfold markAt, Js.at_index.
  case_bool_decide as Hpos.
  - destruct (cs !! Z.to_nat i) as [c|] eqn:Hc.
    + rewrite list_lookup_insert.
      apply lookup_lt_Some in Hc as Hlt.
      case_decide as Hd; case_bool_decide as Hj; try lia.
      * destruct Hd as [<- _]. by rewrite Hc.
      * done.
    + case_bool_decide as Hj; [|done].
      replace j with (Z.to_nat i) by lia. by rewrite Hc.
  - case_bool_decide as Hj; [lia|done].
Qed.

(** A write outside [0, length) is dropped. *)
Lemma markAt_out_of_range f i cs :
  i < 0 ∨ Z.of_nat (length cs) ≤ i → markAt f i cs = cs.
Proof.
  intros Hout. unfold markAt, Js.at_index.
  case_bool_decide as Hpos; [|done].
  destruct (cs !! Z.to_nat i) as [c|] eqn:Hc; [|done].
  apply lookup_lt_Some in Hc. lia.
Qed.

Lemma forRange_markAt_length f : ∀ n i cs,
  length (Js.forRange n i (markAt f) cs) = length cs.
Proof.
  induction n as [|n IH]; intros i cs; simpl; [done|].
  by rewrite IH, markAt_length.
Qed.

Lemma forRange_markAt_lookup f (j : nat) : ∀ n i cs,
  Js.forRange n i (markAt f) cs !! j
  = if bool_decide (i ≤ Z.of_nat j < i + Z.of_nat n) then f <$> cs !! j
    else cs !! j.
Proof.
  induction n as [|n IH]; intros i cs; simpl.
  - case_bool_decide; [lia|done].
  - rewrite IH, markAt_lookup.
    repeat case_bool_decide; try lia; done.
Qed.

Lemma forLoop_markAt_length f start stop cs :
  length (Js.forLoop start stop (markAt f) cs) = length cs.
Proof. apply forRange_markAt_length. Qed.

Lemma forLoop_markAt_lookup f start stop cs (j : nat) :
  Js.forLoop start stop (markAt f) cs !! j
  = if covers j (mkPosition start stop) then f <$> cs !! j else cs !! j.
Proof.
  unfold Js.forLoop, covers. rewrite forRange_markAt_lookup. simpl.
  repeat case_bool_decide; try lia; done.
Qed.

Lemma markTag_lookup cs tag (j : nat) :
  markTag cs tag !! j
  = if covers j (position tag) then tagUpdate tag <$> cs !! j else cs !! j.
Proof.
  unfold markTag. rewrite forLoop_markAt_lookup. by destruct (position tag).
Qed.

Lemma markHighlight_lookup spanText cs h (j : nat) :
  markHighlight spanText cs h !! j
  = if covers j (highlightRange spanText h) then highlightUpdate h <$> cs !! j
    else cs !! j.
Proof.
  unfold markHighlight, highlightRange. rewrite forLoop_markAt_lookup.
  by destruct (hl_position h) as [[]|].
Qed.

Lemma foldl_markTag_lookup tags (j : nat) : ∀ cs,
  foldl markTag cs tags !! j = applyTags j tags <$> cs !! j.
Proof.
  unfold applyTags.
  induction tags as [|t tags IH]; intros cs; simpl.
  - by destruct (cs !! j).
  - rewrite IH, markTag_lookup.
    destruct (covers j (position t)); [|done]. by destruct (cs !! j).
Qed.

Lemma foldl_markHighlight_lookup spanText hs (j : nat) : ∀ cs,
  foldl (markHighlight spanText) cs hs !! j
  = applyHighlights spanText j hs <$> cs !! j.
Proof.
  unfold applyHighlights.
  induction hs as [|h hs IH]; intros cs; simpl.
  - by destruct (cs !! j).
  - rewrite IH, markHighlight_lookup.
    destruct (covers j (highlightRange spanText h)); [|done]. by destruct (cs !! j).
Qed.

Lemma foldl_markTag_length tags : ∀ cs, length (foldl markTag cs tags) = length cs.
Proof.
  induction tags as [|t tags IH]; intros cs; simpl; [done|].
  rewrite IH. apply forLoop_markAt_length.
Qed.

Lemma foldl_markHighlight_length spanText hs : ∀ cs,
  length (foldl (markHighlight spanText) cs hs) = length cs.
Proof.
  induction hs as [|h hs IH]; intros cs; simpl; [done|].
  rewrite IH. apply forLoop_markAt_length.
Qed.

Lemma length_list_ascii_of_string s :
  length (list_ascii_of_string s) = String.length s.
Proof. induction s as [|c s IH]; simpl; [done|]. by rewrite IH. Qed.

Lemma formattingCountersOf_length spanText tags hs :
  length (formattingCountersOf spanText tags hs) = String.length spanText.
Proof.
  unfold formattingCountersOf.
  rewrite foldl_markHighlight_length, foldl_markTag_length, length_fmap.
  apply length_list_ascii_of_string.
Qed.

Lemma formattingCountersOf_lookup spanText tags hs (j : nat) :
  (j < String.length spanText)%nat →
  formattingCountersOf spanText tags hs !! j
  = Some (applyHighlights spanText j hs (applyTags j tags ∅)).
Proof.
  intros Hj. unfold formattingCountersOf.
  rewrite foldl_markHighlight_lookup, foldl_markTag_lookup, list_lookup_fmap.
  destruct (list_ascii_of_string spanText !! j) eqn:Hc; [done|].
  apply lookup_ge_None in Hc. rewrite length_list_ascii_of_string in Hc. lia.
Qed.

Lemma tagUpdate_lookup_same tag c :
  tagUpdate tag c !! TagKey (tagName tag)
  = Some (default ∅ (c !! TagKey (tagName tag)) ∪ metadata tag).
Proof. unfold tagUpdate. by rewrite lookup_insert_eq. Qed.

Lemma tagUpdate_lookup_other tag c key :
  key ≠ TagKey (tagName tag) → tagUpdate tag c !! key = c !! key.
Proof. intros Hne. unfold tagUpdate. by rewrite lookup_insert_ne. Qed.

Lemma highlightUpdate_lookup_general h c :
  highlightUpdate h c !! GENERAL_HIGHLIGHT_KEY = Some (highlightMark h).
Proof.
  unfold highlightUpdate, highlightMark.
  destruct (hl_metadata h) as [md|]; simpl.
  - by rewrite lookup_insert_eq, lookup_insert_eq.
  - rewrite lookup_insert_eq. by rewrite (right_id ∅ (∪)).
Qed.

Lemma highlightUpdate_lookup_other h c key :
  key ≠ GENERAL_HIGHLIGHT_KEY → highlightUpdate h c !! key = c !! key.
Proof.
  intros Hne. unfold highlightUpdate.
  destruct (hl_metadata h); by rewrite ?lookup_insert_ne.
Qed.

(** The entry of a tag kind: the metadata of the covering tags of that kind,
    merged with the earlier tag winning. *)
Lemma applyTags_lookup_tag name j tags : ∀ c,
  applyTags j tags c !! TagKey name
  = match tagsCovering name j tags with
    | [] => c !! TagKey name
    | covering =>
        Some (default ∅ (c !! TagKey name) ∪ ⋃ (metadata <$> covering))
    end.
Proof.
  unfold applyTags, tagsCovering.
  induction tags as [|t tags IH]; intros c; [done|].
  cbn [foldl List.filter]. rewrite IH.
  destruct (covers j (position t)) eqn:Hcov.
  - destruct (decide (tagName t = name)) as [<-|Hne].
    + rewrite (bool_decide_eq_true_2 (tagName t = tagName t)) by done.
      cbn [andb]. rewrite tagUpdate_lookup_same. cbn [default].
      destruct (List.filter _ tags) as [|t' rest]; cbn [fmap list_fmap union_list foldr].
      * unfold id. by rewrite (right_id ∅ (∪)).
      * unfold id. f_equal. symmetry. apply (assoc (∪)).
    + rewrite (bool_decide_eq_false_2 (tagName t = name)) by done.
      cbn [andb]. rewrite tagUpdate_lookup_other; [done|congruence].
  - by rewrite andb_false_r.
Qed.

Lemma applyTags_lookup_other j tags key : ∀ c,
  (∀ name, key ≠ TagKey name) → applyTags j tags c !! key = c !! key.
Proof.
  unfold applyTags.
  induction tags as [|t tags IH]; intros c Hkey; [done|].
  cbn [foldl]. rewrite IH by done.
  destruct (covers j (position t)); [|done].
  by apply tagUpdate_lookup_other.
Qed.

Lemma applyHighlights_lookup_other spanText j hs key : ∀ c,
  key ≠ GENERAL_HIGHLIGHT_KEY → applyHighlights spanText j hs c !! key = c !! key.
Proof.
  unfold applyHighlights.
  induction hs as [|h hs IH]; intros c Hkey; [done|].
  cbn [foldl]. rewrite IH by done.
  destruct (covers j (highlightRange spanText h)); [|done].
  by apply highlightUpdate_lookup_other.
Qed.

(** The highlight entry: the mark of the last covering highlight alone. *)
Lemma applyHighlights_lookup_general spanText j hs c :
  applyHighlights spanText j hs c !! GENERAL_HIGHLIGHT_KEY
  = match last (highlightsCovering spanText j hs) with
    | Some h => Some (highlightMark h)
    | None => c !! GENERAL_HIGHLIGHT_KEY
    end.
Proof.
  unfold applyHighlights, highlightsCovering.
  induction hs as [|h hs IH] using rev_ind; [done|].
  rewrite foldl_app, List.filter_app. cbn [foldl List.filter].
  destruct (covers j (highlightRange spanText h)).
  - rewrite last_snoc. apply highlightUpdate_lookup_general.
  - by rewrite app_nil_r.
Qed.

(** What the finished table holds for character [j]. *)
Lemma formattingCountersOf_entries spanText tags hs (j : nat) :
  (j < String.length spanText)%nat →
  ∃ counter,
    formattingCountersOf spanText tags hs !! j = Some counter ∧
    (∀ name,
       counter !! TagKey name
       = match tagsCovering name j tags with
         | [] => None
         | covering => Some (⋃ (metadata <$> covering))
         end) ∧
    counter !! GENERAL_HIGHLIGHT_KEY
    = highlightMark <$> last (highlightsCovering spanText j hs) ∧
    counter !! CHARACTER_KEY = None.
Proof.
  intros Hj. eexists. split; [by apply formattingCountersOf_lookup|].
  split_and!.
  - intros name. rewrite applyHighlights_lookup_other by done.
    rewrite applyTags_lookup_tag, lookup_empty. cbn [default].
    destruct (tagsCovering name j tags); [done|].
    by rewrite (left_id ∅ (∪)).
  - rewrite applyHighlights_lookup_general.
    destruct (last _); [done|].
    rewrite applyTags_lookup_other by done. apply lookup_empty.
  - rewrite applyHighlights_lookup_other by done.
    rewrite applyTags_lookup_other by done. apply lookup_empty.
Qed.

Lemma covers_clipPosition n j p :
  (j < n)%nat → covers j (clipPosition n p) = covers j p.
Proof.
  intros Hj. unfold covers, clipPosition. simpl.
  apply bool_decide_ext. lia.
Qed.

Lemma applyTags_clip n j tags :
  (j < n)%nat → ∀ c, applyTags j (clipTag n <$> tags) c = applyTags j tags c.
Proof.
  intros Hj. unfold applyTags.
  induction tags as [|t tags IH]; intros c; [done|].
  cbn [fmap list_fmap foldl].
  change (list_fmap _ _ (clipTag n) tags) with (clipTag n <$> tags).
  cbn [clipTag position]. rewrite covers_clipPosition by done.
  by rewrite IH.
Qed.

Lemma applyHighlights_clip spanText j hs :
  (j < String.length spanText)%nat →
  ∀ c, applyHighlights spanText j (clipHighlight (String.length spanText) <$> hs) c
       = applyHighlights spanText j hs c.
Proof.
  intros Hj. unfold applyHighlights.
  induction hs as [|h hs IH]; intros c; [done|].
  cbn [fmap list_fmap foldl].
  change (list_fmap _ _ (clipHighlight (String.length spanText)) hs)
    with (clipHighlight (String.length spanText) <$> hs).
  assert (Hcov : covers j (highlightRange spanText
                             (clipHighlight (String.length spanText) h))
                 = covers j (highlightRange spanText h)).
  { unfold highlightRange, clipHighlight. simpl.
    destruct (hl_position h) as [p|]; simpl; [|done].
    by apply covers_clipPosition. }
  rewrite Hcov. by rewrite IH.
Qed.

(** C9. The marking pass is total and keeps one counter per character; a
    write outside [0, N) changes nothing; character [j] ends with exactly the
    marks of the tags and highlights whose interval covers [j] (for a tag
    kind, the merged metadata of the covering tags of that kind, for the
    highlight key, the mark of a covering highlight), and cutting every
    interval down to [0, N) beforehand gives the same table. *)
Theorem marking_pass_bounds_checked (spanText : string)
    (tags : list InnerTag) (hs : list Highlight) :
  length (formattingCountersOf spanText tags hs) = String.length spanText ∧
  (∀ update i (cs : list FormattingCounter),
     i < 0 ∨ Z.of_nat (length cs) ≤ i → markAt update i cs = cs) ∧
  (∀ j : nat, (j < String.length spanText)%nat →
     ∃ counter,
       formattingCountersOf spanText tags hs !! j = Some counter ∧
       (∀ name,
          counter !! TagKey name
          = match tagsCovering name j tags with
            | [] => None
            | covering => Some (⋃ (metadata <$> covering))
            end) ∧
       counter !! GENERAL_HIGHLIGHT_KEY
       = highlightMark <$> last (highlightsCovering spanText j hs) ∧
       counter !! CHARACTER_KEY = None) ∧
  formattingCountersOf spanText
    (clipTag (String.length spanText) <$> tags)
    (clipHighlight (String.length spanText) <$> hs)
  = formattingCountersOf spanText tags hs.
Proof.
  split_and!.
  - apply formattingCountersOf_length.
  - intros. by apply markAt_out_of_range.
  - intros j Hj. by apply formattingCountersOf_entries.
  - apply list_eq. intros j.
    destruct (decide (j < String.length spanText)%nat) as [Hj|Hj].
    + rewrite !formattingCountersOf_lookup by done.
      by rewrite applyTags_clip, applyHighlights_clip.
    + rewrite !(proj2 (lookup_ge_None _ _)); [done| |];
        rewrite formattingCountersOf_length; lia.
Qed.

(** A bold tag over [-3, 2) and a highlight over [1, 9) on ["abc"]: the
    out-of-range writes are dropped, character 1 carries both marks. *)
Lemma marking_pass_bounds_checked_witness :
  let tags := [mkInnerTag BOLD (mkPosition (-3) 2) ∅ None] in
  let hs := [mkHighlight "yellow" "s1" (Some (mkPosition 1 9)) None] in
  markAt (tagUpdate (mkInnerTag BOLD (mkPosition (-3) 2) ∅ None)) (-3) [∅; ∅; ∅]
  = [∅; ∅; ∅]
  ∧ ∃ counter,
      formattingCountersOf "abc" tags hs !! 1%nat = Some counter ∧
      counter !! TagKey BOLD = Some ∅ ∧
      counter !! GENERAL_HIGHLIGHT_KEY
      = Some {[COLOR_HIGHLIGHT_KEY := "yellow"]}.
Proof.
  intros tags hs.
  destruct (marking_pass_bounds_checked "abc" tags hs) as (_ & Hdrop & Hj & _).
  split.
  - apply Hdrop. left. lia.
  - destruct (Hj 1%nat ltac:(simpl; lia)) as (counter & Hc & Htag & Hhl & _).
    exists counter. split_and!; [done| |].
    + rewrite (Htag BOLD). vm_compute. reflexivity.
    + rewrite Hhl. vm_compute. reflexivity.
Defined.

(** C3, as the code has it. Where highlights overlap, the counter of a
    character holds one highlight entry: the colour and metadata of the last
    highlight of the list that covers the character. *)
Theorem overlapping_highlights_last_wins (spanText : string)
    (tags : list InnerTag) (hs : list Highlight) (j : nat)
    (earlier : list Highlight) (h : Highlight) :
  (j < String.length spanText)%nat →
  highlightsCovering spanText j hs = earlier ++ [h] →
  ∃ counter,
    formattingCountersOf spanText tags hs !! j = Some counter ∧
    counter !! GENERAL_HIGHLIGHT_KEY = Some (highlightMark h).
Proof.
  intros Hj Hcov.
  destruct (formattingCountersOf_entries spanText tags hs j Hj)
    as (counter & Hc & _ & Hhl & _).
  exists counter. split; [done|].
  by rewrite Hhl, Hcov, last_snoc.
Qed.

Lemma overlapping_highlights_last_wins_witness :
  ∃ counter,
    formattingCountersOf "ab" []
      [mkHighlight "yellow" "s1" None None; mkHighlight "green" "s1" None None]
      !! 0%nat = Some counter ∧
    counter !! GENERAL_HIGHLIGHT_KEY
    = Some (highlightMark (mkHighlight "green" "s1" None None)).
Proof.
  apply (overlapping_highlights_last_wins "ab" [] _ 0
           [mkHighlight "yellow" "s1" None None]).
  - simpl. lia.
  - reflexivity.
Defined.

(** C3, as stated: with a yellow and then a green highlight over the whole
    of ["ab"], the counter of character 0 holds green only; yellow, which
    covers the character too, is recorded nowhere in it. *)
Lemma overlapping_highlights_counterexample :
  ¬ (∀ spanText tags hs (j : nat) counter h,
       formattingCountersOf spanText tags hs !! j = Some counter →
       h ∈ highlightsCovering spanText j hs →
       recordsColor counter h).
Proof.
  intros claim.
  pose (yellow := mkHighlight "yellow" "s1" None None).
  pose (green := mkHighlight "green" "s1" None None).
  assert (Hcounter :
    formattingCountersOf "ab" [] [yellow; green] !! 0%nat
    = Some {[GENERAL_HIGHLIGHT_KEY := {[COLOR_HIGHLIGHT_KEY := "green"]}]}).
  { vm_compute. reflexivity. }
  specialize (claim "ab" [] [yellow; green] 0%nat _ yellow Hcounter).
  destruct claim as (key & entry & field & Hkey & Hfield).
  { apply list_elem_of_here. }
  apply lookup_singleton_Some in Hkey as [_ <-].
  apply lookup_singleton_Some in Hfield as [_ Hfield].
  discriminate Hfield.
Qed.

End Marking.

(** ** Compositor: insertions and rendering *)

Section Rendering.
Import LumiSpanViz LumiSpanUtils.
Variable tagString : InnerTagName → string.
Variable HIGHLIGHT_METADATA_ANSWER_KEY : string.

Local Abbreviation renderFormatted :=
  (renderFormattedCharacter tagString HIGHLIGHT_METADATA_ANSWER_KEY).
Local Abbreviation renderChar :=
  (renderCharacter tagString HIGHLIGHT_METADATA_ANSWER_KEY).
Local Abbreviation callback :=
  (callbackResults tagString HIGHLIGHT_METADATA_ANSWER_KEY).
Local Abbreviation render :=
  (calculateRenderedContent tagString HIGHLIGHT_METADATA_ANSWER_KEY).
Local Abbreviation unitOf :=
  (characterUnit tagString HIGHLIGHT_METADATA_ANSWER_KEY).
Local Abbreviation own := (ownUnit tagString HIGHLIGHT_METADATA_ANSWER_KEY).
Local Abbreviation classes :=
  (classesObjectOf tagString HIGHLIGHT_METADATA_ANSWER_KEY).

Lemma pushInsertion_lookup i t ins j :
  default [] (pushInsertion i t ins !! j)
  = default [] (ins !! j) ++ (if bool_decide (i = j) then [t] else []).
Proof.
  unfold pushInsertion. case_bool_decide as E.
  - subst. by rewrite lookup_insert_eq.
  - rewrite lookup_insert_ne by done. by rewrite app_nil_r.
Qed.

Lemma foldl_insertions_lookup props tags i : ∀ ins,
  default []
    (foldl (λ insertions innerTag,
              match insertionTemplate props innerTag with
              | Some template =>
                  pushInsertion (startIndex (position innerTag)) template insertions
              | None => insertions
              end) ins tags !! i)
  = default [] (ins !! i)
    ++ omap (insertionTemplate props) (List.filter (anchoredAt i) tags).
Proof.
  induction tags as [|t tags IH]; intros ins; cbn [foldl List.filter].
  - by rewrite app_nil_r.
  - rewrite IH. unfold anchoredAt at 2.
    destruct (insertionTemplate props t) as [tpl|] eqn:Htpl.
    + rewrite pushInsertion_lookup. case_bool_decide.
      * cbn [omap list_omap]. rewrite Htpl. by rewrite <- app_assoc.
      * by rewrite app_nil_r.
    + case_bool_decide; [|done]. cbn [omap list_omap]. by rewrite Htpl.
Qed.

(** The insertions at an offset: the templates of the top-level tags that
    start there and resolve, in the order of the tags. *)
Lemma createInsertionsMap_lookup props s i :
  default [] (createInsertionsMap props s !! i)
  = omap (insertionTemplate props) (List.filter (anchoredAt i) (innerTags s)).
Proof.
  unfold createInsertionsMap. rewrite foldl_insertions_lookup.
  by rewrite lookup_empty.
Qed.

Lemma insertionTemplate_isMarker props tag t :
  insertionTemplate props tag = Some t → isMarker t = true.
Proof.
  unfold insertionTemplate. intros H.
  repeat (case_match; simplify_eq); done.
Qed.

Lemma insertionsAt_markers props s i :
  Forall (λ t, isMarker t = true) (insertionsAt props s i).
Proof.
  unfold insertionsAt. rewrite createInsertionsMap_lookup.
  induction (List.filter _ _) as [|t l IH]; cbn [omap list_omap]; [constructor|].
  destruct (insertionTemplate props t) eqn:Ht; [|done].
  constructor; [by eapply insertionTemplate_isMarker | done].
Qed.

Lemma concat_singletons {X Y : Type} (f : X → Y) (l : list X) :
  concat ((λ x, [f x]) <$> l) = f <$> l.
Proof. induction l as [|x l IH]; simpl; [done|]. f_equal. apply IH. Qed.

Lemma omap_all_None {X Y : Type} (f : X → option Y) (l : list X) :
  (∀ x, x ∈ l → f x = None) → omap f l = [].
Proof.
  induction l as [|x l IH]; intros Hall; [done|].
  cbn [omap list_omap]. rewrite (Hall x) by apply list_elem_of_here.
  apply IH. intros y Hy. apply Hall. by apply list_elem_of_further.
Qed.

Lemma findIndex_None {X : Type} (P : X → Prop) `{∀ x, Decision (P x)} (l : list X) :
  (∀ x, x ∈ l → ¬ P x) → findIndex P l = None.
Proof.
  intros Hall. unfold findIndex. apply list_find_None.
  by apply Forall_forall.
Qed.

Lemma truthyId_Some tag id :
  truthyId tag = Some id → default "" (metadata tag !! "id") = id.
Proof.
  unfold truthyId. destruct (metadata tag !! "id") as [i|]; [|done].
  case_bool_decide; [done|]. by intros [= ->].
Qed.

(** A tag whose id finds no entry contributes no template. *)
Lemma unresolved_insertionTemplate props tag :
  unresolved props tag → insertionTemplate props tag = None.
Proof.
  unfold unresolved, insertionTemplate. intros Hun.
  destruct (tagName tag) eqn:Hname; try done;
    rewrite ?(bool_decide_eq_false_2 (_ = _)) by done;
    rewrite ?(bool_decide_eq_true_2 (_ = _)) by done; cbn [andb].
  - (* REFERENCE *)
    destruct (truthyId tag) as [id|] eqn:Hid; cbn [andb];
      [|by rewrite !bool_decide_eq_false_2 by (by intros [??])].
    rewrite (bool_decide_eq_true_2 (is_Some (Some id))) by done. cbn [andb].
    case_bool_decide as Hrefs; [|done]. cbn [default].
    apply truthyId_Some in Hid. rewrite Hid in Hun.
    rewrite omap_all_None; [done|].
    intros refId HrefId. rewrite findIndex_None; [done|].
    intros reference Hin. by apply Hun.
  - (* SPAN_REFERENCE *)
    destruct (truthyId tag) as [id|] eqn:Hid; cbn [andb];
      [|by rewrite !bool_decide_eq_false_2 by (by intros [??])].
    rewrite (bool_decide_eq_true_2 (is_Some (Some id))) by done. cbn [andb].
    case_bool_decide as Hrefs; [|done]. cbn [default].
    apply truthyId_Some in Hid. rewrite Hid in Hun.
    rewrite findIndex_None; [done|].
    intros sid Hin. apply list_elem_of_fmap in Hin as (sp & -> & Hsp).
    by apply Hun.
  - (* FOOTNOTE *)
    destruct (truthyId tag) as [id|] eqn:Hid; cbn [andb];
      [|by rewrite !bool_decide_eq_false_2 by (by intros [??])].
    rewrite (bool_decide_eq_true_2 (is_Some (Some id))) by done. cbn [andb].
    case_bool_decide as Hnotes; [|done]. cbn [default].
    apply truthyId_Some in Hid. rewrite Hid in Hun.
    rewrite findIndex_None; [done|].
    intros note Hin. by apply Hun.
Qed.

Lemma createInsertionsMap_skip props sid txt before tag after :
  insertionTemplate props tag = None →
  createInsertionsMap props (mkLumiSpan sid txt (before ++ tag :: after))
  = createInsertionsMap props (mkLumiSpan sid txt (before ++ after)).
Proof.
  intros Hnone. unfold createInsertionsMap. cbn [innerTags].
  rewrite !foldl_app. cbn [foldl]. by rewrite Hnone.
Qed.

Lemma filter_all_true {X : Type} (P : X → bool) (l : list X) :
  Forall (λ x, P x = true) l → List.filter P l = l.
Proof. induction 1 as [|x l Hx _ IH]; simpl; [done|]. by rewrite Hx, IH. Qed.

Lemma filter_all_false {X : Type} (P : X → bool) (l : list X) :
  Forall (λ x, P x = false) l → List.filter P l = [].
Proof. induction 1 as [|x l Hx _ IH]; simpl; [done|]. by rewrite Hx. Qed.

(** The markers of an interleaving are the insertions, index by index. *)
Lemma markers_interleaved (f : nat → list TemplateResult) :
  (∀ i, Forall (λ t, isMarker t = true) (f i)) →
  ∀ units k,
    Forall (λ unit, (length unit ≤ 1)%nat ∧ Forall (λ t, isMarker t = false) unit)
           units →
    List.filter isMarker (concat (imap (λ i unit, f (k + i)%nat ++ unit) units))
    = flat_map f (seq k (length units)).
Proof.
  intros Hf. induction units as [|u units IH]; intros k Hall; [done|].
  inversion Hall as [|? ? [_ Hu] Hrest]; subst.
  rewrite imap_cons. cbn [concat length seq flat_map].
  rewrite !List.filter_app, Nat.add_0_r.
  rewrite (filter_all_true _ _ (Hf k)), (filter_all_false _ _ Hu).
  rewrite app_nil_r. f_equal. rewrite <- (IH (S k) Hrest). do 2 f_equal.
  apply imap_ext. intros i x _. simpl. do 2 f_equal. lia.
Qed.

Lemma danglingTag_unresolved : unresolved danglingProps danglingTag.
Proof.
  unfold unresolved. cbn [tagName danglingTag].
  intros refId reference _ Hin. simpl in Hin. by apply elem_of_nil in Hin.
Qed.

Lemma append_snoc (eq : string) (ch : ascii) (rest : string) :
  ((eq +:+ String ch EmptyString) +:+ rest)%string = (eq +:+ String ch rest)%string.
Proof.
  induction eq as [|c eq IH]; [reflexivity|].
  change (String c ((eq +:+ String ch "") +:+ rest) = String c (eq +:+ String ch rest)).
  by rewrite IH.
Qed.

Lemma substring_chars : ∀ (s : string) (a n : nat),
  string_of_list_ascii (take n (drop a (list_ascii_of_string s))) = substring a n s.
Proof.
  induction s as [|c s IH]; intros [|a] [|n]; simpl; try done.
  - f_equal. exact (IH 0%nat n).
  - exact (IH a 0%nat).
Qed.

Lemma carries_needs_tags spanText tags hs i name :
  carries (formattingCountersOf spanText tags hs) i name = true → tags ≠ [].
Proof.
  unfold carries. intros Hcarry ->.
  destruct (formattingCountersOf spanText [] hs !! i) as [counter|] eqn:Hc; [|done].
  apply lookup_lt_Some in Hc as Hlt. rewrite formattingCountersOf_length in Hlt.
  destruct (formattingCountersOf_entries spanText [] hs i Hlt)
    as (counter' & Hc' & Htag & _).
  simplify_eq. unfold hasKey in Hcarry. rewrite (Htag name) in Hcarry.
  simpl in Hcarry. done.
Qed.

(** *** The class object *)

Lemma key_in_classes font (c : FormattingCounter) key :
  is_Some (c !! key) → keyString tagString key ∈ classes font c.
Proof.
  intros Hkey.
  assert (Hin : keyString tagString key
                ∈ (set_map (keyString tagString) (dom c) : gset string)).
  { apply elem_of_map_2. by apply elem_of_dom. }
  unfold classesObjectOf. cbv zeta.
  repeat case_match; rewrite ?elem_of_union; tauto.
Qed.

Lemma lookup_with_character (counter : FormattingCounter) name :
  (counter ∪ {[CHARACTER_KEY := ∅]}) !! TagKey name = counter !! TagKey name.
Proof.
  rewrite lookup_union, lookup_singleton_ne by done.
  by destruct (counter !! TagKey name).
Qed.

Lemma renderFormattedCharacter_not_marker font ch c t :
  renderFormatted font ch c = Some t → isMarker t = false.
Proof.
  unfold renderFormattedCharacter. intros H.
  repeat case_match; simplify_eq; done.
Qed.

(** A character that carries a citation, cross-span reference or footnote
    tag renders to the empty template. *)
Lemma renderFormattedCharacter_hidden font ch (c : FormattingCounter) name :
  name = REFERENCE ∨ name = SPAN_REFERENCE ∨ name = FOOTNOTE →
  is_Some (c !! TagKey name) →
  renderFormatted font ch c = Some EmptyTemplate.
Proof.
  intros Hname Hkey. apply (key_in_classes font) in Hkey.
  cbn [keyString] in Hkey. unfold renderFormattedCharacter. cbv zeta.
  destruct Hname as [-> | [-> | ->]];
    rewrite (bool_decide_eq_true_2 _ Hkey); by rewrite ?orb_true_r.
Qed.

(** *** The callback, one character at a time *)

(** The callback's result is the insertions of its index followed by what it
    returns without insertions. *)
Lemma renderCharacter_insertions font ins cs spanText eq index ch :
  renderChar font ins cs spanText eq index ch
  = match renderChar font ∅ cs spanText eq index ch with
    | Some (unit, eq') => Some (default [] (ins !! Z.of_nat index) ++ unit, eq')
    | None => None
    end.
Proof.
  unfold renderCharacter. rewrite lookup_empty. cbn [default app].
  destruct (cs !! index) as [counter|]; [|done].
  repeat case_match; simplify_eq; try done; by rewrite app_nil_r.
Qed.

Lemma callbackResults_insertions font ins cs spanText : ∀ chars eq index,
  callback font ins cs spanText eq index chars
  = match callback font ∅ cs spanText eq index chars with
    | Some (units, eq') =>
        Some (imap (λ k unit, default [] (ins !! Z.of_nat (index + k)) ++ unit)
                   units, eq')
    | None => None
    end.
Proof.
  induction chars as [|ch chars IH]; intros eq index; [done|].
  cbn [callbackResults]. rewrite renderCharacter_insertions.
  destruct (renderChar font ∅ cs spanText eq index ch) as [[unit eq1]|]; [|done].
  rewrite IH.
  destruct (callback font ∅ cs spanText eq1 (S index) chars) as [[units eq2]|];
    [|done].
  rewrite imap_cons. rewrite Nat.add_0_r. do 3 f_equal.
  apply imap_ext. intros k u _. simpl. do 3 f_equal. lia.
Qed.

(** The callback without insertions, by cases on the table. *)
Lemma renderCharacter_step font cs spanText eq i ch counter :
  cs !! i = Some counter →
  renderChar font ∅ cs spanText eq i ch
  = if isMathAt cs i then
      if continues cs (String.length spanText) i
      then Some ([], (eq +:+ String ch EmptyString)%string)
      else Some ([EquationTemplate (eq +:+ String ch EmptyString)
                                   (carries cs i MATH_DISPLAY)], EmptyString)
    else match renderFormatted font ch (counter ∪ {[CHARACTER_KEY := ∅]}) with
         | Some template => Some ([template], eq)
         | None => None
         end.
Proof.
  intros Hc. unfold renderCharacter, continues, isMathAt, carries.
  rewrite lookup_empty, Hc. cbn [default app]. rewrite Nat.add_1_r.
  unfold renderEquation.
  destruct (hasKey counter (TagKey MATH)),
           (hasKey counter (TagKey MATH_DISPLAY)); cbn [orb andb]; reflexivity.
Qed.

Lemma substring_nil : ∀ (s : string) (a : nat), substring a 0 s = EmptyString.
Proof. induction s as [|c s IH]; intros [|a]; simpl; auto. Qed.

Lemma string_of_list_ascii_snoc (l : list ascii) (ch : ascii) :
  string_of_list_ascii (l ++ [ch])
  = (string_of_list_ascii l +:+ String ch EmptyString)%string.
Proof.
  induction l as [|c l IH]; [reflexivity|].
  cbn [app string_of_list_ascii]. rewrite IH. reflexivity.
Qed.

Lemma substring_snoc (s : string) (a i : nat) (ch : ascii) :
  (a ≤ i)%nat →
  list_ascii_of_string s !! i = Some ch →
  (substring a (i - a) s +:+ String ch EmptyString)%string
  = substring a (S i - a) s.
Proof.
  intros Hle Hch. rewrite <- !substring_chars.
  replace (S i - a)%nat with (S (i - a)) by lia.
  rewrite (take_S_r _ _ ch).
  - by rewrite string_of_list_ascii_snoc.
  - rewrite lookup_drop. by replace (a + (i - a))%nat with i by lia.
Qed.

Lemma runStart_le cs n i : (runStart cs n i ≤ i)%nat.
Proof.
  induction i as [|i IH]; cbn [runStart]; [lia|].
  destruct (continues cs n i); lia.
Qed.

Lemma continues_math cs n i :
  continues cs n i = true →
  isMathAt cs i = true ∧ isMathAt cs (S i) = true ∧ (S i < n)%nat.
Proof.
  unfold continues. intros H.
  apply andb_prop in H as [H Hnext]. apply andb_prop in H as [Hmath Hlt].
  apply bool_decide_eq_true_1 in Hlt. split_and!; [done| |done].
  unfold isMathAt.
  destruct (carries cs i MATH); rewrite Hnext; by rewrite ?orb_true_r.
Qed.

Lemma runStart_nonmath cs n i : isMathAt cs i = false → runStart cs n i = i.
Proof.
  intros Hno. destruct i as [|i]; [done|]. cbn [runStart].
  destruct (continues cs n i) eqn:Hcont; [|done].
  apply continues_math in Hcont as (_ & Hmath & _). congruence.
Qed.

Lemma pendingEquation_nonmath cs spanText i :
  isMathAt cs i = false → pendingEquation cs spanText i = EmptyString.
Proof.
  intros Hno. unfold pendingEquation. cbv zeta.
  rewrite (runStart_nonmath _ _ _ Hno), Nat.sub_diag. apply substring_nil.
Qed.

Lemma pendingEquation_flushed cs spanText i :
  continues cs (String.length spanText) i = false →
  pendingEquation cs spanText (S i) = EmptyString.
Proof.
  intros Hcont. unfold pendingEquation. cbv zeta. cbn [runStart].
  rewrite Hcont, Nat.sub_diag. apply substring_nil.
Qed.

(** One step of the callback: when [equationText] holds the equation under
    way, the callback returns the unit of its character and leaves the
    equation under way at the next character; it fails exactly when the
    character has no unit. *)
Lemma renderCharacter_spec font cs spanText i ch :
  list_ascii_of_string spanText !! i = Some ch →
  match renderChar font ∅ cs spanText (pendingEquation cs spanText i) i ch with
  | Some (unit, eq') =>
      unitOf font cs spanText i ch = Some unit
      ∧ eq' = pendingEquation cs spanText (S i)
  | None => unitOf font cs spanText i ch = None
  end.
Proof.
  intros Hch. unfold characterUnit. cbv zeta.
  destruct (cs !! i) as [counter|] eqn:Hc; last first.
  { unfold renderCharacter. by rewrite Hc. }
  rewrite (renderCharacter_step _ _ _ _ _ _ _ Hc).
  destruct (isMathAt cs i) eqn:Hmath.
  - unfold pendingEquation at 1 2. cbv zeta.
    rewrite (substring_snoc _ _ _ _ (runStart_le _ _ _) Hch).
    destruct (continues cs (String.length spanText) i) eqn:Hcont.
    + split; [done|]. unfold pendingEquation. cbv zeta. cbn [runStart].
      by rewrite Hcont.
    + split; [done|]. by rewrite pendingEquation_flushed.
  - assert (Hcont : continues cs (String.length spanText) i = false)
      by (unfold continues; by rewrite Hmath).
    destruct (renderFormatted font ch (counter ∪ {[CHARACTER_KEY := ∅]}));
      [|done].
    split; [done|].
    by rewrite pendingEquation_nonmath, pendingEquation_flushed.
Qed.

(** The callback over the characters from index [i] on: the units are those
    of the characters, and the callback fails exactly when one of them has
    no unit. *)
Lemma callbackResults_spec font cs spanText : ∀ l i,
  (∀ k ch, l !! k = Some ch →
           list_ascii_of_string spanText !! (i + k)%nat = Some ch) →
  match callback font ∅ cs spanText (pendingEquation cs spanText i) i l with
  | Some (units, eq') =>
      imap (λ k ch, unitOf font cs spanText (i + k) ch) l = Some <$> units
      ∧ eq' = pendingEquation cs spanText (i + length l)
  | None => ∃ k ch, l !! k = Some ch ∧ unitOf font cs spanText (i + k) ch = None
  end.
Proof.
  induction l as [|ch l IH]; intros i Hl.
  { cbn [callbackResults length]. by rewrite Nat.add_0_r. }
  cbn [callbackResults].
  pose proof (renderCharacter_spec font cs spanText i ch) as Hstep.
  pose proof (Hl 0%nat ch eq_refl) as Hhead. rewrite Nat.add_0_r in Hhead.
  specialize (Hstep Hhead).
  destruct (renderChar font ∅ cs spanText _ i ch) as [[u eq1]|]; last first.
  { exists 0%nat, ch. split; [done|]. by rewrite Nat.add_0_r. }
  destruct Hstep as [Hu ->]. specialize (IH (S i)).
  assert (Hrest : ∀ k c, l !! k = Some c →
                         list_ascii_of_string spanText !! (S i + k)%nat = Some c).
  { intros k c Hk. replace (S i + k)%nat with (i + S k)%nat by lia.
    by apply Hl. }
  specialize (IH Hrest).
  destruct (callback font ∅ cs spanText _ (S i) l) as [[us eq2]|].
  - destruct IH as [IH ->]. split.
    + rewrite imap_cons, Nat.add_0_r, Hu. cbn [fmap list_fmap]. f_equal.
      rewrite <- IH. apply imap_ext. intros k c _. simpl. f_equal. lia.
    + cbn [length]. f_equal. lia.
  - destruct IH as (k & c & Hk & Hnone). exists (S k), c. split; [done|].
    by replace (i + S k)%nat with (S i + k)%nat by lia.
Qed.

(** *** The rendered content *)

Lemma plainPath_insertions props s :
  plainPath props s = true → ∀ i, insertionsAt props s i = [].
Proof.
  unfold plainPath. intros H i. apply andb_prop in H as [_ Hsize].
  apply bool_decide_eq_true_1, map_size_empty_inv in Hsize.
  unfold insertionsAt. by rewrite Hsize, lookup_empty.
Qed.

Lemma plainPath_no_tags props s :
  plainPath props s = true → flattenTags (innerTags s) 0 = [].
Proof.
  unfold plainPath. intros H. apply andb_prop in H as [H _].
  apply andb_prop in H as [_ Htags].
  apply bool_decide_eq_true_1 in Htags. by apply nil_length_inv.
Qed.

(** The two paths of [calculateRenderedContent]: the plain characters, or
    the callback run without insertions, with the insertions of each index
    put before its unit and those of the end-of-text offset at the end. *)
Lemma rendered_structure props s :
  span props = Some s →
  render props
  = if plainPath props s
    then Some (RendererElement
                 (PlainCharacterTemplate (plainClasses (font props))
                    <$> list_ascii_of_string (text s)))
    else match callback (font props) ∅ (countersOf props s) (text s)
                        EmptyString 0 (list_ascii_of_string (text s)) with
         | Some (units, _) =>
             Some (RendererElement
                     (concat (imap (λ i unit, insertionsAt props s i ++ unit)
                                   units)
                      ++ insertionsAt props s (String.length (text s))))
         | None => None
         end.
Proof.
  intros Hspan. unfold calculateRenderedContent, plainPath. rewrite Hspan.
  cbv zeta. destruct (negb _ && _ && _); [reflexivity|].
  unfold renderCharacters. rewrite callbackResults_insertions.
  fold (countersOf props s).
  by destruct (callback (font props) ∅ (countersOf props s) (text s)
                 EmptyString 0 (list_ascii_of_string (text s))) as [[units eq']|].
Qed.

(** The rendered content, unit by unit: when rendering returns, its parts
    are the units of the characters, each after the insertions of its index,
    then the insertions of the end-of-text offset; it fails exactly when a
    character has no unit. *)
Lemma rendered_units props s :
  span props = Some s →
  match render props with
  | Some content =>
      ∃ units,
        imap (own props s) (list_ascii_of_string (text s)) = Some <$> units ∧
        content
        = RendererElement
            (concat (imap (λ i unit, insertionsAt props s i ++ unit) units)
             ++ insertionsAt props s (String.length (text s)))
  | None =>
      ∃ i ch, list_ascii_of_string (text s) !! i = Some ch
              ∧ own props s i ch = None
  end.
Proof.
  intros Hspan. rewrite (rendered_structure _ _ Hspan). unfold ownUnit.
  destruct (plainPath props s) eqn:Hplain.
  - exists ((λ c, [PlainCharacterTemplate (plainClasses (font props)) c])
            <$> list_ascii_of_string (text s)).
    split.
    + rewrite <- list_fmap_compose. apply imap_const.
    + f_equal. rewrite (plainPath_insertions _ _ Hplain), app_nil_r.
      rewrite (imap_ext _ (const id)); last first.
      { intros i u _. simpl. by rewrite (plainPath_insertions _ _ Hplain). }
      rewrite imap_const, list_fmap_id. by rewrite concat_singletons.
  - pose proof (callbackResults_spec (font props) (countersOf props s) (text s)
                  (list_ascii_of_string (text s)) 0 (λ k ch H, H)) as Hrun.
    replace (pendingEquation (countersOf props s) (text s) 0)
      with EmptyString in Hrun by (symmetry; apply substring_nil).
    destruct (callback (font props) ∅ (countersOf props s) (text s)
                EmptyString 0 (list_ascii_of_string (text s)))
      as [[units eq']|]; [|exact Hrun].
    destruct Hrun as [Hunits _]. by exists units.
Qed.

Lemma units_of_characters {X Y : Type} (f : nat → X → option Y)
    (l : list X) (units : list Y) :
  imap f l = Some <$> units →
  length units = length l ∧
  ∀ i x, l !! i = Some x → ∃ u, units !! i = Some u ∧ f i x = Some u.
Proof.
  intros H. split.
  - apply (f_equal length) in H. by rewrite length_imap, length_fmap in H.
  - intros i x Hx.
    assert (Hi : imap f l !! i = Some (f i x))
      by (by rewrite list_lookup_imap, Hx).
    rewrite H, list_lookup_fmap in Hi.
    destruct (units !! i) as [u|]; simplify_eq/=. by exists u.
Qed.

Lemma characterUnit_shape font cs spanText i ch unit :
  unitOf font cs spanText i ch = Some unit →
  (length unit ≤ 1)%nat ∧ Forall (λ t, isMarker t = false) unit.
Proof.
  unfold characterUnit. cbv zeta. destruct (cs !! i) as [counter|]; [|done].
  destruct (isMathAt cs i).
  - destruct (continues cs _ i); intros [= <-]; simpl;
      (split; [lia|by repeat constructor]).
  - destruct (renderFormatted font ch _) as [t|] eqn:Ht; [|done].
    intros [= <-]. split; [simpl; lia|].
    repeat constructor. by eapply renderFormattedCharacter_not_marker.
Qed.

Lemma ownUnit_shape props s i ch unit :
  own props s i ch = Some unit →
  (length unit ≤ 1)%nat ∧ Forall (λ t, isMarker t = false) unit.
Proof.
  unfold ownUnit. destruct (plainPath props s).
  - intros [= <-]. split; [simpl; lia|by repeat constructor].
  - apply characterUnit_shape.
Qed.

Lemma units_shape props s units :
  imap (own props s) (list_ascii_of_string (text s)) = Some <$> units →
  length units = String.length (text s) ∧
  Forall (λ unit, (length unit ≤ 1)%nat ∧ Forall (λ t, isMarker t = false) unit)
         units.
Proof.
  intros Hunits. apply units_of_characters in Hunits as [Hlen Hat].
  split; [by rewrite Hlen, length_list_ascii_of_string|].
  apply Forall_lookup. intros i u Hu.
  destruct (lookup_lt_is_Some_2 (list_ascii_of_string (text s)) i) as [ch Hch].
  { rewrite <- Hlen. by eapply lookup_lt_Some. }
  destruct (Hat i ch Hch) as (u' & Hu' & Hown). simplify_eq.
  by eapply ownUnit_shape.
Qed.

(** The markers of the rendered content are the insertions, offset by
    offset. *)
Lemma rendered_markers props s parts :
  span props = Some s →
  render props = Some (RendererElement parts) →
  List.filter isMarker parts
  = flat_map (insertionsAt props s) (seq 0 (S (String.length (text s)))).
Proof.
  intros Hspan Hout. pose proof (rendered_units props s Hspan) as Hunits.
  rewrite Hout in Hunits. destruct Hunits as (units & Hunits & [= ->]).
  apply units_shape in Hunits as [Hlen Hall].
  rewrite List.filter_app.
  pose proof (markers_interleaved (insertionsAt props s)
                (insertionsAt_markers props s) units 0 Hall) as Hm.
  cbn [Nat.add] in Hm. rewrite Hm.
  rewrite (filter_all_true _ _ (insertionsAt_markers props s _)).
  rewrite Hlen. rewrite seq_S, flat_map_app. simpl. by rewrite app_nil_r.
Qed.

(** C8. When rendering returns, the rendered content is, character by
    character, the insertions anchored at the character's index followed by
    the unit of the character, which is what the character renders to by
    itself (at most one template, never a marker), then the insertions
    anchored at the end-of-text offset; the insertions at one offset are the
    markers of the tags that start there, in the order of the tags. *)
Theorem insertions_placed_before_character props s parts :
  span props = Some s →
  calculateRenderedContent tagString HIGHLIGHT_METADATA_ANSWER_KEY props
  = Some (RendererElement parts) →
  (∃ units,
     imap (ownUnit tagString HIGHLIGHT_METADATA_ANSWER_KEY props s)
          (list_ascii_of_string (text s)) = Some <$> units ∧
     parts = concat (imap (λ i unit, insertionsAt props s i ++ unit) units)
             ++ insertionsAt props s (String.length (text s)) ∧
     length units = String.length (text s) ∧
     Forall (λ unit, (length unit ≤ 1)%nat ∧ Forall (λ t, isMarker t = false) unit)
            units) ∧
  (∀ i : nat,
     insertionsAt props s i
     = omap (insertionTemplate props)
            (List.filter (anchoredAt (Z.of_nat i)) (innerTags s))) ∧
  (∀ i : nat, Forall (λ t, isMarker t = true) (insertionsAt props s i)).
Proof.
  intros Hspan Hout. split_and!.
  - pose proof (rendered_units props s Hspan) as Hunits.
    rewrite Hout in Hunits. destruct Hunits as (units & Hunits & [= ->]).
    exists units. destruct (units_shape _ _ _ Hunits) as [Hlen Hall].
    by split_and!.
  - intros i. apply createInsertionsMap_lookup.
  - intros i. apply insertionsAt_markers.
Qed.

(** *** Tags whose lookup fails *)

Lemma emitted_in_flattenTags before tag after :
  emitted 0 tag ∈ flattenTags (before ++ tag :: after) 0.
Proof.
  unfold flattenTags. rewrite flat_map_app. apply elem_of_app. right.
  change (flat_map (flattenTag 0) (tag :: after))
    with (flattenTags (tag :: after) 0).
  rewrite flattenTags_cons. apply list_elem_of_here.
Qed.

(** A character inside the interval of a top-level tag carries its kind. *)
Lemma covered_carries spanText before tag after hs (j : nat) :
  (j < String.length spanText)%nat →
  covers j (position tag) = true →
  carries (formattingCountersOf spanText
             (flattenTags (before ++ tag :: after) 0) hs) j (tagName tag) = true.
Proof.
  intros Hj Hcov. unfold carries.
  destruct (formattingCountersOf_entries spanText
              (flattenTags (before ++ tag :: after) 0) hs j Hj)
    as (counter & -> & Htag & _).
  unfold hasKey. rewrite (Htag (tagName tag)).
  assert (Hin : emitted 0 tag
                ∈ tagsCovering (tagName tag) j
                    (flattenTags (before ++ tag :: after) 0)).
  { unfold tagsCovering. apply list_elem_of_In, filter_In. split.
    - apply list_elem_of_In, emitted_in_flattenTags.
    - cbn [emitted tagName position]. rewrite bool_decide_eq_true_2 by done.
      cbn [andb]. unfold covers in *. cbn [startIndex endIndex].
      apply bool_decide_eq_true_1 in Hcov. apply bool_decide_eq_true_2. lia. }
  destruct (tagsCovering _ _ _); [by apply elem_of_nil in Hin|].
  by apply bool_decide_eq_true_2.
Qed.

Lemma tags_not_plainPath props s before tag after :
  innerTags s = before ++ tag :: after → plainPath props s = false.
Proof.
  intros Htags. destruct (plainPath props s) eqn:Hplain; [|done].
  apply plainPath_no_tags in Hplain. rewrite Htags in Hplain.
  pose proof (emitted_in_flattenTags before tag after) as Hin.
  rewrite Hplain in Hin. by apply elem_of_nil in Hin.
Qed.

(** C10, as the code has it. A reference, footnote or cross-span reference
    tag whose id finds no entry yields no template, leaves the insertions map
    as it is without the tag, and adds no marker to the rendered content: the
    markers rendered with the tag are those rendered without it. The
    characters the tag covers still carry its kind, and those of them that
    carry no math tag render to the empty template. *)
Theorem unresolved_tag_no_insertion props s before tag after :
  span props = Some s →
  innerTags s = before ++ tag :: after →
  unresolved props tag →
  let s' := mkLumiSpan (span_id s) (text s) (before ++ after) in
  let cs := countersOf props s in
  insertionTemplate props tag = None ∧
  createInsertionsMap props s = createInsertionsMap props s' ∧
  (∀ parts parts',
     calculateRenderedContent tagString HIGHLIGHT_METADATA_ANSWER_KEY props
     = Some (RendererElement parts) →
     calculateRenderedContent tagString HIGHLIGHT_METADATA_ANSWER_KEY
                              (withSpan props s')
     = Some (RendererElement parts') →
     List.filter isMarker parts = List.filter isMarker parts') ∧
  (∀ j : nat,
     (j < String.length (text s))%nat → covers j (position tag) = true →
     carries cs j (tagName tag) = true) ∧
  (∀ (j : nat) ch,
     list_ascii_of_string (text s) !! j = Some ch →
     covers j (position tag) = true →
     isMathAt cs j = false →
     ownUnit tagString HIGHLIGHT_METADATA_ANSWER_KEY props s j ch
     = Some [EmptyTemplate]) ∧
  (∀ parts,
     calculateRenderedContent tagString HIGHLIGHT_METADATA_ANSWER_KEY props
     = Some (RendererElement parts) →
     ∃ units,
       imap (ownUnit tagString HIGHLIGHT_METADATA_ANSWER_KEY props s)
            (list_ascii_of_string (text s)) = Some <$> units ∧
       parts = concat (imap (λ i unit, insertionsAt props s i ++ unit) units)
               ++ insertionsAt props s (String.length (text s)) ∧
       ∀ j : nat,
         (j < String.length (text s))%nat →
         covers j (position tag) = true →
         isMathAt cs j = false →
         units !! j = Some [EmptyTemplate]).
Proof.
  intros Hspan Htags Hun s' cs.
  pose proof (unresolved_insertionTemplate props tag Hun) as Hnone.
  assert (Hmap : createInsertionsMap props s = createInsertionsMap props s').
  { destruct s as [sid txt tags]. simpl in Htags. subst tags.
    by apply createInsertionsMap_skip. }
  assert (Hcarry : ∀ j : nat,
            (j < String.length (text s))%nat → covers j (position tag) = true →
            carries cs j (tagName tag) = true).
  { intros j Hj Hcov. unfold cs, countersOf. rewrite Htags.
    by apply covered_carries. }
  assert (Hempty : ∀ (j : nat) ch,
            list_ascii_of_string (text s) !! j = Some ch →
            covers j (position tag) = true →
            isMathAt cs j = false →
            own props s j ch = Some [EmptyTemplate]); last first.
  { split_and!; [done|done| |done|done|].
    - intros parts parts' Hout Hout'.
      rewrite (rendered_markers props s parts Hspan Hout).
      rewrite (rendered_markers (withSpan props s') s' parts' eq_refl Hout').
      unfold insertionsAt.
      change (createInsertionsMap (withSpan props s') s')
        with (createInsertionsMap props s').
      by rewrite Hmap.
    - intros parts Hout. pose proof (rendered_units props s Hspan) as Hunits.
      rewrite Hout in Hunits. destruct Hunits as (units & Hunits & [= ->]).
      exists units. split_and!; [done|done|].
      intros j Hj Hcov Hmath.
      destruct (lookup_lt_is_Some_2 (list_ascii_of_string (text s)) j)
        as [ch Hch]; [by rewrite length_list_ascii_of_string|].
      destruct (units_of_characters _ _ _ Hunits) as [_ Hat].
      destruct (Hat j ch Hch) as (u & Hu & Hown).
      rewrite (Hempty j ch Hch Hcov Hmath) in Hown. congruence. }
  intros j ch Hch Hcov Hmath.
  assert (Hj : (j < String.length (text s))%nat).
  { apply lookup_lt_Some in Hch.
    by rewrite length_list_ascii_of_string in Hch. }
  specialize (Hcarry j Hj Hcov).
  unfold ownUnit. rewrite (tags_not_plainPath props s before tag after Htags).
  unfold characterUnit. cbv zeta. fold cs. rewrite Hmath.
  unfold carries in Hcarry.
  destruct (cs !! j) as [counter|]; [|done].
  rewrite (renderFormattedCharacter_hidden _ _ _ (tagName tag)); [done| |].
  - unfold unresolved in Hun.
    destruct (tagName tag); try done; auto.
  - rewrite lookup_with_character.
    exact (bool_decide_eq_true_1 _ Hcarry).
Qed.

(** *** Math runs *)

Lemma concat_replicate_nil {X : Type} (k : nat) (x : X) :
  concat (replicate k [] ++ [[x]]) = [x].
Proof. induction k as [|k IH]; [done|]. exact IH. Qed.

(** Inside a run of one math kind that no character shares with the other
    kind, the equation under way starts where the run starts. *)
Lemma runStart_run cs n name (a b : nat) :
  MaximalRun cs n name a b →
  (∀ i, (a ≤ i < b)%nat → carries cs i (otherMathKind name) = false) →
  (∀ i, (a ≤ i < b - 1)%nat → continues cs n i = true) ∧
  continues cs n (b - 1) = false ∧
  (∀ i, (a ≤ i < b)%nat → runStart cs n i = a).
Proof.
  intros (Hkind & Hab & Hrun & Hleft & Hright) Hother.
  assert (Hlook : ∀ i, (a ≤ i < b)%nat →
            (if carries cs i MATH then MATH else MATH_DISPLAY) = name).
  { intros i Hi. pose proof (Hrun i Hi) as Hyes. pose proof (Hother i Hi) as Hno.
    destruct Hkind as [-> | ->]; cbn [otherMathKind] in Hno;
      by rewrite ?Hyes, ?Hno. }
  assert (Hmath : ∀ i, (a ≤ i < b)%nat → isMathAt cs i = true).
  { intros i Hi. pose proof (Hrun i Hi) as Hyes. unfold isMathAt.
    destruct Hkind as [-> | ->]; rewrite Hyes; by rewrite ?orb_true_r. }
  assert (Hgo : ∀ i, (a ≤ i < b - 1)%nat → continues cs n i = true).
  { intros i Hi. unfold continues.
    rewrite (Hmath i) by lia. rewrite (Hlook i) by lia.
    rewrite (Hrun (S i)) by lia. rewrite bool_decide_eq_true_2 by lia. done. }
  assert (Hstop : continues cs n (b - 1) = false).
  { unfold continues. rewrite (Hlook (b - 1)%nat) by lia.
    replace (S (b - 1)) with b by lia.
    destruct Hright as [-> | ->]; [|by rewrite andb_false_r].
    rewrite (bool_decide_eq_false_2 (n < n)%nat) by lia.
    by rewrite andb_false_r. }
  assert (Hbefore : a = 0%nat ∨ ∃ a', a = S a' ∧ continues cs n a' = false).
  { destruct a as [|a']; [by left|]. right. exists a'. split; [done|].
    destruct Hleft as [Hleft|Hleft]; [done|].
    replace (S a' - 1)%nat with a' in Hleft by lia.
    pose proof (Hrun (S a') ltac:(lia)) as Hyes.
    pose proof (Hother (S a') ltac:(lia)) as Hno.
    unfold continues, isMathAt.
    destruct Hkind as [-> | ->]; cbn [otherMathKind] in Hno.
    - rewrite Hleft. cbn [orb]. by rewrite Hno, !andb_false_r.
    - rewrite Hleft. destruct (carries cs a' MATH); cbn [orb andb].
      + by rewrite Hno, andb_false_r.
      + done. }
  split_and!; [done|done|].
  intros i Hi. induction i as [|i IH].
  - destruct Hbefore as [->|(a' & -> & _)]; [done|lia].
  - cbn [runStart]. destruct (decide (a = S i)) as [->|Hne].
    + destruct Hbefore as [?|(a' & [= ->] & ->)]; done.
    + rewrite Hgo by lia. apply IH. lia.
Qed.

(** C5, as the code has it. When rendering returns, a maximal run [a, b) of
    characters carrying one math kind, none of which carries the other math
    kind, renders to exactly one equation in place of the units of its
    characters: the units of the characters before the last are empty, and
    the unit of the last, which is the first whose successor does not carry
    the kind, is the equation of the run's characters. *)
Theorem math_run_rendered_as_one_equation props s name (a b : nat) parts :
  span props = Some s →
  let spanText := text s in
  let cs := formattingCountersOf spanText (flattenTags (innerTags s) 0)
                                 (default [] (highlights props)) in
  let equation := EquationTemplate (substring a (b - a) spanText)
                                   (bool_decide (name = MATH_DISPLAY)) in
  MaximalRun cs (String.length spanText) name a b →
  (∀ i, (a ≤ i < b)%nat → carries cs i (otherMathKind name) = false) →
  calculateRenderedContent tagString HIGHLIGHT_METADATA_ANSWER_KEY props
  = Some (RendererElement parts) →
  ∃ units,
    imap (ownUnit tagString HIGHLIGHT_METADATA_ANSWER_KEY props s)
         (list_ascii_of_string spanText) = Some <$> units ∧
    parts = concat (imap (λ i unit, insertionsAt props s i ++ unit) units)
            ++ insertionsAt props s (String.length spanText) ∧
    (∀ i, (a ≤ i < b - 1)%nat → units !! i = Some []) ∧
    units !! (b - 1)%nat = Some [equation] ∧
    concat (take (b - a) (drop a units)) = [equation].
Proof.
  intros Hspan spanText cs equation Hmax Hother Hout.
  pose proof (runStart_run cs _ name a b Hmax Hother) as (Hgo & Hstop & Hstart).
  destruct Hmax as (Hkind & Hab & Hrun & Hleft & Hright).
  pose proof (rendered_units props s Hspan) as Hunits.
  rewrite Hout in Hunits. destruct Hunits as (units & Hunits & [= ->]).
  exists units. split; [done|]. split; [done|].
  destruct (units_of_characters _ _ _ Hunits) as [Hlen Hat].
  rewrite length_list_ascii_of_string in Hlen. fold spanText in Hlen.
  assert (Hplain : plainPath props s = false).
  { destruct (plainPath props s) eqn:Hplain; [|done].
    apply plainPath_no_tags in Hplain.
    pose proof (Hrun a ltac:(lia)) as Hcarry.
    by apply carries_needs_tags in Hcarry. }
  assert (Hunit : ∀ i, (a ≤ i < b)%nat →
            units !! i
            = Some (if bool_decide (i = b - 1)%nat then [equation] else [])).
  { intros i Hi.
    destruct (lookup_lt_is_Some_2 (list_ascii_of_string spanText) i)
      as [ch Hch].
    { rewrite length_list_ascii_of_string. fold spanText. lia. }
    destruct (Hat i ch Hch) as (u & Hu & Hown). rewrite Hu. f_equal.
    unfold ownUnit in Hown. rewrite Hplain in Hown.
    unfold characterUnit in Hown. cbv zeta in Hown.
    fold spanText in Hown. fold (countersOf props s) in cs.
    change (countersOf props s) with cs in Hown.
    pose proof (Hrun i Hi) as Hyes. pose proof (Hother i Hi) as Hno.
    assert (Hmath : isMathAt cs i = true).
    { unfold isMathAt.
      destruct Hkind as [-> | ->]; rewrite Hyes; by rewrite ?orb_true_r. }
    assert (Hdisplay : carries cs i MATH_DISPLAY
                       = bool_decide (name = MATH_DISPLAY)).
    { destruct Hkind as [-> | ->]; cbn [otherMathKind] in Hno;
        by rewrite ?Hyes, ?Hno. }
    rewrite Hmath, Hdisplay, (Hstart i Hi) in Hown.
    destruct (cs !! i) as [counter|] eqn:Hc;
      [|unfold carries in Hyes; by rewrite Hc in Hyes].
    destruct (decide (i = (b - 1)%nat)) as [->|Hlast].
    - rewrite bool_decide_eq_true_2 by done. rewrite Hstop in Hown.
      replace (S (b - 1) - a)%nat with (b - a)%nat in Hown by lia.
      by injection Hown as <-.
    - rewrite bool_decide_eq_false_2 by done.
      rewrite Hgo in Hown by lia. by injection Hown as <-. }
  split_and!.
  - intros i Hi. rewrite Hunit by lia. by rewrite bool_decide_eq_false_2 by lia.
  - rewrite Hunit by lia. by rewrite bool_decide_eq_true_2.
  - assert (Hseg : take (b - a) (drop a units)
                   = replicate (b - a - 1) [] ++ [[equation]]).
    { apply list_eq. intros k.
      destruct (decide (k < b - a)%nat) as [Hk|Hk].
      - rewrite lookup_take_lt by lia. rewrite lookup_drop.
        rewrite Hunit by lia.
        destruct (decide ((a + k)%nat = (b - 1)%nat)) as [Hlast|Hlast].
        + rewrite bool_decide_eq_true_2 by done.
          rewrite lookup_app_r by (rewrite length_replicate; lia).
          rewrite length_replicate.
          by replace (k - (b - a - 1))%nat with 0%nat by lia.
        + rewrite bool_decide_eq_false_2 by done.
          rewrite lookup_app_l by (rewrite length_replicate; lia).
          symmetry. apply lookup_replicate_2. lia.
      - rewrite lookup_take_ge by lia. symmetry. apply lookup_ge_None_2.
        rewrite length_app, length_replicate. simpl. lia. }
    rewrite Hseg. apply concat_replicate_nil.
Qed.

End Rendering.

Section RenderingFixtures.
Import LumiSpanViz LumiSpanUtils.

(** The citation fixture: the two citations are inserted at the end-of-text
    offset, after the units of the eight characters. *)
Lemma insertions_placed_before_character_witness :
  ∃ parts units,
    calculateRenderedContent exampleTagString exampleAnswerKey citationProps
    = Some (RendererElement parts) ∧
    length units = 8%nat ∧
    parts = concat (imap (λ i unit,
                            insertionsAt citationProps citationSpan i ++ unit)
                         units)
            ++ [CitationTemplate
                  [(1%nat, mkLumiReference "ref1" (mkLumiSpan "ref-s1" "" []));
                   (2%nat, mkLumiReference "ref2" (mkLumiSpan "ref-s2" "" []))]].
Proof.
  destruct (calculateRenderedContent exampleTagString exampleAnswerKey
              citationProps) as [[|parts]|] eqn:Hout;
    [vm_compute in Hout; discriminate Hout| |vm_compute in Hout; discriminate Hout].
  destruct (insertions_placed_before_character exampleTagString exampleAnswerKey
              citationProps citationSpan parts eq_refl Hout)
    as ((units & _ & Hparts & Hlen & _) & Hat & _).
  exists parts, units. split_and!; [done|exact Hlen|].
  rewrite Hparts. f_equal; rewrite (Hat 8%nat); vm_compute; reflexivity.
Defined.

(** The dangling tag: no insertion, and the character it covers renders to
    the empty template. *)
Lemma unresolved_tag_no_insertion_witness :
  createInsertionsMap danglingProps danglingSpan
  = createInsertionsMap danglingProps (mkLumiSpan "s1" "a1b" [])
  ∧ ownUnit exampleTagString exampleAnswerKey danglingProps danglingSpan 1 "1"
    = Some [EmptyTemplate].
Proof.
  destruct (unresolved_tag_no_insertion exampleTagString exampleAnswerKey
              danglingProps danglingSpan [] danglingTag [] eq_refl eq_refl
              danglingTag_unresolved) as (_ & Hmap & _ & _ & Hempty & _).
  split; [exact Hmap|].
  apply Hempty; reflexivity.
Defined.

(** C10, as stated: the tag does contribute to the output. With the dangling
    tag the character ["1"] renders to the empty template; without the tag
    the span takes the plain path and renders the three characters. *)
Lemma unresolved_tag_output_counterexample :
  ¬ (∀ tagString answerKey props s before tag after,
       span props = Some s →
       innerTags s = before ++ tag :: after →
       unresolved props tag →
       calculateRenderedContent tagString answerKey props
       = calculateRenderedContent tagString answerKey
           (withSpan props (mkLumiSpan (span_id s) (text s) (before ++ after)))).
Proof.
  intros claim.
  specialize (claim exampleTagString exampleAnswerKey danglingProps danglingSpan
                    [] danglingTag [] eq_refl eq_refl danglingTag_unresolved).
  vm_compute in claim. discriminate claim.
Qed.

(** The equation fixture: the MATH tag over [13, 19) of
    ["An equation: E=mc^2"] renders to one equation, at the last character of
    the run. *)
Lemma math_run_rendered_as_one_equation_witness :
  MaximalRun
    (formattingCountersOf (text equationSpan)
       (flattenTags (innerTags equationSpan) 0) [])
    19 MATH 13 19
  ∧ ∃ parts units,
      calculateRenderedContent exampleTagString exampleAnswerKey equationProps
      = Some (RendererElement parts) ∧
      parts = concat units ∧
      (∀ i, (13 ≤ i < 18)%nat → units !! i = Some []) ∧
      units !! 18%nat = Some [EquationTemplate "E=mc^2" false].
Proof.
  assert (Hmax : MaximalRun
            (formattingCountersOf (text equationSpan)
               (flattenTags (innerTags equationSpan) 0) [])
            19 MATH 13 19).
  { split_and!; [by left | lia | lia | | by right | by left].
    intros i Hi.
    do 19 (destruct i as [|i]; [first [lia | vm_compute; reflexivity]|]). lia. }
  split; [exact Hmax|].
  destruct (calculateRenderedContent exampleTagString exampleAnswerKey
              equationProps) as [[|parts]|] eqn:Hout;
    [vm_compute in Hout; discriminate Hout| |vm_compute in Hout; discriminate Hout].
  destruct (math_run_rendered_as_one_equation exampleTagString exampleAnswerKey
              equationProps equationSpan MATH 13 19 parts eq_refl Hmax)
    as (units & _ & Hparts & Hmid & Hlast & _).
  { intros i Hi.
    do 19 (destruct i as [|i]; [first [lia | vm_compute; reflexivity]|]). lia. }
  { exact Hout. }
  exists parts, units. split_and!; [done| |exact Hmid|exact Hlast].
  assert (Hins : ∀ i, insertionsAt equationProps equationSpan i = []).
  { intros i. unfold insertionsAt.
    change (createInsertionsMap equationProps equationSpan)
      with (∅ : gmap Z (list TemplateResult)).
    by rewrite lookup_empty. }
  rewrite Hparts, Hins, app_nil_r. f_equal.
  rewrite (imap_ext _ (const id)); [by rewrite imap_const, list_fmap_id|].
  intros i u _. cbn beta. by rewrite Hins.
Defined.

(** C5, as stated, for every maximal run: in ["abc"] under a display-math
    tag with a math tag nested on ["b"], the three characters are a maximal
    display-math run, and they render to two equations, ["ab"] and ["c"],
    neither of which is the equation of the run. *)
Lemma math_run_nested_kinds_counterexample :
  ¬ (∀ tagString answerKey props s name (a b : nat) parts,
       span props = Some s →
       MaximalRun
         (formattingCountersOf (text s) (flattenTags (innerTags s) 0)
                               (default [] (highlights props)))
         (String.length (text s)) name a b →
       calculateRenderedContent tagString answerKey props
       = Some (RendererElement parts) →
       EquationTemplate (substring a (b - a) (text s))
                        (bool_decide (name = MATH_DISPLAY)) ∈ parts).
Proof.
  intros claim.
  specialize (claim exampleTagString exampleAnswerKey nestedMathProps
                    nestedMathSpan MATH_DISPLAY 0%nat 3%nat
                    [EquationTemplate "ab" true; EquationTemplate "c" true]
                    eq_refl).
  assert (Hin : EquationTemplate "abc" true
                ∈ [EquationTemplate "ab" true; EquationTemplate "c" true]).
  { apply claim; [|vm_compute; reflexivity].
    split_and!; [by right | lia | simpl; lia | | by left | by left].
    intros i Hi.
    do 3 (destruct i as [|i]; [vm_compute; reflexivity|]). lia. }
  apply list_elem_of_In in Hin. simpl in Hin.
  destruct Hin as [Hin|[Hin|[]]]; discriminate Hin.
Qed.

End RenderingFixtures.

(** ** Selection resolver *)

Section SelectionResolver.
Import Dom SelectionUtils.
Variables CITATION_CLASSNAME FOOTNOTE_CLASSNAME : string.

Lemma omap_imap_elementPaths (kids : list Node) (parent : Path) : ∀ k,
  omap (λ '(i, n), if isElement n then Some (i :: parent) else None)
       (imap (λ i n, ((k + i)%nat, n)) kids)
  = elementPaths k kids parent.
Proof.
  induction kids as [|n kids IH]; intros k; [done|].
  rewrite imap_cons. cbn [omap list_omap elementPaths]. rewrite Nat.add_0_r.
  rewrite (imap_ext _ (λ i n, ((S k + i)%nat, n))); last first.
  { intros i x _. simpl. f_equal. lia. }
  rewrite IH. by destruct (isElement n).
Qed.

Lemma children_elementPaths roots (p : Path) :
  children roots p = elementPaths 0 (childNodesAt roots p) p.
Proof. unfold children. apply (omap_imap_elementPaths _ p 0). Qed.

Lemma elementPaths_app parent : ∀ l1 l2 k,
  elementPaths k (l1 ++ l2) parent
  = elementPaths k l1 parent ++ elementPaths (k + length l1) l2 parent.
Proof.
  induction l1 as [|n l1 IH]; intros l2 k; simpl.
  - by rewrite Nat.add_0_r.
  - rewrite IH, <- app_assoc. do 3 f_equal. lia.
Qed.

Lemma elementPaths_elem parent : ∀ l k p,
  p ∈ elementPaths k l parent →
  ∃ i, p = i :: parent ∧ (k ≤ i < k + length l)%nat.
Proof.
  induction l as [|n l IH]; intros k p Hin; simpl in Hin.
  - by apply elem_of_nil in Hin.
  - apply elem_of_app in Hin as [Hin|Hin].
    + destruct (isElement n); [|by apply elem_of_nil in Hin].
      apply list_elem_of_singleton in Hin as ->. exists k. simpl. split; [done|lia].
    + destruct (IH _ _ Hin) as (i & -> & Hi). exists i. simpl. split; [done|lia].
Qed.

Lemma elementPaths_length parent : ∀ l k,
  length (elementPaths k l parent) = length (List.filter isElement l).
Proof.
  induction l as [|n l IH]; intros k; simpl; [done|].
  rewrite length_app, IH. by destruct (isElement n).
Qed.

Lemma elementPaths_filter roots parent (P : Node → bool) : ∀ l k,
  (∀ j n, l !! j = Some n → nodeAt roots ((k + j)%nat :: parent) = Some n) →
  length (List.filter (λ p, match nodeAt roots p with
                            | Some el => P el
                            | None => false
                            end) (elementPaths k l parent))
  = length (List.filter P (List.filter isElement l)).
Proof.
  induction l as [|n l IH]; intros k Hnodes; [done|].
  cbn [elementPaths]. rewrite List.filter_app, length_app.
  rewrite (IH (S k)); last first.
  { intros j m Hj. rewrite <- (Hnodes (S j) m Hj). do 2 f_equal. lia. }
  pose proof (Hnodes 0%nat n eq_refl) as Hn. rewrite Nat.add_0_r in Hn.
  cbn [List.filter]. destruct (isElement n); [|done].
  cbn [List.filter]. rewrite Hn. by destruct (P n).
Qed.

Lemma indexOf_app_here (l1 l2 : list Path) (p : Path) :
  p ∉ l1 → indexOf (l1 ++ p :: l2) p = Z.of_nat (length l1).
Proof.
  intros Hnot. unfold indexOf.
  assert (Hfind : list_find (λ y, y = p) (l1 ++ p :: l2) = Some (length l1, p)).
  { apply list_find_Some. split_and!.
    - by rewrite lookup_app_r, Nat.sub_diag by lia.
    - done.
    - intros j y Hj Hlt. rewrite lookup_app_l in Hj by done.
      intros ->. apply Hnot. by eapply list_elem_of_lookup_2. }
  by rewrite Hfind.
Qed.

Lemma nodeAt_child roots (i : nat) (parent : Path) :
  parent ≠ [] → nodeAt roots (i :: parent) = childNodesAt roots parent !! i.
Proof.
  intros Hne. destruct parent as [|j parent]; [done|].
  cbn [nodeAt childNodesAt].
  change (match nodeAt roots (j :: parent) with
          | Some n => childNodesOfNode n !! i
          | None => None
          end
          = match nodeAt roots (j :: parent) with
            | Some n => childNodesOfNode n
            | None => []
            end !! i).
  by destruct (nodeAt roots (j :: parent)).
Qed.

Lemma filter_length_split {X : Type} (P : X → bool) (l : list X) :
  length l
  = (length (List.filter P l) + length (List.filter (λ x, negb (P x)) l))%nat.
Proof.
  induction l as [|x l IH]; simpl; [done|].
  destruct (P x); simpl; lia.
Qed.

(** C6. For a boundary inside the character container that is child number
    [c] of the renderer element [r] of a unit, the computed offset is the
    index of the container among the renderer's children (the elements that
    precede it) minus the number of citation and footnote markers among
    them: the number of preceding elements that are not markers. *)
Theorem getOffsetInLumiSpan_text_space roots (t c : nat) (r : Path) (el : Node) :
  r ≠ [] →
  childNodesAt roots r !! c = Some el →
  isElement el = true →
  let preceding := List.filter isElement (take c (childNodesAt roots r)) in
  let markers :=
    List.filter (isInlineTag CITATION_CLASSNAME FOOTNOTE_CLASSNAME) preceding in
  indexOf (children roots r) (c :: r) = Z.of_nat (length preceding) ∧
  getOffsetInLumiSpan CITATION_CLASSNAME FOOTNOTE_CLASSNAME roots (t :: c :: r)
  = Z.of_nat (length preceding) - Z.of_nat (length markers) ∧
  getOffsetInLumiSpan CITATION_CLASSNAME FOOTNOTE_CLASSNAME roots (t :: c :: r)
  = Z.of_nat (length (List.filter
                        (λ n, negb (isInlineTag CITATION_CLASSNAME
                                                FOOTNOTE_CLASSNAME n))
                        preceding)).
Proof.
  intros Hr Hel Helem preceding markers.
  set (kids := childNodesAt roots r) in *.
  assert (Hsplit : kids = take c kids ++ el :: drop (S c) kids)
    by (symmetry; by apply take_drop_middle).
  assert (Hpaths : children roots r
                   = elementPaths 0 (take c kids) r
                     ++ (c :: r) :: elementPaths (S c) (drop (S c) kids) r).
  { rewrite children_elementPaths. fold kids. rewrite Hsplit at 1.
    rewrite elementPaths_app. cbn [elementPaths]. rewrite Helem.
    apply lookup_lt_Some in Hel.
    rewrite length_take, Nat.min_l by lia. reflexivity. }
  assert (Hfresh : c :: r ∉ elementPaths 0 (take c kids) r).
  { intros Hin. apply elementPaths_elem in Hin as (i & [= <-] & Hi).
    rewrite length_take in Hi. lia. }
  assert (Hindex : indexOf (children roots r) (c :: r)
                   = Z.of_nat (length preceding)).
  { rewrite Hpaths, indexOf_app_here by done.
    by rewrite elementPaths_length. }
  assert (Hoffset :
    getOffsetInLumiSpan CITATION_CLASSNAME FOOTNOTE_CLASSNAME roots (t :: c :: r)
    = Z.of_nat (length preceding) - Z.of_nat (length markers)).
  { unfold getOffsetInLumiSpan. destruct r as [|j r']; [done|].
    cbn [parentElement]. rewrite Hindex.
    unfold slice0. rewrite bool_decide_eq_false_2 by lia.
    rewrite Nat2Z.id. f_equal. f_equal.
    rewrite Hpaths. unfold preceding. rewrite <- (elementPaths_length (j :: r') _ 0).
    rewrite take_app_length.
    apply elementPaths_filter. intros i n Hi.
    rewrite nodeAt_child by done. fold kids.
    apply lookup_take_Some in Hi as [Hi _]. exact Hi. }
  split_and!; [done|done|].
  rewrite Hoffset. unfold markers.
  rewrite (filter_length_split
             (isInlineTag CITATION_CLASSNAME FOOTNOTE_CLASSNAME) preceding).
  lia.
Qed.

Lemma nodeAt_childNodesAt roots (i : nat) (parent : Path) :
  nodeAt roots (i :: parent) = childNodesAt roots parent !! i.
Proof.
  destruct parent as [|j parent]; [done|]. by apply nodeAt_child.
Qed.

(** The chain of next element siblings reaches an element sibling further
    on after passing only siblings that come before it. *)
Lemma siblings_split (s : nat) (parent : Path) : ∀ kids k c el,
  kids !! c = Some el → isElement el = true → (s < k + c)%nat →
  ∃ front back,
    omap (λ '(j, n), if isElement n && bool_decide (s < j)%nat
                     then Some (j :: parent) else None)
         (imap (λ i n, ((k + i)%nat, n)) kids)
    = front ++ ((k + c)%nat :: parent) :: back ∧
    ∀ p, p ∈ front → ∃ j, p = j :: parent ∧ (j < k + c)%nat.
Proof.
  induction kids as [|n kids IH]; intros k c el Hc Hel Hlt; [done|].
  rewrite imap_cons. cbn [omap list_omap]. rewrite Nat.add_0_r.
  rewrite (imap_ext _ (λ i n, ((S k + i)%nat, n))); last first.
  { intros i x _. simpl. f_equal. lia. }
  destruct c as [|c].
  - simpl in Hc. injection Hc as ->. rewrite Hel, Nat.add_0_r in *.
    rewrite bool_decide_eq_true_2 by lia. cbn [andb].
    eexists [], _. split; [reflexivity|]. intros p Hp. by apply elem_of_nil in Hp.
  - simpl in Hc.
    destruct (IH (S k) c el Hc Hel ltac:(lia)) as (front & back & Heq & Hfront).
    rewrite Heq. replace (S k + c)%nat with (k + S c)%nat in * by lia.
    destruct (isElement n && bool_decide (s < k)%nat).
    + exists ((k :: parent) :: front), back. split; [done|].
      intros p [->|Hp]%elem_of_cons; [exists k; split; [done|lia]|by apply Hfront].
    + by exists front, back.
Qed.

Lemma collectLumiSpans_reaches roots (last unit : Path) (el : Node) :
  nodeAt roots unit = Some el → isElement el = true → isLumiSpan el = true →
  ∀ front back,
    last ∉ front → unit ∈ collectLumiSpans roots last (front ++ unit :: back).
Proof.
  intros Hnode Hel Hlumi. induction front as [|a front IH]; intros back Hnot.
  - cbn [app collectLumiSpans]. rewrite Hnode, Hel, Hlumi. cbn [andb].
    apply elem_of_app. left. apply list_elem_of_here.
  - cbn [app collectLumiSpans]. apply elem_of_app. right.
    apply not_elem_of_cons in Hnot as [Hne Hnot].
    rewrite bool_decide_eq_false_2 by done. by apply IH.
Qed.

(** C2, as the code has it. In a selection over several units, every unit
    with an id strictly between the first and the last is reported from
    offset 0 to the length of its text content plus one. *)
Theorem getSelectionInfo_middle_units roots selection info range
    (first last : Path) :
  getSelectionInfo CITATION_CLASSNAME FOOTNOTE_CLASSNAME roots selection
  = Some info →
  getRangeAt0 selection = Some range →
  findParent roots (startContainer range) isLumiSpan = Some first →
  findParent roots (endContainer range) isLumiSpan = Some last →
  first ≠ last →
  ∀ unit el,
    StrictlyBetween roots first last unit →
    nodeAt roots unit = Some el →
    idOf el ≠ "" →
    mkHighlightSelection
      (idOf el)
      (Some (mkPosition 0 (Z.of_nat (String.length (textContent roots unit)) + 1)))
    ∈ highlightSelection info.
Proof.
  intros Hinfo Hrange Hfirst Hlast Hne unit el Hbetween Hnode Hid.
  unfold getSelectionInfo in Hinfo.
  rewrite Hrange, Hfirst, Hlast in Hinfo.
  case_bool_decide; [done|].
  destruct (_ || _); [done|].
  destruct (findParent roots (startContainer range) _) as [firstParentSpan|];
    [|done].
  injection Hinfo as <-. cbn [highlightSelection].
  rewrite (bool_decide_eq_true_2 (first ≠ last)) by done.
  destruct Hbetween as (s & i & e & parent & el' & -> & -> & -> & Hsie & Hnode'
                        & Hel & Hlumi).
  assert (el' = el) as -> by congruence.
  rewrite list_elem_of_In, in_app_iff, in_flat_map.
  right. exists (i :: parent). split.
  - rewrite <- list_elem_of_In.
    unfold nextElementSiblings.
    rewrite nodeAt_childNodesAt in Hnode.
    destruct (siblings_split s parent (childNodesAt roots parent) 0 i el
                Hnode Hel ltac:(lia)) as (front & back & Heq & Hfront).
    cbn [Nat.add] in Heq. rewrite (imap_ext _ pair) in Heq by done.
    rewrite Heq. eapply collectLumiSpans_reaches;
      [by rewrite nodeAt_childNodesAt|done|done|].
    intros Hin. destruct (Hfront _ Hin) as (j & [= <-] & Hj). lia.
  - unfold selectionOfLumiSpan. rewrite Hnode. cbn [fmap option_fmap option_map default].
    rewrite (bool_decide_eq_false_2 (idOf el = "")) by done.
    rewrite (bool_decide_eq_false_2 (i :: parent = s :: parent))
      by (intros [= ->]; lia).
    rewrite (bool_decide_eq_false_2 (i :: parent = e :: parent))
      by (intros [= ->]; lia).
    apply in_eq.
Qed.

End SelectionResolver.

Section SelectionFixtures.
Import Dom SelectionUtils.

Lemma multiUnit_resolved :
  getSelectionInfo "citation" "footnote" multiUnitRoots multiUnitSelection
  = Some multiUnitInfo.
Proof. vm_compute. reflexivity. Qed.

Lemma multiUnit_between : StrictlyBetween multiUnitRoots [0%nat] [2%nat] [1%nat].
Proof.
  exists 0%nat, 1%nat, 2%nat, [], (createLumiSpan "test-span-2" "Second part. ").
  split_and!; try reflexivity; lia.
Qed.

(** The inline-marker test: the container of the first ["t"] of ["text"] is
    child 7 of the renderer element; a citation and a footnote precede it,
    and the offset is 5. *)
Lemma getOffsetInLumiSpan_text_space_witness :
  getOffsetInLumiSpan "citation" "footnote" (inlineRoots "citation" "footnote")
                      [0; 7; 0; 0]%nat = 5.
Proof.
  rewrite (proj1 (proj2 (getOffsetInLumiSpan_text_space "citation" "footnote"
             (inlineRoots "citation" "footnote") 0 7 [0; 0]%nat
             (Element "span" "" [] [Text "t"])
             ltac:(discriminate) eq_refl eq_refl))).
  vm_compute. reflexivity.
Defined.

(** The multi-unit test: the second unit, 13 characters long, is reported
    over [0, 14). *)
Lemma getSelectionInfo_middle_units_witness :
  mkHighlightSelection "test-span-2" (Some (mkPosition 0 14))
  ∈ highlightSelection multiUnitInfo.
Proof.
  exact (getSelectionInfo_middle_units "citation" "footnote" multiUnitRoots
           multiUnitSelection multiUnitInfo
           (mkRange [0; 6; 0; 0]%nat [0; 4; 0; 2]%nat) [0%nat] [2%nat]
           multiUnit_resolved eq_refl eq_refl eq_refl ltac:(discriminate)
           [1%nat] (createLumiSpan "test-span-2" "Second part. ")
           multiUnit_between eq_refl ltac:(discriminate)).
Defined.

(** C2, as stated: the end offset of a middle unit is not the length of its
    text. In the multi-unit test the second unit has 13 characters and no
    entry of the result gives it the range [0, 13). *)
Lemma getSelectionInfo_middle_units_counterexample :
  ¬ (∀ CITATION_CLASSNAME FOOTNOTE_CLASSNAME roots selection info range
       (first last : Path),
       getSelectionInfo CITATION_CLASSNAME FOOTNOTE_CLASSNAME roots selection
       = Some info →
       getRangeAt0 selection = Some range →
       findParent roots (startContainer range) isLumiSpan = Some first →
       findParent roots (endContainer range) isLumiSpan = Some last →
       first ≠ last →
       ∀ unit el,
         StrictlyBetween roots first last unit →
         nodeAt roots unit = Some el →
         idOf el ≠ "" →
         mkHighlightSelection
           (idOf el)
           (Some (mkPosition 0 (Z.of_nat (String.length (textContent roots unit)))))
         ∈ highlightSelection info).
Proof.
  intros claim.
  specialize (claim "citation" "footnote" multiUnitRoots multiUnitSelection
                    multiUnitInfo (mkRange [0; 6; 0; 0]%nat [0; 4; 0; 2]%nat)
                    [0%nat] [2%nat] multiUnit_resolved eq_refl eq_refl eq_refl
                    ltac:(discriminate) [1%nat]
                    (createLumiSpan "test-span-2" "Second part. ")
                    multiUnit_between eq_refl ltac:(discriminate)).
  apply list_elem_of_In in claim. vm_compute in claim.
  destruct claim as [H|[H|[H|[]]]]; discriminate H.
Qed.

End SelectionFixtures.

(** ** Document index *)

Section DocumentIndex.
Import LumiDocManager.

(** Induction on a section with the property available for its
    subsections. *)
Lemma LumiSection_nested_ind (P : LumiSection → Prop) :
  (∀ section, Forall P (subSections section) → P section) → ∀ section, P section.
Proof.
  intros step. fix IH 1. intros [id level heading cs subs].
  apply step. simpl.
  induction subs as [|sub subs IHsubs]; constructor; [apply IH | apply IHsubs].
Qed.

Lemma recordAll_app l1 l2 m :
  recordAll (l1 ++ l2) m = recordAll l2 (recordAll l1 m).
Proof. unfold recordAll. apply foldl_app. Qed.

Lemma recordAll_absent pairs : ∀ m k,
  k ∉ pairs.*1 → recordAll pairs m !! k = m !! k.
Proof.
  unfold recordAll.
  induction pairs as [|[k' v] pairs IH]; intros m k Hk; [done|].
  cbn [foldl fmap list_fmap fst] in *. apply not_elem_of_cons in Hk as [Hne Hk].
  rewrite IH by done. by rewrite lookup_insert_ne.
Qed.

Lemma recordAll_present pairs : ∀ m k v,
  NoDup pairs.*1 → (k, v) ∈ pairs → recordAll pairs m !! k = Some v.
Proof.
  unfold recordAll.
  induction pairs as [|[k' v'] pairs IH]; intros m k v Hnodup Hin.
  - by apply elem_of_nil in Hin.
  - cbn [foldl fmap list_fmap fst snd] in *.
    apply NoDup_cons in Hnodup as [Hfresh Hnodup].
    apply elem_of_cons in Hin as [[= -> ->]|Hin].
    + fold (recordAll pairs (<[k' := v']> m)).
      rewrite recordAll_absent by done. apply lookup_insert_eq.
    + by apply IH.
Qed.

Lemma foldl_indexSpan_owner sec spans : ∀ idx,
  spanToSectionMap (foldl (indexSpan (Some sec)) idx spans)
  = recordAll ((λ s, (span_id s, sec)) <$> spans) (spanToSectionMap idx).
Proof.
  induction spans as [|s spans IH]; intros idx; [done|].
  cbn [foldl]. by rewrite IH.
Qed.

Lemma foldl_indexSpan_none spans : ∀ idx,
  spanToSectionMap (foldl (indexSpan None) idx spans) = spanToSectionMap idx.
Proof.
  induction spans as [|s spans IH]; intros idx; [done|].
  cbn [foldl]. by rewrite IH.
Qed.

Lemma foldl_indexContent_owner sec cs : ∀ idx,
  spanToSectionMap (foldl (indexContent (Some sec)) idx cs)
  = recordAll ((λ s, (span_id s, sec)) <$> flat_map contentSpans cs)
              (spanToSectionMap idx).
Proof.
  induction cs as [|c cs IH]; intros idx; [done|].
  cbn [foldl flat_map]. rewrite IH. unfold indexContent.
  rewrite foldl_indexSpan_owner, fmap_app. by rewrite recordAll_app.
Qed.

Lemma foldl_indexContent_none cs : ∀ idx,
  spanToSectionMap (foldl (indexContent None) idx cs) = spanToSectionMap idx.
Proof.
  induction cs as [|c cs IH]; intros idx; [done|].
  cbn [foldl]. rewrite IH. apply foldl_indexSpan_none.
Qed.

Lemma indexSection_owner section : ∀ parent idx,
  spanToSectionMap (indexSection parent idx section)
  = recordAll (ownedPairs section) (spanToSectionMap idx).
Proof.
  induction section as [section IH] using LumiSection_nested_ind.
  intros parent idx. destruct section as [id level heading cs subs].
  cbn [indexSection ownedPairs subSections contents] in *.
  set (sec := mkLumiSection id level heading cs subs) in *.
  rewrite recordAll_app.
  set (idx1 := foldl (indexContent (Some sec)) _ cs).
  assert (H1 : spanToSectionMap idx1
               = recordAll ((λ s, (span_id s, sec)) <$> sectionSpans sec)
                           (spanToSectionMap idx)).
  { unfold idx1. rewrite foldl_indexContent_owner. by destruct parent. }
  rewrite <- H1. clear H1. generalize idx1. clear idx1. clearbody sec.
  induction IH as [|sub subs Hsub _ IHsubs]; intros idx1; [done|].
  rewrite IHsubs, Hsub. by rewrite recordAll_app.
Qed.

Lemma foldl_indexSection_owner secs : ∀ idx,
  spanToSectionMap (foldl (indexSection None) idx secs)
  = recordAll (flat_map ownedPairs secs) (spanToSectionMap idx).
Proof.
  induction secs as [|sec secs IH]; intros idx; [done|].
  cbn [foldl flat_map]. by rewrite IH, indexSection_owner, recordAll_app.
Qed.

(** The owner lookup of the index: the pairs of the walk of the sections,
    recorded in order. *)
Lemma spanToSectionMap_indexDocument doc :
  spanToSectionMap (indexDocument doc)
  = recordAll (flat_map ownedPairs (sections doc)) ∅.
Proof.
  unfold indexDocument.
  rewrite !foldl_indexSpan_none, foldl_indexSection_owner.
  by rewrite foldl_indexContent_none.
Qed.

Lemma ownedPairs_own section s :
  s ∈ sectionSpans section → (span_id s, section) ∈ ownedPairs section.
Proof.
  intros Hs. destruct section as [id level heading cs subs].
  cbn [ownedPairs]. apply elem_of_app. left.
  apply list_elem_of_fmap. by exists s.
Qed.

Lemma ownedPairs_nested section : ∀ sec pair,
  sec ∈ sectionsOf section → pair ∈ ownedPairs sec → pair ∈ ownedPairs section.
Proof.
  induction section as [section IH] using LumiSection_nested_ind.
  intros sec pair Hsec Hpair. destruct section as [id level heading cs subs].
  cbn [sectionsOf ownedPairs subSections] in *.
  apply elem_of_cons in Hsec as [->|Hsec]; [done|].
  apply elem_of_app. right.
  induction IH as [|sub subs Hsub _ IHsubs]; [by apply elem_of_nil in Hsec|].
  apply elem_of_app in Hsec as [Hsec|Hsec]; apply elem_of_app.
  - left. by eapply Hsub.
  - right. by apply IHsubs.
Qed.

Lemma owned_in_document doc sec s :
  sec ∈ allSections doc → s ∈ sectionSpans sec →
  (span_id s, sec) ∈ flat_map ownedPairs (sections doc).
Proof.
  unfold allSections. intros Hsec Hs.
  apply list_elem_of_In, in_flat_map in Hsec as (top & Htop & Hsec).
  apply list_elem_of_In, in_flat_map. exists top. split; [done|].
  apply list_elem_of_In. eapply ownedPairs_nested.
  - by apply list_elem_of_In.
  - by apply ownedPairs_own.
Qed.

(** C1, as the specified index has it. In a document whose span ids are
    unique, a span directly in the content of a section, top-level or nested
    at any depth, is owned by that section, the nearest one; a span of the
    abstract and an id that no section span has are owned by no section. *)
Theorem getSectionForSpan_nearest_section (doc : LumiDoc) :
  NoDup (docSpanIds doc) →
  (∀ sec s,
     sec ∈ allSections doc → s ∈ sectionSpans sec →
     getSectionForSpan doc (span_id s) = Some sec) ∧
  (∀ s, s ∈ abstractSpans doc → getSectionForSpan doc (span_id s) = None) ∧
  (∀ id, id ∉ sectionSpanIds doc → getSectionForSpan doc id = None).
Proof.
  intros Hnodup. unfold docSpanIds in Hnodup.
  apply NoDup_app in Hnodup as (_ & Hdisjoint & Hsections).
  unfold getSectionForSpan. rewrite spanToSectionMap_indexDocument.
  split_and!.
  - intros sec s Hsec Hs. apply recordAll_present; [done|].
    by apply owned_in_document.
  - intros s Hs. rewrite recordAll_absent; [apply lookup_empty|].
    apply Hdisjoint. apply list_elem_of_fmap. by exists s.
  - intros id Hid. rewrite recordAll_absent; [apply lookup_empty|done].
Qed.

Lemma docFixture_unique : NoDup (docSpanIds docFixture).
Proof. apply (bool_decide_unpack _). vm_compute. exact I. Qed.

(** The fixture of the test suite: the span of the nested sub-section is
    owned by the sub-section, the abstract's span by no section. *)
Lemma getSectionForSpan_nearest_section_witness :
  getSectionForSpan docFixture "span-2" = Some subSectionFixture
  ∧ getSectionForSpan docFixture "abstract-span" = None.
Proof.
  destruct (getSectionForSpan_nearest_section docFixture docFixture_unique)
    as (Hsection & Habstract & _).
  split.
  - apply (Hsection subSectionFixture (createSpan "span-2" "Nested")).
    + apply list_elem_of_In. simpl. auto.
    + apply list_elem_of_In. simpl. auto.
  - apply (Habstract (createSpan "abstract-span" "Abstract")).
    apply list_elem_of_In. simpl. auto.
Defined.

(** C1, as stated: a span inside a subsection of a top-level section is not
    attributed to the top-level section. In the fixture, ["span-2"] of the
    sub-section is owned by the sub-section. *)
Lemma getSectionForSpan_top_level_counterexample :
  ¬ (∀ doc top sub s,
       NoDup (docSpanIds doc) →
       top ∈ sections doc → sub ∈ subSections top → s ∈ sectionSpans sub →
       getSectionForSpan doc (span_id s) = Some top).
Proof.
  intros claim.
  specialize (claim docFixture topSectionFixture subSectionFixture
                    (createSpan "span-2" "Nested") docFixture_unique).
  assert (Hown : getSectionForSpan docFixture "span-2" = Some subSectionFixture)
    by (vm_compute; reflexivity).
  cbn [span_id createSpan] in claim. rewrite Hown in claim.
  assert (Hsame : Some subSectionFixture = Some topSectionFixture).
  { apply claim; apply list_elem_of_here. }
  discriminate Hsame.
Qed.

End DocumentIndex.

(** ** Highlight store: reachable stores, image highlights *)

Section HighlightStoreReachable.
Import HighlightManager.

Lemma wellKeyed_addHighlight m h : wellKeyed m → wellKeyed (addHighlight m h).
Proof.
  intros Hm id hs. unfold addHighlight; cbn [highlightedSpans].
  destruct (decide (id = spanId h)) as [->|Hne].
  - rewrite lookup_insert_eq. intros [= <-]. split.
    + by destruct (default [] (highlightedSpans m !! spanId h)).
    + apply Forall_app. split; [|by constructor].
      destruct (highlightedSpans m !! spanId h) as [old|] eqn:E; simpl.
      * apply (Hm _ _ E).
      * constructor.
  - rewrite lookup_insert_ne by done. apply Hm.
Qed.

Lemma wellKeyed_addHighlights hs : ∀ m,
  wellKeyed m → wellKeyed (addHighlights hs m).
Proof.
  unfold addHighlights.
  induction hs as [|h hs IH]; intros m Hm; cbn [foldl]; [done|].
  by apply IH, wellKeyed_addHighlight.
Qed.

Lemma wellKeyed_removeHighlights ids : ∀ m,
  wellKeyed m → wellKeyed (removeHighlights ids m).
Proof.
  unfold removeHighlights.
  induction ids as [|x ids IH]; intros m Hm; cbn [foldl]; [done|].
  apply IH. intros id hs; cbn [highlightedSpans]. intros Hl.
  apply lookup_delete_Some in Hl as [_ Hl]. by apply Hm.
Qed.

Lemma wellKeyed_call m c : wellKeyed m → wellKeyed (call m c).
Proof.
  intros Hm. destruct c; cbn [call].
  - by apply wellKeyed_addHighlights.
  - by apply wellKeyed_removeHighlights.
  - exact Hm.
  - exact Hm.
  - intros id hs. unfold clearHighlights; cbn [highlightedSpans].
    by rewrite lookup_empty.
Qed.

Lemma wellKeyed_run calls : wellKeyed (run calls).
Proof.
  unfold run. induction calls as [|c calls IH] using rev_ind.
  - intros id hs. unfold create; cbn [foldl highlightedSpans].
    by rewrite lookup_empty.
  - rewrite foldl_snoc. by apply wellKeyed_call.
Qed.

(** X1. Whatever calls a new store has gone through, the highlights it
    returns for a span are all addressed to that span, and it holds no
    empty list: a span has an entry exactly when it has a highlight. *)
Theorem reachable_store_well_keyed (calls : list Call) (id : string) :
  Forall (λ h, spanId h = id) (getSpanHighlights (run calls) id) ∧
  highlightedSpans (run calls) !! id ≠ Some [] ∧
  (is_Some (highlightedSpans (run calls) !! id)
   ↔ getSpanHighlights (run calls) id ≠ []).
Proof.
  pose proof (wellKeyed_run calls id) as Hk.
  unfold getSpanHighlights.
  destruct (highlightedSpans (run calls) !! id) as [hs|] eqn:E; simpl.
  - destruct (Hk hs eq_refl) as [Hne Hall]. split_and!; [done| |].
    + by intros [= ->].
    + split; [done|]. by eexists.
  - split_and!; [constructor|done|].
    split; [by intros [? [=]]|done].
Qed.

Lemma highlightedImages_addHighlights hs : ∀ m,
  highlightedImages (addHighlights hs m) = highlightedImages m.
Proof.
  unfold addHighlights.
  induction hs as [|h hs IH]; intros m; cbn [foldl]; [done|]. by rewrite IH.
Qed.

Lemma highlightedImages_removeHighlights ids : ∀ m,
  highlightedImages (removeHighlights ids m) = highlightedImages m.
Proof.
  unfold removeHighlights.
  induction ids as [|x ids IH]; intros m; cbn [foldl]; [done|]. by rewrite IH.
Qed.

(** X2. The highlighted images form a set: adding a path makes that path
    highlighted and changes no other, removing it makes it not highlighted
    and changes no other, so that adding twice or removing an absent path
    is the same as doing it once or not at all; clearing leaves no image
    highlighted; the calls on span highlights do not touch the images, and
    the calls on images do not touch the span highlights. *)
Theorem image_highlights_are_a_set (m : HighlightManagerBase) (p q : string) :
  isImageHighlighted (addImageHighlight p m) q
  = bool_decide (q = p) || isImageHighlighted m q ∧
  isImageHighlighted (removeImageHighlight p m) q
  = negb (bool_decide (q = p)) && isImageHighlighted m q ∧
  isImageHighlighted (addImageHighlight p (addImageHighlight p m)) q
  = isImageHighlighted (addImageHighlight p m) q ∧
  isImageHighlighted (clearHighlights m) q = false ∧
  isImageHighlighted create q = false ∧
  (∀ hs, isImageHighlighted (addHighlights hs m) q = isImageHighlighted m q) ∧
  (∀ ids, isImageHighlighted (removeHighlights ids m) q
          = isImageHighlighted m q) ∧
  (∀ id, getSpanHighlights (addImageHighlight p m) id = getSpanHighlights m id) ∧
  (∀ id, getSpanHighlights (removeImageHighlight p m) id
         = getSpanHighlights m id).
Proof.
  unfold isImageHighlighted. split_and!.
  - cbn [addImageHighlight highlightedImages].
    destruct (decide (q = p)) as [->|Hne].
    + rewrite (bool_decide_eq_true_2 (p = p)) by done. simpl.
      apply bool_decide_eq_true_2.
      rewrite elem_of_union, elem_of_singleton. by left.
    + rewrite (bool_decide_eq_false_2 (q = p)) by done. simpl.
      apply bool_decide_ext.
      rewrite elem_of_union, elem_of_singleton. tauto.
  - cbn [removeImageHighlight highlightedImages].
    destruct (decide (q = p)) as [->|Hne].
    + rewrite (bool_decide_eq_true_2 (p = p)) by done. simpl.
      apply bool_decide_eq_false_2.
      rewrite elem_of_difference, elem_of_singleton. tauto.
    + rewrite (bool_decide_eq_false_2 (q = p)) by done. simpl.
      apply bool_decide_ext.
      rewrite elem_of_difference, elem_of_singleton. tauto.
  - cbn [addImageHighlight highlightedImages].
    apply bool_decide_ext. rewrite !elem_of_union, elem_of_singleton. tauto.
  - cbn [clearHighlights highlightedImages].
    apply bool_decide_eq_false_2. apply not_elem_of_empty.
  - cbn [create highlightedImages].
    apply bool_decide_eq_false_2. apply not_elem_of_empty.
  - intros hs. by rewrite highlightedImages_addHighlights.
  - intros ids. by rewrite highlightedImages_removeHighlights.
  - done.
  - done.
Qed.

End HighlightStoreReachable.

(** ** The highlights a span is painted with *)

Section ManagersOverlay.
Import HighlightManager LumiSpanUtils LumiSpanViz.

Lemma highlightsCovering_app spanText j hs1 hs2 :
  highlightsCovering spanText j (hs1 ++ hs2)
  = highlightsCovering spanText j hs1 ++ highlightsCovering spanText j hs2.
Proof. unfold highlightsCovering. apply List.filter_app. Qed.

(** X3. A span is painted with the highlights of the user's store followed
    by those of the answers' store. A character that a highlight of an
    answer covers shows the last such highlight, whatever the user's
    highlights; a character no answer covers shows the last of the user's
    highlights that cover it, and none when there is none. *)
Theorem answer_highlights_painted_over (spanText : string)
    (tags : list InnerTag) (sid : string) (manager : HighlightManagerBase)
    (answers : string → list Highlight) (j : nat) :
  (j < String.length spanText)%nat →
  getSpanHighlightsFromManagers sid (Some manager) (Some answers)
  = getSpanHighlights manager sid ++ answers sid ∧
  ∃ counter,
    formattingCountersOf spanText tags
      (getSpanHighlightsFromManagers sid (Some manager) (Some answers)) !! j
    = Some counter ∧
    counter !! GENERAL_HIGHLIGHT_KEY
    = highlightMark <$>
        match last (highlightsCovering spanText j (answers sid)) with
        | Some h => Some h
        | None =>
            last (highlightsCovering spanText j (getSpanHighlights manager sid))
        end.
Proof.
  intros Hj. split; [done|].
  destruct (formattingCountersOf_entries spanText tags
              (getSpanHighlightsFromManagers sid (Some manager) (Some answers))
              j Hj) as (counter & Hc & _ & Hg & _).
  exists counter. split; [done|].
  rewrite Hg. unfold getSpanHighlightsFromManagers. cbn [app].
  by rewrite highlightsCovering_app, last_app.
Qed.

(** A yellow highlight of the user and a green one of an answer on the same
    span: the character shows the green one. *)
Lemma answer_highlights_painted_over_witness :
  let yellow := mkHighlight "yellow" "s1" None None in
  let green := mkHighlight "green" "s1" (Some (mkPosition 0 1)) None in
  ∃ counter,
    formattingCountersOf "ab" []
      (getSpanHighlightsFromManagers "s1"
         (Some (addHighlights [yellow] create)) (Some (λ _, [green])))
      !! 0%nat = Some counter ∧
    counter !! GENERAL_HIGHLIGHT_KEY = Some (highlightMark green).
Proof.
  intros yellow green.
  destruct (answer_highlights_painted_over "ab" [] "s1"
              (addHighlights [yellow] create) (λ _, [green]) 0)
    as (_ & counter & Hc & Hg).
  - simpl. lia.
  - exists counter. split; [exact Hc|]. rewrite Hg. reflexivity.
Defined.

End ManagersOverlay.

(** ** Collapse state of the answers *)

Section CollapseState.
Import Api HistoryCollapseManager.

Lemma initialize_snoc answers answer state :
  initialize (answers ++ [answer]) state
  = <[answer_id answer :=
        if bool_decide (length answers = 0%nat) then false else true]>
      (initialize answers state).
Proof.
  unfold initialize. rewrite imap_app, foldl_app. cbn [imap foldl].
  by rewrite Nat.add_0_r.
Qed.

Lemma initialize_other answers state id :
  id ∉ answer_id <$> answers →
  initialize answers state !! id = state !! id.
Proof.
  induction answers as [|a answers IH] using rev_ind; intros Hid; [done|].
  rewrite initialize_snoc. rewrite fmap_app, elem_of_app in Hid.
  rewrite lookup_insert_ne.
  - apply IH. tauto.
  - intros Heq. apply Hid. right. rewrite <- Heq. apply list_elem_of_here.
Qed.

Lemma initialize_last_occurrence answers state : ∀ (i : nat) answer,
  answers !! i = Some answer →
  (∀ j other, (i < j)%nat → answers !! j = Some other →
              answer_id other ≠ answer_id answer) →
  initialize answers state !! answer_id answer = Some (bool_decide (i ≠ 0%nat)).
Proof.
  induction answers as [|a answers IH] using rev_ind; intros i answer Hi Hlast.
  - done.
  - rewrite initialize_snoc.
    destruct (decide (i = length answers)) as [->|Hne].
    + rewrite list_lookup_middle in Hi by done. injection Hi as ->.
      rewrite lookup_insert_eq. f_equal.
      by repeat case_bool_decide.
    + assert (Hlt : (i < length answers)%nat).
      { apply lookup_lt_Some in Hi. rewrite length_app in Hi. simpl in Hi. lia. }
      rewrite lookup_app_l in Hi by done.
      rewrite lookup_insert_ne.
      * apply IH; [done|]. intros j other Hj Hother.
        apply (Hlast j other Hj). by rewrite lookup_app_l by by eapply lookup_lt_Some.
      * apply (Hlast (length answers) a Hlt). by rewrite list_lookup_middle.
Qed.

(** X4. After [initialize], the first answer of the list is expanded and
    every other answer is collapsed (when an id occurs more than once, its
    last occurrence decides); an id that is not in the list keeps the state
    it had, and on a new manager it is reported as not collapsed. *)
Theorem initialize_expands_first_answer (answers : list LumiAnswer)
    (state : CollapseState) :
  (∀ (i : nat) answer,
     answers !! i = Some answer →
     (∀ j other, (i < j)%nat → answers !! j = Some other →
                 answer_id other ≠ answer_id answer) →
     isAnswerCollapsed (initialize answers state) (answer_id answer)
     = bool_decide (i ≠ 0%nat)) ∧
  (∀ id, id ∉ answer_id <$> answers →
         isAnswerCollapsed (initialize answers state) id
         = isAnswerCollapsed state id) ∧
  (∀ id, id ∉ answer_id <$> answers →
         isAnswerCollapsed (initialize answers create) id = false).
Proof.
  split_and!.
  - intros i answer Hi Hlast. unfold isAnswerCollapsed.
    by rewrite (initialize_last_occurrence answers state i answer Hi Hlast).
  - intros id Hid. unfold isAnswerCollapsed. by rewrite initialize_other.
  - intros id Hid. unfold isAnswerCollapsed. by rewrite initialize_other.
Qed.

(** Three answers: the first is expanded, the third collapsed, and an id
    that is not among them is reported as not collapsed. *)
Lemma initialize_expands_first_answer_witness :
  let answer id :=
    mkLumiAnswer id (mkLumiAnswerRequest (Some "q") None None None) [] 0 None in
  let answers := [answer "id1"; answer "id2"; answer "id3"] in
  isAnswerCollapsed (initialize answers create) "id1" = false
  ∧ isAnswerCollapsed (initialize answers create) "id3" = true
  ∧ isAnswerCollapsed (initialize answers create) "id4" = false.
Proof.
  intros answer answers.
  destruct (initialize_expands_first_answer answers create)
    as (Hin & _ & Hout).
  split_and!.
  - apply (Hin 0%nat (answer "id1")); [reflexivity|].
    intros [|[|[|j]]] other Hj Hother; try lia; cbn in Hother;
      try discriminate; injection Hother as <-; discriminate.
  - apply (Hin 2%nat (answer "id3")); [reflexivity|].
    intros [|[|[|j]]] other Hj Hother; try lia; cbn in Hother; discriminate.
  - apply Hout. intros Hel. vm_compute in Hel.
    repeat (apply elem_of_cons in Hel as [Hel|Hel]; [discriminate|]).
    by apply elem_of_nil in Hel.
Defined.

(** X5. Toggling flips what is reported for the answer and for no other; an
    answer the manager has never seen is reported as not collapsed, so that
    its first toggle collapses it; toggling twice restores what is reported
    for every answer. *)
Theorem toggle_flips_one_answer (state : CollapseState) (answerId id : string) :
  isAnswerCollapsed (toggleAnswerCollapsed answerId state) id
  = (if bool_decide (id = answerId) then negb (isAnswerCollapsed state id)
     else isAnswerCollapsed state id) ∧
  (state !! answerId = None →
   isAnswerCollapsed (toggleAnswerCollapsed answerId state) answerId = true) ∧
  isAnswerCollapsed
    (toggleAnswerCollapsed answerId (toggleAnswerCollapsed answerId state)) id
  = isAnswerCollapsed state id.
Proof.
  assert (Hone : ∀ st x,
            isAnswerCollapsed (toggleAnswerCollapsed answerId st) x
            = if bool_decide (x = answerId) then negb (isAnswerCollapsed st x)
              else isAnswerCollapsed st x).
  { intros st x. unfold toggleAnswerCollapsed, isAnswerCollapsed.
    case_bool_decide as E.
    - subst x. by rewrite lookup_insert_eq.
    - by rewrite lookup_insert_ne. }
  split_and!.
  - apply Hone.
  - intros Hnone. rewrite Hone, bool_decide_eq_true_2 by done.
    unfold isAnswerCollapsed. by rewrite Hnone.
  - rewrite !Hone. case_bool_decide; [|done].
    by rewrite negb_involutive.
Qed.

Lemma toggle_flips_one_answer_witness :
  isAnswerCollapsed (toggleAnswerCollapsed "id1" create) "id1" = true.
Proof.
  destruct (toggle_flips_one_answer create "id1" "id1") as (_ & Hnew & _).
  apply Hnew. reflexivity.
Defined.

Lemma foldl_collapse_lookup keep (keys : list string) : ∀ (state : CollapseState) id,
  foldl (λ st answerId,
           if bool_decide (answerId ≠ keep) then <[answerId := true]> st else st)
        state keys !! id
  = if bool_decide (id ∈ keys ∧ id ≠ keep) then Some true else state !! id.
Proof.
  induction keys as [|k keys IH]; intros state id; cbn [foldl].
  - rewrite bool_decide_eq_false_2; [done|].
    intros [Hel _]. by apply elem_of_nil in Hel.
  - rewrite IH. destruct (decide (id ∈ keys ∧ id ≠ keep)) as [[Hel Hne]|Hno].
    + rewrite !bool_decide_eq_true_2; [done| |done].
      split; [by apply list_elem_of_further|done].
    + rewrite (bool_decide_eq_false_2 _ Hno).
      destruct (decide (id = k)) as [->|Hk].
      * case_bool_decide as Hkeep.
        -- rewrite lookup_insert_eq, bool_decide_eq_true_2; [done|].
           split; [apply list_elem_of_here|done].
        -- rewrite bool_decide_eq_false_2; [done|]. intros [_ Hne]. tauto.
      * assert (Hsame : (if bool_decide (k ≠ keep) then <[k := true]> state
                         else state) !! id = state !! id).
        { case_bool_decide; [by rewrite lookup_insert_ne|done]. }
        rewrite Hsame. rewrite bool_decide_eq_false_2; [done|].
        intros [Hel Hne]. apply elem_of_cons in Hel as [?|Hel]; [done|].
        apply Hno. by split.
Qed.

Lemma collapseAllAnswersExcept_lookup keep (state : CollapseState) id :
  collapseAllAnswersExcept keep state !! id
  = if bool_decide (id = keep) then Some false
    else if bool_decide (is_Some (state !! id)) then Some true else None.
Proof.
  unfold collapseAllAnswersExcept. case_bool_decide as Hkeep.
  - subst id. by rewrite lookup_insert_eq.
  - rewrite lookup_insert_ne by done. rewrite foldl_collapse_lookup.
    assert (Hkeys : id ∈ (map_to_list state).*1 ↔ is_Some (state !! id)).
    { rewrite list_elem_of_fmap. split.
      - intros ([k v] & -> & Hel). apply elem_of_map_to_list in Hel.
        by eexists.
      - intros [v Hv]. exists (id, v). split; [done|].
        by apply elem_of_map_to_list. }
    destruct (state !! id) as [v|] eqn:E.
    + rewrite !bool_decide_eq_true_2; [done|by eexists|].
      split; [|done]. apply Hkeys. by eexists.
    + rewrite !bool_decide_eq_false_2; [done|by intros [? [=]]|].
      intros [Hel _]. apply Hkeys in Hel. by destruct Hel as [? [=]].
Qed.

(** X6. [collapseAllAnswersExcept] collapses every answer the manager has
    an entry for, the kept one apart, which it expands; an answer without
    an entry gets none and is still reported as not collapsed. The kept
    answer gets an entry if it had none, and no other entry is created. *)
Theorem collapseAllAnswersExcept_keeps_one_expanded (keep : string)
    (state : CollapseState) (id : string) :
  isAnswerCollapsed (collapseAllAnswersExcept keep state) id
  = bool_decide (id ≠ keep ∧ is_Some (state !! id)) ∧
  (is_Some (collapseAllAnswersExcept keep state !! id)
   ↔ id = keep ∨ is_Some (state !! id)).
Proof.
  unfold isAnswerCollapsed. rewrite collapseAllAnswersExcept_lookup.
  destruct (decide (id = keep)) as [->|Hne].
  - rewrite (bool_decide_eq_true_2 (keep = keep)) by done. simpl. split.
    + rewrite bool_decide_eq_false_2; [done|]. intros [? _]. done.
    + split; [by left|by eexists].
  - rewrite (bool_decide_eq_false_2 (id = keep)) by done.
    destruct (state !! id) as [v|] eqn:E.
    + rewrite (bool_decide_eq_true_2 (is_Some (Some v))) by by eexists.
      simpl. split.
      * rewrite bool_decide_eq_true_2; [done|]. split; [done|by eexists].
      * split; [by right; eexists|by eexists].
    + rewrite (bool_decide_eq_false_2 (is_Some None)) by by intros [? [=]].
      simpl. split.
      * rewrite bool_decide_eq_false_2; [done|]. by intros [_ [? [=]]].
      * split; [by intros [? [=]]|]. intros [?|[? [=]]]. done.
Qed.

End CollapseState.

(** ** Summary lookups *)

Section SummaryLookups.
Import LumiSummaryMaps.

Lemma newSummariesMap_lookup (summaries : list LumiSummary) (id : string) :
  newSummariesMap summaries !! id
  = last (List.filter (λ s, bool_decide (summary_id s = id)) summaries).
Proof.
  unfold newSummariesMap.
  induction summaries as [|s summaries IH] using rev_ind; [done|].
  rewrite foldl_snoc, List.filter_app. cbn [List.filter].
  case_bool_decide as E.
  - subst id. by rewrite lookup_insert_eq, last_snoc.
  - rewrite lookup_insert_ne by done. by rewrite app_nil_r.
Qed.

(** X7. Each of the three maps gives, for an id, the last summary of its
    list that has the id, and nothing for an id no summary of the list has;
    each of the three setters rebuilds its map from the list it is given
    alone, whatever the map held before, and leaves the two other maps as
    they are. *)
Theorem summary_maps_last_summary_wins (summaries : LumiSummaries) (maps : Maps)
    (l : list LumiSummary) (id : string) :
  let withId := List.filter (λ s, bool_decide (summary_id s = id)) in
  sectionSummariesMap (create summaries) !! id
  = last (withId (sectionSummaries summaries)) ∧
  contentSummariesMap (create summaries) !! id
  = last (withId (contentSummaries summaries)) ∧
  spanSummariesMap (create summaries) !! id
  = last (withId (spanSummaries summaries)) ∧
  sectionSummariesMap (setSectionSummaries l maps) !! id = last (withId l) ∧
  contentSummariesMap (setContentSummaries l maps) !! id = last (withId l) ∧
  spanSummariesMap (setSpanSummaries l maps) !! id = last (withId l) ∧
  (id ∉ summary_id <$> l →
   sectionSummariesMap (setSectionSummaries l maps) !! id = None) ∧
  contentSummariesMap (setSectionSummaries l maps) = contentSummariesMap maps ∧
  spanSummariesMap (setSectionSummaries l maps) = spanSummariesMap maps ∧
  sectionSummariesMap (setSpanSummaries l maps) = sectionSummariesMap maps ∧
  contentSummariesMap (setSpanSummaries l maps) = contentSummariesMap maps ∧
  sectionSummariesMap (setContentSummaries l maps) = sectionSummariesMap maps ∧
  spanSummariesMap (setContentSummaries l maps) = spanSummariesMap maps ∧
  (id ∉ summary_id <$> l →
   contentSummariesMap (setContentSummaries l maps) !! id = None) ∧
  (id ∉ summary_id <$> l →
   spanSummariesMap (setSpanSummaries l maps) !! id = None).
Proof.
  intros withId.
  assert (Hnone : id ∉ summary_id <$> l → newSummariesMap l !! id = None).
  { intros Hid. rewrite newSummariesMap_lookup. apply last_None.
    apply filter_all_false. apply Forall_forall. intros s Hs.
    apply bool_decide_eq_false_2. intros Heq. apply Hid.
    apply list_elem_of_fmap. exists s. by split. }
  split_and!; try apply newSummariesMap_lookup; try done.
Qed.

Lemma summary_maps_last_summary_wins_witness :
  let s id txt := mkLumiSummary id (mkLumiSpan id txt []) in
  sectionSummariesMap
    (setSectionSummaries [s "a" "one"] (create (mkLumiSummaries [s "b" "two"] [] [])))
    !! "b" = None.
Proof.
  intros s.
  destruct (summary_maps_last_summary_wins (mkLumiSummaries [] [] [])
              (create (mkLumiSummaries [s "b" "two"] [] [])) [s "a" "one"] "b")
    as (_ & _ & _ & _ & _ & _ & Hstale & _).
  apply Hstale. intros Hel. vm_compute in Hel.
  apply elem_of_cons in Hel as [Hel|Hel]; [discriminate|].
  by apply elem_of_nil in Hel.
Defined.

End SummaryLookups.

(** ** Tag flattener: offsets and nesting *)

Section TagFlattenerOffsets.
Import LumiSpanUtils.

Lemma emitted_emitted off off' tag :
  emitted off' (emitted off tag) = emitted (off + off') tag.
Proof.
  unfold emitted; cbn [tagName position metadata startIndex endIndex].
  f_equal. f_equal; lia.
Qed.

Lemma flattenTag_shift tag : ∀ off off',
  flattenTag (off + off') tag = emitted off' <$> flattenTag off tag.
Proof.
  induction tag as [tag IH] using InnerTag_nested_ind. intros off off'.
  rewrite !flattenTag_unfold. cbn [fmap list_fmap]. f_equal.
  - by rewrite emitted_emitted.
  - replace (startIndex (position tag) + (off + off'))
      with ((startIndex (position tag) + off) + off') by lia.
    generalize (startIndex (position tag) + off). intros base.
    induction IH as [|kid kids Hkid _ IHkids]; [done|].
    unfold flattenTags in *. cbn [flat_map]. rewrite fmap_app.
    f_equal; [apply Hkid|apply IHkids].
Qed.

Lemma flattenTags_shift tags off off' :
  flattenTags tags (off + off') = emitted off' <$> flattenTags tags off.
Proof.
  unfold flattenTags. induction tags as [|tag tags IH]; [done|].
  cbn [flat_map]. rewrite fmap_app. f_equal; [apply flattenTag_shift|apply IH].
Qed.

Lemma emitted_flat tag :
  children tag = None → emitted 0 tag = tag.
Proof.
  destruct tag as [name [a b] meta kids]. cbn. intros ->.
  unfold emitted; cbn. by rewrite !Z.add_0_r.
Qed.

Lemma flattenTags_flat tags :
  Forall (λ e, children e = None) tags → flattenTags tags 0 = tags.
Proof.
  induction 1 as [|tag tags Htag _ IH]; [done|].
  rewrite flattenTags_cons. unfold subTags. rewrite Htag. cbn [default].
  unfold flattenTags at 1. cbn [flat_map app]. rewrite IH.
  by rewrite emitted_flat.
Qed.

(** X8. The offset argument of the flattener translates its whole output:
    flattening under [off + off'] gives what flattening under [off] gives
    with every interval moved by [off'], so that a non-zero offset is the
    output for offset [0] moved by it. A list the flattener has produced is
    left as it is by flattening it again: the flattener is idempotent. *)
Theorem flattenTags_offset_translates (tags : list InnerTag) (off off' : Z) :
  flattenTags tags (off + off') = emitted off' <$> flattenTags tags off ∧
  flattenTags tags off = emitted off <$> flattenTags tags 0 ∧
  flattenTags (flattenTags tags off) 0 = flattenTags tags off.
Proof.
  split_and!.
  - apply flattenTags_shift.
  - by rewrite <- (flattenTags_shift tags 0 off).
  - apply flattenTags_flat, flattenTags_children_cleared.
Qed.

Lemma wellNested_unfold tag :
  wellNested tag ↔
  Forall (λ kid, 0 ≤ startIndex (position kid) ∧
                 endIndex (position kid)
                 ≤ endIndex (position tag) - startIndex (position tag) ∧
                 wellNested kid) (subTags tag).
Proof.
  destruct tag as [name pos meta kids]. unfold subTags. cbn.
  destruct kids as [kids|]; cbn; [|by split; [constructor|]].
  induction kids as [|kid kids IH]; [by split; [constructor|]|].
  rewrite Forall_cons. by rewrite IH.
Qed.

Lemma flattenTag_within tag : ∀ off,
  wellNested tag →
  Forall (λ e, within (position e) (position (emitted off tag)))
         (flattenTag off tag).
Proof.
  induction tag as [tag IH] using InnerTag_nested_ind. intros off Hwn.
  rewrite flattenTag_unfold. constructor.
  - unfold within. lia.
  - apply wellNested_unfold in Hwn.
    generalize dependent (subTags tag). intros kids IH Hwn.
    induction kids as [|kid kids IHkids]; [constructor|].
    apply Forall_cons in IH as [IHkid IHrest].
    apply Forall_cons in Hwn as [(Hs & He & Hkid) Hrest].
    unfold flattenTags. cbn [flat_map]. apply Forall_app. split.
    + eapply Forall_impl; [apply (IHkid _ Hkid)|].
      intros e. unfold within, emitted; cbn. lia.
    + by apply IHkids.
Qed.

(** X9. When the children of a top-level tag, and theirs, lie within the
    text their parent covers, everything the flattener emits for the tree of
    that tag lies within the absolute interval of the tag: a nested tag never
    formats a character outside its top-level ancestor. *)
Theorem flattenTags_nested_stay_inside (tags : list InnerTag) (off : Z)
    (i : nat) (tag : InnerTag) (k : nat) (e : InnerTag) :
  tags !! i = Some tag →
  wellNested tag →
  (k < tagSize tag)%nat →
  flattenTags tags off !! (forestSize (take i tags) + k)%nat = Some e →
  within (position e) (position (emitted off tag)).
Proof.
  intros Hi Hwn Hk He.
  rewrite (flattenTags_lookup_tree off tags i tag k Hi Hk) in He.
  pose proof (flattenTag_within tag off Hwn) as Hall.
  rewrite Forall_lookup in Hall. by apply (Hall k).
Qed.

(** The fixture of the test suite: the underline tag, two levels down,
    stays inside the bold tag. *)
Lemma flattenTags_nested_stay_inside_witness :
  within (mkPosition 17 23) (mkPosition 10 50).
Proof.
  apply (flattenTags_nested_stay_inside nestedFixture 0 0
           (mkInnerTag BOLD (mkPosition 10 50) ∅
              (Some [mkInnerTag ITALIC (mkPosition 5 25) ∅
                       (Some [mkInnerTag UNDERLINE (mkPosition 2 8) ∅ None]);
                     mkInnerTag A (mkPosition 30 35) ∅ None]))
           2 (mkInnerTag UNDERLINE (mkPosition 17 23) ∅ None)).
  - reflexivity.
  - cbn. lia.
  - cbn. lia.
  - reflexivity.
Defined.

End TagFlattenerOffsets.

(** ** Compositor: what the rendered content shows *)

Section RenderedText.
Import LumiSpanUtils LumiSpanViz.
Variable tagString : InnerTagName → string.
Variable HIGHLIGHT_METADATA_ANSWER_KEY : string.

Local Abbreviation renderFormatted :=
  (renderFormattedCharacter tagString HIGHLIGHT_METADATA_ANSWER_KEY).
Local Abbreviation renderChar :=
  (renderCharacter tagString HIGHLIGHT_METADATA_ANSWER_KEY).
Local Abbreviation callback :=
  (callbackResults tagString HIGHLIGHT_METADATA_ANSWER_KEY).
Local Abbreviation render :=
  (calculateRenderedContent tagString HIGHLIGHT_METADATA_ANSWER_KEY).
Local Abbreviation unitOf :=
  (characterUnit tagString HIGHLIGHT_METADATA_ANSWER_KEY).
Local Abbreviation own := (ownUnit tagString HIGHLIGHT_METADATA_ANSWER_KEY).
Local Abbreviation classes :=
  (classesObjectOf tagString HIGHLIGHT_METADATA_ANSWER_KEY).
Local Abbreviation hiddenAt := (hidden tagString HIGHLIGHT_METADATA_ANSWER_KEY).
Local Abbreviation visible :=
  (visibleFrom tagString HIGHLIGHT_METADATA_ANSWER_KEY).

Lemma countersOf_length props s :
  length (countersOf props s) = String.length (text s).
Proof. apply formattingCountersOf_length. Qed.

(** A character has no unit exactly when it is rendered as a formatted
    character whose class object has the class of the link tag while its
    counter has no entry for the link tag. *)
Lemma ownUnit_None props s (j : nat) ch :
  list_ascii_of_string (text s) !! j = Some ch →
  own props s j ch = None
  ↔ ∃ counter,
      plainPath props s = false ∧
      countersOf props s !! j = Some counter ∧
      isMathAt (countersOf props s) j = false ∧
      hasHidingClass tagString HIGHLIGHT_METADATA_ANSWER_KEY (font props)
                     (countersOf props s) j = false ∧
      tagString A ∈ classesAt tagString HIGHLIGHT_METADATA_ANSWER_KEY
                              (font props) (countersOf props s) j ∧
      counter !! TagKey A = None.
Proof.
  intros Hch.
  destruct (lookup_lt_is_Some_2 (countersOf props s) j) as [counter Hc].
  { rewrite countersOf_length. apply lookup_lt_Some in Hch.
    by rewrite length_list_ascii_of_string in Hch. }
  unfold ownUnit, characterUnit, hasHidingClass, classesAt. cbv zeta.
  rewrite Hc. unfold renderFormattedCharacter. cbv zeta.
  rewrite lookup_with_character.
  destruct (plainPath props s); [split; [done|by intros (? & [=] & _)]|].
  destruct (isMathAt (countersOf props s) j).
  { split; [by destruct (continues _ _ _)|by intros (? & _ & _ & [=] & _)]. }
  destruct (_ || _ || _).
  { split; [done|by intros (? & _ & _ & _ & [=] & _)]. }
  case_bool_decide as Hlink.
  - destruct (counter !! TagKey A) as [md|] eqn:Hmd.
    + split; [done|]. intros (c & _ & [= <-] & _ & _ & _ & Hnone). congruence.
    + split; [|done]. intros _. by exists counter.
  - split; [done|]. by intros (? & _ & _ & _ & _ & Hin & _).
Qed.

(** X10. Rendering fails in one case only. The table of counters has an
    entry for every character the callback visits, so that the read of
    [formattingCounters[index]] is never a read of [undefined]; what fails is
    the read of [metadata["href"]] at a character that is rendered as a
    formatted character (the span is not on the plain path and the character
    carries no math tag), is not hidden, and whose class object has the class
    of the link tag, from the font or from the colour of a highlight, while
    its counter has no entry for the link tag. The content is the empty
    template exactly when there is no span. *)
Theorem calculateRenderedContent_fails_on_link_class (props : Props) :
  (calculateRenderedContent tagString HIGHLIGHT_METADATA_ANSWER_KEY props
   = Some EmptyContent ↔ span props = None) ∧
  (calculateRenderedContent tagString HIGHLIGHT_METADATA_ANSWER_KEY props = None
   ↔ ∃ s (j : nat) counter,
       span props = Some s ∧
       plainPath props s = false ∧
       (j < String.length (text s))%nat ∧
       countersOf props s !! j = Some counter ∧
       isMathAt (countersOf props s) j = false ∧
       hasHidingClass tagString HIGHLIGHT_METADATA_ANSWER_KEY (font props)
                      (countersOf props s) j = false ∧
       tagString A ∈ classesAt tagString HIGHLIGHT_METADATA_ANSWER_KEY
                               (font props) (countersOf props s) j ∧
       counter !! TagKey A = None).
Proof.
  destruct (span props) as [s|] eqn:Hs; last first.
  { unfold calculateRenderedContent. rewrite Hs. split; [done|].
    split; [done|]. by intros (? & ? & ? & [=] & _). }
  pose proof (rendered_units tagString HIGHLIGHT_METADATA_ANSWER_KEY props s Hs)
    as Hunits.
  split.
  { split; [|done]. intros Hout. rewrite Hout in Hunits.
    by destruct Hunits as (? & _ & [=]). }
  split.
  - intros Hout. rewrite Hout in Hunits. destruct Hunits as (j & ch & Hch & Hnone).
    apply (ownUnit_None props s j ch Hch) in Hnone
      as (counter & Hplain & Hc & Hmath & Hhide & Hlink & Hmd).
    exists s, j, counter. split_and!; try done.
    apply lookup_lt_Some in Hch. by rewrite length_list_ascii_of_string in Hch.
  - intros (s' & j & counter & [= <-] & Hplain & Hj & Hc & Hmath & Hhide & Hlink
            & Hmd).
    destruct (lookup_lt_is_Some_2 (list_ascii_of_string (text s)) j)
      as [ch Hch]; [by rewrite length_list_ascii_of_string|].
    assert (Hnone : own props s j ch = None).
    { apply (ownUnit_None props s j ch Hch). by exists counter. }
    destruct (render props) as [content|]; [|done].
    destruct Hunits as (units & Hunits & _).
    apply units_of_characters in Hunits as [_ Hat].
    destruct (Hat j ch Hch) as (u & _ & Hown). congruence.
Qed.

Lemma list_ascii_of_string_app (s1 s2 : string) :
  list_ascii_of_string (s1 +:+ s2)
  = list_ascii_of_string s1 ++ list_ascii_of_string s2.
Proof.
  induction s1 as [|c s1 IH]; [done|].
  change (String c s1 +:+ s2)%string with (String c (s1 +:+ s2)).
  cbn [list_ascii_of_string app]. by rewrite IH.
Qed.

Lemma textChars_markers (l : list TemplateResult) :
  Forall (λ t, isMarker t = true) l → flat_map textChars l = [].
Proof.
  induction 1 as [|t l Ht _ IH]; [done|].
  cbn [flat_map]. rewrite IH. by destruct t.
Qed.

Lemma textChars_interleaved (units : list (list TemplateResult)) :
  ∀ f : nat → list TemplateResult,
    (∀ i, Forall (λ t, isMarker t = true) (f i)) →
    flat_map textChars (concat (imap (λ i unit, f i ++ unit) units))
    = flat_map textChars (concat units).
Proof.
  induction units as [|u units IH]; intros f Hf; [done|].
  rewrite imap_cons. cbn [concat]. rewrite !flat_map_app.
  rewrite (textChars_markers _ (Hf 0%nat)). cbn [app]. f_equal.
  apply (IH (f ∘ S)). intros i. apply Hf.
Qed.

Lemma flat_map_app_perm {X Y : Type} (g h : X → list Y) (l : list X) :
  flat_map (λ x, g x ++ h x) l ≡ₚ flat_map g l ++ flat_map h l.
Proof.
  induction l as [|x l IH]; [done|].
  cbn [flat_map]. rewrite IH. rewrite <- !app_assoc. f_equiv.
  rewrite !app_assoc. f_equiv. apply Permutation_app_comm.
Qed.

Lemma flat_map_anchored {Y : Type} (tag : InnerTag) (l : list Y) (n : nat) :
  flat_map (λ i, if anchoredAt (Z.of_nat i) tag then l else []) (seq 0 n)
  = if bool_decide (0 ≤ startIndex (position tag) < Z.of_nat n) then l else [].
Proof.
  induction n as [|n IH].
  - cbn. by rewrite bool_decide_eq_false_2 by lia.
  - rewrite seq_S, flat_map_app, IH. cbn [flat_map Nat.add]. rewrite app_nil_r.
    unfold anchoredAt. repeat case_bool_decide; try lia; by rewrite ?app_nil_r.
Qed.

Lemma markers_of_anchors {Y : Type} (f : InnerTag → option Y) (n : nat) :
  ∀ tags,
    flat_map (λ i, omap f (List.filter (anchoredAt (Z.of_nat i)) tags)) (seq 0 n)
    ≡ₚ omap f (List.filter
                 (λ tag, bool_decide (0 ≤ startIndex (position tag) < Z.of_nat n))
                 tags).
Proof.
  induction tags as [|tag tags IH].
  - cbn. induction (seq 0 n) as [|i l IHl]; [done|]. by cbn.
  - rewrite (flat_map_ext _
               (λ i, (if anchoredAt (Z.of_nat i) tag then omap f [tag] else [])
                     ++ omap f (List.filter (anchoredAt (Z.of_nat i)) tags)));
      last first.
    { intros i. cbn [List.filter]. destruct (anchoredAt (Z.of_nat i) tag); [|done].
      apply (omap_app f [tag]). }
    rewrite flat_map_app_perm, flat_map_anchored, IH.
    cbn [List.filter]. case_bool_decide; [|done].
    by rewrite <- (omap_app f [tag]).
Qed.

Lemma applyHighlights_empty spanText j hs :
  applyHighlights spanText j hs ∅
  = match last (highlightsCovering spanText j hs) with
    | Some h => {[GENERAL_HIGHLIGHT_KEY := highlightMark h]}
    | None => ∅
    end.
Proof.
  apply map_eq. intros key.
  destruct (decide (key = GENERAL_HIGHLIGHT_KEY)) as [->|Hne].
  - rewrite applyHighlights_lookup_general.
    destruct (last _); [by rewrite lookup_singleton_eq|done].
  - rewrite applyHighlights_lookup_other by done. rewrite lookup_empty.
    destruct (last _); [by rewrite lookup_singleton_ne|by rewrite lookup_empty].
Qed.

Lemma concat_imap_singletons {X Y : Type} (f : nat → X → Y) (l : list X) :
  concat (imap (λ k x, [f k x]) l) = imap f l.
Proof.
  revert f. induction l as [|x l IH]; intros f; [done|].
  rewrite !imap_cons. cbn [concat app]. f_equal. apply (IH (f ∘ S)).
Qed.

Lemma pendingEquation_end cs spanText :
  pendingEquation cs spanText (String.length spanText) = EmptyString.
Proof.
  destruct (String.length spanText) as [|m] eqn:Hn.
  - unfold pendingEquation. apply substring_nil.
  - apply pendingEquation_flushed. unfold continues. rewrite Hn.
    rewrite (bool_decide_eq_false_2 (S m < S m)%nat) by lia.
    by rewrite andb_false_r.
Qed.

(** The characters the unit of a character shows, with the equation under
    way before and after it. *)
Lemma characterUnit_text font cs spanText i ch unit :
  list_ascii_of_string spanText !! i = Some ch →
  unitOf font cs spanText i ch = Some unit →
  list_ascii_of_string (pendingEquation cs spanText i)
  ++ (if hiddenAt font cs i then [] else [ch])
  = flat_map textChars unit
    ++ list_ascii_of_string (pendingEquation cs spanText (S i)).
Proof.
  intros Hch. unfold characterUnit, hidden, hasHidingClass, classesAt.
  cbv zeta. destruct (cs !! i) as [counter|] eqn:Hc; [|done].
  destruct (isMathAt cs i) eqn:Hmath; cbn [negb andb].
  - assert (Hnext : (pendingEquation cs spanText i +:+ String ch EmptyString)%string
                    = substring (runStart cs (String.length spanText) i)
                                (S i - runStart cs (String.length spanText) i)
                                spanText).
    { unfold pendingEquation. cbv zeta.
      apply substring_snoc; [apply runStart_le|done]. }
    destruct (continues cs (String.length spanText) i) eqn:Hcont; intros [= <-].
    + cbn [flat_map app].
      replace (pendingEquation cs spanText (S i))
        with (pendingEquation cs spanText i +:+ String ch EmptyString)%string.
      * by rewrite list_ascii_of_string_app.
      * rewrite Hnext. unfold pendingEquation. cbv zeta. cbn [runStart].
        by rewrite Hcont.
    + rewrite pendingEquation_flushed by done.
      cbn [flat_map textChars list_ascii_of_string]. rewrite !app_nil_r.
      by rewrite <- Hnext, list_ascii_of_string_app.
  - assert (Hcont : continues cs (String.length spanText) i = false)
      by (unfold continues; by rewrite Hmath).
    rewrite pendingEquation_nonmath, pendingEquation_flushed by done.
    unfold renderFormattedCharacter. cbv zeta.
    destruct (_ || _ || _); [by intros [= <-]|].
    case_bool_decide; [|by intros [= <-]].
    destruct (_ !! TagKey A); [|done]. by intros [= <-].
Qed.

Lemma units_text font cs spanText : ∀ l units i,
  (∀ k ch, l !! k = Some ch →
           list_ascii_of_string spanText !! (i + k)%nat = Some ch) →
  imap (λ k ch, unitOf font cs spanText (i + k) ch) l = Some <$> units →
  list_ascii_of_string (pendingEquation cs spanText i) ++ visible font cs i l
  = flat_map textChars (concat units)
    ++ list_ascii_of_string (pendingEquation cs spanText (i + length l)).
Proof.
  induction l as [|ch l IH]; intros units i Hl Hunits.
  - destruct units; [|done]. cbn. by rewrite Nat.add_0_r, app_nil_r.
  - destruct units as [|u units]; [done|].
    rewrite imap_cons in Hunits. cbn [fmap list_fmap] in Hunits.
    injection Hunits as Hu Hrest. rewrite Nat.add_0_r in Hu.
    cbn [visibleFrom concat length]. rewrite flat_map_app, app_assoc.
    pose proof (Hl 0%nat ch eq_refl) as Hch. rewrite Nat.add_0_r in Hch.
    rewrite (characterUnit_text _ _ _ _ _ _ Hch Hu).
    rewrite <- !app_assoc. f_equal.
    replace (i + S (length l))%nat with (S i + length l)%nat by lia.
    apply IH.
    + intros k c Hk. replace (S i + k)%nat with (i + S k)%nat by lia.
      by apply Hl.
    + rewrite <- Hrest. apply imap_ext. intros k c _. simpl. f_equal. lia.
Qed.

Lemma visibleFrom_all font cs : ∀ l i,
  (∀ k, (i ≤ k < i + length l)%nat → hiddenAt font cs k = false) →
  visible font cs i l = l.
Proof.
  induction l as [|ch l IH]; intros i Hvis; [done|].
  cbn [visibleFrom length] in *. rewrite Hvis by lia. cbn [app]. f_equal.
  apply IH. intros k Hk. apply Hvis. lia.
Qed.

(** X11. When rendering returns, the rendered content shows the text of the
    span: on the plain path the characters of its templates are the
    characters of the text; otherwise they are, equations included, the
    characters of the text that are not hidden, in order, a character being
    hidden when it carries no math tag and its class object has the class of
    a citation, of a cross-span reference or of a footnote, from a tag, from
    the font or from the colour of a highlight. No character is shown twice
    or out of place, and on the plain path or when no character is hidden the
    characters shown spell the text. *)
Theorem rendered_text_is_span_text (props : Props) (s : LumiSpan)
    (parts : list TemplateResult) :
  span props = Some s →
  calculateRenderedContent tagString HIGHLIGHT_METADATA_ANSWER_KEY props
  = Some (RendererElement parts) →
  let cs := countersOf props s in
  flat_map textChars parts
  = (if plainPath props s then list_ascii_of_string (text s)
     else visibleFrom tagString HIGHLIGHT_METADATA_ANSWER_KEY (font props) cs 0
                      (list_ascii_of_string (text s))) ∧
  (plainPath props s = true
   ∨ (∀ i, (i < String.length (text s))%nat →
           hidden tagString HIGHLIGHT_METADATA_ANSWER_KEY (font props) cs i
           = false) →
   string_of_list_ascii (flat_map textChars parts) = text s).
Proof.
  intros Hs Hout cs.
  pose proof (rendered_units tagString HIGHLIGHT_METADATA_ANSWER_KEY props s Hs)
    as Hunits.
  rewrite Hout in Hunits. destruct Hunits as (units & Hunits & [= ->]).
  clear Hout.
  assert (Hshown :
    flat_map textChars
      (concat (imap (λ i unit, insertionsAt props s i ++ unit) units)
       ++ insertionsAt props s (String.length (text s)))
    = (if plainPath props s then list_ascii_of_string (text s)
       else visible (font props) cs 0 (list_ascii_of_string (text s)))).
  { rewrite flat_map_app.
    rewrite (textChars_markers _ (insertionsAt_markers props s _)), app_nil_r.
    rewrite textChars_interleaved by (intros i; apply insertionsAt_markers).
    unfold ownUnit in Hunits. destruct (plainPath props s).
    - revert units Hunits.
      induction (list_ascii_of_string (text s)) as [|c l IH];
        intros [|u units] Hunits; try done.
      rewrite imap_cons in Hunits. cbn [fmap list_fmap] in Hunits.
      injection Hunits as <- Hrest. cbn [concat flat_map textChars app].
      f_equal. by apply IH.
    - pose proof (units_text (font props) cs (text s)
                    (list_ascii_of_string (text s)) units 0
                    (λ k ch H, H) Hunits) as Htext.
      cbn [Nat.add] in Htext. rewrite length_list_ascii_of_string in Htext.
      rewrite pendingEquation_end in Htext.
      replace (pendingEquation cs (text s) 0) with EmptyString in Htext
        by (symmetry; apply substring_nil).
      cbn [list_ascii_of_string app] in Htext. by rewrite app_nil_r in Htext. }
  split; [exact Hshown|].
  intros Hall. rewrite Hshown.
  destruct (plainPath props s); [apply string_of_list_ascii_of_string|].
  destruct Hall as [?|Hall]; [done|].
  rewrite visibleFrom_all; [apply string_of_list_ascii_of_string|].
  intros k Hk. apply Hall. rewrite length_list_ascii_of_string in Hk. lia.
Qed.

(** X12. When rendering returns, the markers of the rendered content are
    the markers of the top-level tags of the span that start at an offset of
    the text, the end-of-text offset included, each one once: a tag that
    starts before the text or after its end gives no marker, and neither does
    a nested tag. They come in the order of their offsets, and in the order
    of the tags at one offset. *)
Theorem rendered_markers_are_anchored_tags (props : Props) (s : LumiSpan)
    (parts : list TemplateResult) :
  span props = Some s →
  calculateRenderedContent tagString HIGHLIGHT_METADATA_ANSWER_KEY props
  = Some (RendererElement parts) →
  List.filter isMarker parts
  = flat_map (λ i, omap (insertionTemplate props)
                        (List.filter (anchoredAt (Z.of_nat i)) (innerTags s)))
             (seq 0 (S (String.length (text s)))) ∧
  List.filter isMarker parts
  ≡ₚ omap (insertionTemplate props)
          (List.filter (anchoredInside (String.length (text s))) (innerTags s)).
Proof.
  intros Hs Hout.
  pose proof (rendered_markers tagString HIGHLIGHT_METADATA_ANSWER_KEY
                props s parts Hs Hout) as Hm.
  assert (Heq : List.filter isMarker parts
    = flat_map (λ i, omap (insertionTemplate props)
                          (List.filter (anchoredAt (Z.of_nat i)) (innerTags s)))
               (seq 0 (S (String.length (text s))))).
  { rewrite Hm. apply flat_map_ext. intros i. unfold insertionsAt.
    apply createInsertionsMap_lookup. }
  split; [exact Heq|]. rewrite Heq, markers_of_anchors.
  rewrite (filter_ext _ (anchoredInside (String.length (text s)))); [done|].
  intros tag. unfold anchoredInside. apply bool_decide_ext. lia.
Qed.

(** The callback over a span that has highlights and no tag: every
    character is rendered as a formatted character, with the mark of the last
    highlight that covers it. *)
Lemma callbackResults_highlighted font spanText hs : ∀ l i eq,
  (i + length l ≤ String.length spanText)%nat →
  callback font ∅ (formattingCountersOf spanText [] hs) spanText eq i l
  = (λ templates, ((λ template, [template]) <$> templates, eq))
      <$> mapM (λ p, renderFormatted font p.2 (highlightCounter spanText hs p.1))
               (imap (λ k ch, ((i + k)%nat, ch)) l).
Proof.
  induction l as [|ch l IH]; intros i eq Hlen; [done|].
  cbn [length] in Hlen. cbn [callbackResults]. rewrite imap_cons.
  assert (Hc : formattingCountersOf spanText [] hs !! i
               = Some match last (highlightsCovering spanText i hs) with
                      | Some h => {[GENERAL_HIGHLIGHT_KEY := highlightMark h]}
                      | None => ∅
                      end).
  { rewrite formattingCountersOf_lookup by lia.
    cbn [applyTags foldl]. by rewrite applyHighlights_empty. }
  assert (Hmath : isMathAt (formattingCountersOf spanText [] hs) i = false).
  { unfold isMathAt.
    destruct (carries _ i MATH) eqn:H1; [by apply carries_needs_tags in H1|].
    destruct (carries _ i MATH_DISPLAY) eqn:H2;
      [by apply carries_needs_tags in H2|done]. }
  rewrite (renderCharacter_step _ _ _ _ _ _ _ _ _ Hc), Hmath.
  fold (highlightCounter spanText hs i).
  cbn [mapM]. rewrite Nat.add_0_r. cbn [fst snd].
  destruct (renderFormatted font ch (highlightCounter spanText hs i)) as [t|];
    [|done].
  rewrite IH by lia.
  rewrite (imap_ext (λ k c, ((S i + k)%nat, c)) (λ k c, ((i + S k)%nat, c)))
    by (intros k c _; simpl; f_equal; lia).
  cbn [mbind option_bind].
  by destruct (mapM _ _).
Qed.

(** X14. A span without tags. With no highlight every character is the
    plain template of the character, with the character class and the font.
    With a highlight every character is rendered as a formatted character
    from the mark of the last highlight that covers it, when one does, and
    the key of the character class, and rendering fails when one of them
    does; when no class object has the class of a citation, of a cross-span
    reference, of a footnote or of the link tag, every character is a
    formatted one, so that a character no highlight covers is still a
    formatted one. *)
Theorem tagless_span_rendering (props : Props) (s : LumiSpan) :
  span props = Some s →
  innerTags s = [] →
  let hs := default [] (highlights props) in
  let counter := highlightCounter (text s) hs in
  let chars := list_ascii_of_string (text s) in
  (hs = [] →
   calculateRenderedContent tagString HIGHLIGHT_METADATA_ANSWER_KEY props
   = Some (RendererElement
             (PlainCharacterTemplate (plainClasses (font props)) <$> chars))) ∧
  (hs ≠ [] →
   calculateRenderedContent tagString HIGHLIGHT_METADATA_ANSWER_KEY props
   = RendererElement
       <$> mapM (λ p, renderFormattedCharacter tagString
                        HIGHLIGHT_METADATA_ANSWER_KEY (font props) p.2
                        (counter p.1))
                (imap pair chars)) ∧
  (hs ≠ [] →
   (∀ (j : nat) name,
      (j < String.length (text s))%nat →
      name = REFERENCE ∨ name = SPAN_REFERENCE ∨ name = FOOTNOTE ∨ name = A →
      tagString name
      ∉ classesObjectOf tagString HIGHLIGHT_METADATA_ANSWER_KEY (font props)
                        (counter j)) →
   calculateRenderedContent tagString HIGHLIGHT_METADATA_ANSWER_KEY props
   = Some (RendererElement
             (imap (λ j ch,
                      CharacterTemplate
                        (classesObjectOf tagString HIGHLIGHT_METADATA_ANSWER_KEY
                                         (font props) (counter j))
                        (counter j) ch)
                   chars))).
Proof.
  intros Hs Htags hs counter chars.
  assert (Hplain : plainPath props s = bool_decide (hs = [])).
  { unfold plainPath, createInsertionsMap. rewrite Htags. fold hs.
    cbn [foldl flattenTags flat_map length].
    rewrite (bool_decide_eq_true_2 (0%nat = 0%nat)) by done.
    rewrite map_size_empty, (bool_decide_eq_true_2 (0%nat = 0%nat)) by done.
    rewrite !andb_true_r. destruct hs; cbn [length].
    - rewrite (bool_decide_eq_false_2 (0 < 0)%nat) by lia.
      by rewrite bool_decide_eq_true_2.
    - rewrite (bool_decide_eq_true_2 (0 < S _)%nat) by lia.
      by rewrite bool_decide_eq_false_2. }
  assert (Hformatted : hs ≠ [] →
    render props
    = RendererElement
        <$> mapM (λ p, renderFormatted (font props) p.2 (counter p.1))
                 (imap pair chars)).
  { intros Hne.
    rewrite (rendered_structure tagString HIGHLIGHT_METADATA_ANSWER_KEY
               props s Hs), Hplain.
    rewrite bool_decide_eq_false_2 by done.
    unfold countersOf. rewrite Htags. cbn [flattenTags flat_map]. fold hs.
    rewrite callbackResults_highlighted; last first.
    { rewrite length_list_ascii_of_string. simpl. lia. }
    cbn [Nat.add]. fold chars. fold counter.
    assert (Hnone : ∀ i, insertionsAt props s i = []).
    { intros i. unfold insertionsAt, createInsertionsMap. rewrite Htags.
      cbn [foldl]. by rewrite lookup_empty. }
    destruct (mapM _ (imap pair chars)) as [templates|]; [|done].
    cbn [fmap option_fmap option_map]. do 2 f_equal.
    rewrite Hnone, app_nil_r.
    rewrite (imap_ext _ (const id)); last first.
    { intros i u _. simpl. by rewrite Hnone. }
    rewrite imap_const, list_fmap_id.
    etrans; [apply (concat_singletons id)|apply list_fmap_id]. }
  split_and!.
  - intros Hnil.
    rewrite (rendered_structure tagString HIGHLIGHT_METADATA_ANSWER_KEY
               props s Hs), Hplain.
    by rewrite bool_decide_eq_true_2.
  - exact Hformatted.
  - intros Hne Hclasses. rewrite (Hformatted Hne).
    assert (Hall : ∀ l i,
      (i + length l ≤ String.length (text s))%nat →
      mapM (λ p, renderFormatted (font props) p.2 (counter p.1))
           (imap (λ k ch, ((i + k)%nat, ch)) l)
      = Some (imap (λ k ch, CharacterTemplate
                              (classes (font props) (counter (i + k)%nat))
                              (counter (i + k)%nat) ch) l)).
    { induction l as [|ch l IH]; intros i Hlen; [done|].
      cbn [length] in Hlen. rewrite !imap_cons. cbn [mapM]. rewrite Nat.add_0_r.
      cbn [fst snd].
      assert (Hstep : renderFormatted (font props) ch (counter i)
                      = Some (CharacterTemplate
                                (classes (font props) (counter i)) (counter i) ch)).
      { unfold renderFormattedCharacter. cbv zeta.
        rewrite !bool_decide_eq_false_2; [done|..];
          apply Hclasses; auto; lia. }
      rewrite Hstep. cbn [mbind option_bind].
      rewrite (imap_ext _ (λ k c, ((S i + k)%nat, c)) l)
        by (intros k c _; simpl; f_equal; lia).
      rewrite IH by lia. cbn [mbind option_bind mret option_ret]. do 2 f_equal.
      apply imap_ext. intros k c _. simpl. by rewrite Nat.add_succ_r. }
    specialize (Hall chars 0%nat). cbn [Nat.add] in Hall.
    change (imap pair chars) with (imap (λ (k : nat) (ch : ascii), (k, ch)) chars).
    rewrite Hall; [done|].
    unfold chars. rewrite length_list_ascii_of_string. lia.
Qed.

End RenderedText.

Section InsertionNumbers.
Import LumiSpanUtils LumiSpanViz.

(** X13. The number a marker shows is the position, counted from one, of
    the first entry of the list that has the id: a citation marker lists, for
    the ids of the tag, the references found, each with its position in the
    list of references; a footnote marker carries the position of the
    footnote; a cross-span marker the position of the referenced span. No
    other template is ever inserted. *)
Theorem insertion_numbers_are_positions (props : Props) (tag : InnerTag)
    (template : TemplateResult) :
  insertionTemplate props tag = Some template →
  let tagId := default "" (metadata tag !! "id") in
  match template with
  | CitationTemplate citations =>
      tagName tag = REFERENCE ∧ citations ≠ [] ∧
      ∀ number reference, (number, reference) ∈ citations →
        ∃ k, number = S k ∧
             default [] (references props) !! k = Some reference ∧
             ref_id reference ∈ Js.trim <$> Js.split "," tagId ∧
             ∀ k' earlier, (k' < k)%nat →
               default [] (references props) !! k' = Some earlier →
               ref_id earlier ≠ ref_id reference
  | FootnoteTemplate number footnote =>
      tagName tag = FOOTNOTE ∧
      ∃ k, number = S k ∧
           default [] (footnotes props) !! k = Some footnote ∧
           note_id footnote = tagId ∧
           ∀ k' earlier, (k' < k)%nat →
             default [] (footnotes props) !! k' = Some earlier →
             note_id earlier ≠ tagId
  | SpanCitationTemplate citations =>
      tagName tag = SPAN_REFERENCE ∧
      ∃ k referenced,
        citations = [(S k, tagId)] ∧
        default [] (referencedSpans props) !! k = Some referenced ∧
        span_id referenced = tagId ∧
        ∀ k' earlier, (k' < k)%nat →
          default [] (referencedSpans props) !! k' = Some earlier →
          span_id earlier ≠ tagId
  | _ => False
  end.
Proof.
  intros Htemplate tagId. unfold insertionTemplate in Htemplate.
  destruct (bool_decide (tagName tag = REFERENCE)
            && bool_decide (is_Some (truthyId tag))
            && bool_decide (is_Some (references props))) eqn:Href.
  { apply andb_prop in Href as [Href _]. apply andb_prop in Href as [Hname Hid].
    apply bool_decide_eq_true_1 in Hname, Hid. destruct Hid as [tid Hid].
    rewrite Hid in Htemplate. cbn [default from_option Datatypes.id] in Htemplate.
    apply truthyId_Some in Hid. fold tagId in Hid. subst tid.
    case_bool_decide as Hlen; [|done]. injection Htemplate as <-.
    split_and!; [done| |].
    { intros Heq. rewrite Heq in Hlen. simpl in Hlen. lia. }
    intros number reference Hel.
    apply list_elem_of_omap in Hel as (refId & HrefId & Hfind).
    unfold findIndex in Hfind.
    destruct (list_find _ _) as [[k r]|] eqn:Hlf; [|done].
    injection Hfind as <- <-.
    apply list_find_Some in Hlf as (Hk & Hr & Hfirst).
    exists k. split_and!; [lia|done|by rewrite Hr|].
    intros k' earlier Hlt Hearlier. rewrite Hr. by eapply Hfirst. }
  clear Href.
  destruct (bool_decide (tagName tag = FOOTNOTE)
            && bool_decide (is_Some (truthyId tag))
            && bool_decide (is_Some (footnotes props))) eqn:Hnote.
  { apply andb_prop in Hnote as [Hnote _].
    apply andb_prop in Hnote as [Hname Hid].
    apply bool_decide_eq_true_1 in Hname, Hid. destruct Hid as [tid Hid].
    rewrite Hid in Htemplate. cbn [default from_option Datatypes.id] in Htemplate.
    apply truthyId_Some in Hid. fold tagId in Hid. subst tid.
    unfold findIndex in Htemplate.
    destruct (list_find _ _) as [[k note]|] eqn:Hlf; [|done].
    injection Htemplate as <-.
    apply list_find_Some in Hlf as (Hk & Hr & Hfirst).
    split; [done|]. exists k. split_and!; [lia|done|done|].
    intros k' earlier Hlt Hearlier. by eapply Hfirst. }
  clear Hnote.
  destruct (bool_decide (tagName tag = SPAN_REFERENCE)
            && bool_decide (is_Some (truthyId tag))
            && bool_decide (is_Some (referencedSpans props))) eqn:Hspan; [|done].
  apply andb_prop in Hspan as [Hspan _].
  apply andb_prop in Hspan as [Hname Hid].
  apply bool_decide_eq_true_1 in Hname, Hid. destruct Hid as [tid Hid].
  rewrite Hid in Htemplate. cbn [default from_option Datatypes.id] in Htemplate.
  apply truthyId_Some in Hid. fold tagId in Hid. subst tid.
  unfold findIndex in Htemplate.
  destruct (list_find _ _) as [[k found]|] eqn:Hlf; [|done].
  cbn [length] in Htemplate.
  rewrite bool_decide_eq_true_2 in Htemplate by lia.
  injection Htemplate as <-.
  apply list_find_Some in Hlf as (Hk & Hr & Hfirst).
  apply list_lookup_fmap_Some in Hk as (referenced & Hk & Hfound).
  split; [done|]. exists k, referenced.
  split_and!; [by rewrite Nat.add_1_r|done|congruence|].
  intros k' earlier Hlt Hearlier.
  apply (Hfirst k' (span_id earlier)); [|done].
  by rewrite list_lookup_fmap, Hearlier.
Qed.

(** The citation of the fixtures: ["ref1, ref2"] against the list
    [ref1; ref2] gives the numbers 1 and 2. *)
Lemma insertion_numbers_are_positions_witness :
  ∃ k, 2%nat = S k ∧
       citationReferences !! k
       = Some (mkLumiReference "ref2" (mkLumiSpan "ref-s2" "" [])).
Proof.
  pose proof (insertion_numbers_are_positions citationProps
    (mkInnerTag REFERENCE (mkPosition 8 8) {["id" := "ref1, ref2"]} None)
    (CitationTemplate
       [(1%nat, mkLumiReference "ref1" (mkLumiSpan "ref-s1" "" []));
        (2%nat, mkLumiReference "ref2" (mkLumiSpan "ref-s2" "" []))])
    eq_refl) as (_ & _ & Hall).
  destruct (Hall 2%nat (mkLumiReference "ref2" (mkLumiSpan "ref-s2" "" [])))
    as (k & Hk & Hlook & _).
  - apply list_elem_of_In. simpl. auto.
  - exists k. split; [exact Hk|exact Hlook].
Defined.

End InsertionNumbers.

Section RenderedTextFixtures.
Import LumiSpanUtils LumiSpanViz.

(** A highlight whose colour is the class of the link tag: rendering the
    one character it covers fails. *)
Lemma calculateRenderedContent_fails_on_link_class_witness :
  calculateRenderedContent exampleTagString exampleAnswerKey colourLinkProps
  = None.
Proof.
  apply (proj2 (calculateRenderedContent_fails_on_link_class
                  exampleTagString exampleAnswerKey colourLinkProps)).
  exists colourLinkSpan, 0%nat,
    ({[GENERAL_HIGHLIGHT_KEY := {[COLOR_HIGHLIGHT_KEY := "a"]}]}
       : FormattingCounter).
  split_and!; try reflexivity;
    first [simpl; lia | apply (bool_decide_unpack _); vm_compute; reflexivity].
Defined.

(** The equation fixture shows its whole text. *)
Lemma rendered_text_is_span_text_witness :
  ∃ parts,
    calculateRenderedContent exampleTagString exampleAnswerKey equationProps
    = Some (RendererElement parts) ∧
    string_of_list_ascii (flat_map textChars parts) = "An equation: E=mc^2".
Proof.
  destruct (calculateRenderedContent exampleTagString exampleAnswerKey
              equationProps) as [[|parts]|] eqn:Hout;
    [vm_compute in Hout; discriminate Hout| |vm_compute in Hout; discriminate Hout].
  destruct (rendered_text_is_span_text exampleTagString exampleAnswerKey
              equationProps equationSpan parts eq_refl Hout) as [_ Htext].
  exists parts. split; [done|]. apply Htext. right.
  intros i Hi.
  do 19 (destruct i as [|i]; [vm_compute; reflexivity|]). simpl in Hi. lia.
Defined.

Lemma rendered_markers_are_anchored_tags_witness :
  ∃ parts,
    calculateRenderedContent exampleTagString exampleAnswerKey citationProps
    = Some (RendererElement parts) ∧
    List.filter isMarker parts
    ≡ₚ [CitationTemplate
          [(1%nat, mkLumiReference "ref1" (mkLumiSpan "ref-s1" "" []));
           (2%nat, mkLumiReference "ref2" (mkLumiSpan "ref-s2" "" []))]].
Proof.
  destruct (calculateRenderedContent exampleTagString exampleAnswerKey
              citationProps) as [[|parts]|] eqn:Hout;
    [vm_compute in Hout; discriminate Hout| |vm_compute in Hout; discriminate Hout].
  destruct (rendered_markers_are_anchored_tags exampleTagString exampleAnswerKey
              citationProps citationSpan parts eq_refl Hout) as [_ Hperm].
  exists parts. split; [done|]. exact Hperm.
Defined.

(** Two characters, the first one under a yellow highlight. *)
Lemma tagless_span_rendering_witness :
  calculateRenderedContent exampleTagString exampleAnswerKey highlightedProps
  = Some (RendererElement
            [CharacterTemplate
               {["general_highlight_key"; "character"; "yellow"]}
               ({[GENERAL_HIGHLIGHT_KEY := {[COLOR_HIGHLIGHT_KEY := "yellow"]}]}
                ∪ {[CHARACTER_KEY := ∅]}) "a";
             CharacterTemplate {["character"]} (∅ ∪ {[CHARACTER_KEY := ∅]}) "b"]).
Proof.
  destruct (tagless_span_rendering exampleTagString exampleAnswerKey
              highlightedProps highlightedSpan eq_refl eq_refl)
    as (_ & _ & Hformatted).
  rewrite Hformatted.
  - vm_compute. reflexivity.
  - done.
  - intros j name Hj Hname Hin. apply (bool_decide_eq_true_2 _) in Hin.
    simpl in Hj.
    destruct j as [|[|j]]; [| |lia];
      destruct Hname as [-> | [-> | [-> | ->]]]; vm_compute in Hin;
      discriminate Hin.
Defined.

End RenderedTextFixtures.

(** ** Selection resolver: ancestors, shape of the result, runs of units *)

Section SelectionShape.
Import Dom SelectionUtils.
Variables CITATION_CLASSNAME FOOTNOTE_CLASSNAME : string.

Lemma findParent_sound roots cond : ∀ p q,
  findParent roots p cond = Some q →
  ∃ k el,
    q = drop k p ∧ nodeAt roots q = Some el ∧
    isElement el = true ∧ cond el = true ∧
    ∀ j el', (j < k)%nat → nodeAt roots (drop j p) = Some el' →
             isElement el' && cond el' = false.
Proof.
  induction p as [|i parent IH]; intros q Hfind; [done|].
  cbn [findParent] in Hfind.
  destruct (nodeAt roots (i :: parent)) as [current|] eqn:Hcur; [|done].
  destruct (isElement current && cond current) eqn:Hmatch.
  - injection Hfind as <-. apply andb_prop in Hmatch as [He Hc].
    exists 0%nat, current. split_and!; try done. intros j el' Hj. lia.
  - destruct parent as [|i' parent']; [done|]. cbn [parentElement] in Hfind.
    destruct (IH q Hfind) as (k & el & -> & Hel & He & Hc & Hfirst).
    exists (S k), el. split_and!; try done.
    intros [|j] el' Hj Hj'.
    + cbn [drop] in Hj'. rewrite Hcur in Hj'. by injection Hj' as <-.
    + cbn [drop] in Hj'. apply (Hfirst j el'); [lia|done].
Qed.

Lemma findParent_complete roots cond : ∀ p,
  findParent roots p cond = None → is_Some (nodeAt roots p) →
  ∀ j el', nodeAt roots (drop j p) = Some el' →
           isElement el' && cond el' = false.
Proof.
  induction p as [|i parent IH]; intros Hfind [current Hcur]; [done|].
  cbn [findParent] in Hfind. rewrite Hcur in Hfind.
  destruct (isElement current && cond current) eqn:Hmatch; [done|].
  intros [|j] el' Hj.
  - cbn [drop] in Hj. rewrite Hcur in Hj. by injection Hj as <-.
  - cbn [drop] in Hj. destruct parent as [|i' parent'].
    + by rewrite drop_nil in Hj.
    + cbn [parentElement] in Hfind. apply (IH Hfind) with (j := j); [|done].
      change (nodeAt roots (i :: i' :: parent'))
        with (match nodeAt roots (i' :: parent') with
              | Some n => childNodesOfNode n !! i
              | None => None
              end) in Hcur.
      destruct (nodeAt roots (i' :: parent')) as [n|]; [by eexists|done].
Qed.

(** X15. [findParent] returns the nearest ancestor, the start node
    included, that is an element and meets the condition: the result is the
    start node with some of its innermost steps dropped, and none of the
    nodes passed on the way is an element that meets the condition. When it
    returns nothing for a node of the tree, no ancestor is such an
    element. *)
Theorem findParent_nearest_match (roots : list Node) (p : Path)
    (cond : Node → bool) :
  (∀ q, findParent roots p cond = Some q →
        ∃ k el,
          q = drop k p ∧ nodeAt roots q = Some el ∧
          isElement el = true ∧ cond el = true ∧
          ∀ j el', (j < k)%nat → nodeAt roots (drop j p) = Some el' →
                   isElement el' && cond el' = false) ∧
  (findParent roots p cond = None → is_Some (nodeAt roots p) →
   ∀ j el', nodeAt roots (drop j p) = Some el' →
            isElement el' && cond el' = false).
Proof.
  split; [apply findParent_sound|apply findParent_complete].
Qed.

Lemma getSelectionInfo_Some roots selection info :
  getSelectionInfo CITATION_CLASSNAME FOOTNOTE_CLASSNAME roots selection
  = Some info →
  ∃ range first last,
    getRangeAt0 selection = Some range ∧
    findParent roots (startContainer range) isLumiSpan = Some first ∧
    findParent roots (endContainer range) isLumiSpan = Some last ∧
    idAt roots first ≠ "" ∧ idAt roots last ≠ "" ∧
    selectedText info = Js.trim (toString selection) ∧
    selectedText info ≠ "" ∧
    findParent roots (startContainer range)
               (λ el, bool_decide (tagNameOf el = "span"))
    = Some (parentSpan info) ∧
    highlightSelection info
    = flat_map (selectionOfLumiSpan CITATION_CLASSNAME FOOTNOTE_CLASSNAME
                                    roots range first last)
               (first :: (if bool_decide (first ≠ last)
                          then collectLumiSpans roots last
                                 (nextElementSiblings roots first)
                          else [])).
Proof.
  unfold getSelectionInfo. case_bool_decide as Hlen; [done|].
  destruct (getRangeAt0 selection) as [range|]; [|done].
  destruct (findParent roots (startContainer range) isLumiSpan)
    as [first|] eqn:Hf; [|done].
  destruct (findParent roots (endContainer range) isLumiSpan)
    as [last|] eqn:Hl; [|done].
  destruct (bool_decide _ || bool_decide _) eqn:Hids; [done|].
  apply orb_false_elim in Hids as [H1 H2].
  apply bool_decide_eq_false_1 in H1, H2.
  destruct (findParent roots (startContainer range)
                       (λ el, bool_decide (tagNameOf el = "span")))
    as [sp|] eqn:Hsp; [|done].
  intros [= <-]. exists range, first, last.
  cbn [selectedText parentSpan highlightSelection]. split_and!; try done.
  intros Htrim. by rewrite Htrim in Hlen.
Qed.

Lemma selectionOfLumiSpan_first roots range first last :
  idAt roots first ≠ "" →
  selectionOfLumiSpan CITATION_CLASSNAME FOOTNOTE_CLASSNAME roots range
                      first last first
  = [mkHighlightSelection
       (idAt roots first)
       (Some (mkPosition
                (getOffsetInLumiSpan CITATION_CLASSNAME FOOTNOTE_CLASSNAME roots
                                     (startContainer range))
                ((if bool_decide (first = last)
                  then getOffsetInLumiSpan CITATION_CLASSNAME FOOTNOTE_CLASSNAME
                                           roots (endContainer range)
                  else Z.of_nat (String.length (textContent roots first))) + 1)))].
Proof.
  intros Hid. unfold selectionOfLumiSpan. fold (idAt roots first).
  rewrite (bool_decide_eq_false_2 _ Hid).
  by rewrite (bool_decide_eq_true_2 (first = first)).
Qed.

Lemma selectionOfLumiSpan_last roots range first last :
  idAt roots last ≠ "" → first ≠ last →
  selectionOfLumiSpan CITATION_CLASSNAME FOOTNOTE_CLASSNAME roots range
                      first last last
  = [mkHighlightSelection
       (idAt roots last)
       (Some (mkPosition 0
                (getOffsetInLumiSpan CITATION_CLASSNAME FOOTNOTE_CLASSNAME roots
                                     (endContainer range) + 1)))].
Proof.
  intros Hid Hne. unfold selectionOfLumiSpan. fold (idAt roots last).
  rewrite (bool_decide_eq_false_2 _ Hid).
  rewrite (bool_decide_eq_false_2 (last = first)) by done.
  by rewrite (bool_decide_eq_true_2 (last = last)).
Qed.

Lemma selectionOfLumiSpan_middle roots range first last unit :
  unit ≠ first → unit ≠ last →
  selectionOfLumiSpan CITATION_CLASSNAME FOOTNOTE_CLASSNAME roots range
                      first last unit
  = wholeUnit roots unit.
Proof.
  intros Hf Hl. unfold selectionOfLumiSpan, wholeUnit. fold (idAt roots unit).
  by rewrite (bool_decide_eq_false_2 (unit = first)),
             (bool_decide_eq_false_2 (unit = last)).
Qed.

Lemma flat_map_middle roots range first last (units : list Path) :
  Forall (λ unit, unit ≠ first ∧ unit ≠ last) units →
  flat_map (selectionOfLumiSpan CITATION_CLASSNAME FOOTNOTE_CLASSNAME roots range
                                first last) units
  = flat_map (wholeUnit roots) units.
Proof.
  induction 1 as [|unit units [Hf Hl] _ IH]; [done|].
  cbn [flat_map]. by rewrite IH, selectionOfLumiSpan_middle.
Qed.

(** X16. What a resolved selection looks like: the text is the trimmed
    text of the selection and is not empty; every entry has a non-empty span
    id and a position; the first entry is that of the unit of the start
    boundary and starts at the offset of the start boundary; when both
    boundaries are in one unit it is the only entry and ends one past the
    offset of the end boundary. *)
Theorem getSelectionInfo_success_shape (roots : list Node)
    (selection : Selection) (info : SelectionInfo) :
  getSelectionInfo CITATION_CLASSNAME FOOTNOTE_CLASSNAME roots selection
  = Some info →
  selectedText info = Js.trim (toString selection) ∧
  selectedText info ≠ "" ∧
  (∀ entry, entry ∈ highlightSelection info →
            sel_spanId entry ≠ "" ∧ is_Some (sel_position entry)) ∧
  ∃ range first last rest,
    getRangeAt0 selection = Some range ∧
    findParent roots (startContainer range) isLumiSpan = Some first ∧
    findParent roots (endContainer range) isLumiSpan = Some last ∧
    highlightSelection info
    = mkHighlightSelection
        (idAt roots first)
        (Some (mkPosition
                 (getOffsetInLumiSpan CITATION_CLASSNAME FOOTNOTE_CLASSNAME roots
                                      (startContainer range))
                 ((if bool_decide (first = last)
                   then getOffsetInLumiSpan CITATION_CLASSNAME FOOTNOTE_CLASSNAME
                                            roots (endContainer range)
                   else Z.of_nat (String.length (textContent roots first))) + 1)))
      :: rest ∧
    (first = last → rest = []).
Proof.
  intros Hinfo.
  destruct (getSelectionInfo_Some roots selection info Hinfo)
    as (range & first & last & Hrange & Hf & Hl & Hidf & Hidl & Htext & Hne
        & _ & Hsel).
  split_and!; [done|done| |].
  - intros entry Hentry. rewrite Hsel in Hentry.
    apply list_elem_of_In, in_flat_map in Hentry as (unit & _ & Hentry).
    unfold selectionOfLumiSpan in Hentry.
    case_bool_decide as Hid; [by destruct Hentry|].
    destruct Hentry as [<-|[]]. cbn. split; [done|by eexists].
  - eexists range, first, last, _. split_and!; [done|done|done| |].
    + rewrite Hsel. cbn [flat_map].
      rewrite (selectionOfLumiSpan_first roots range first last Hidf).
      reflexivity.
    + intros Heq. by rewrite (bool_decide_eq_false_2 (first ≠ last)) by tauto.
Qed.

Lemma collectLumiSpans_all roots (last : Path) : ∀ following,
  last ∉ following →
  collectLumiSpans roots last following = List.filter (isUnit roots) following.
Proof.
  induction following as [|current rest IH]; intros Hnot; [done|].
  apply not_elem_of_cons in Hnot as [Hne Hnot].
  cbn [collectLumiSpans List.filter]. fold (isUnit roots current).
  rewrite (bool_decide_eq_false_2 (current = last)) by done.
  rewrite (IH Hnot). by destruct (isUnit roots current).
Qed.

Lemma collectLumiSpans_upto roots (last : Path) back : ∀ front,
  last ∉ front →
  collectLumiSpans roots last (front ++ last :: back)
  = List.filter (isUnit roots) (front ++ [last]).
Proof.
  induction front as [|current rest IH]; intros Hnot.
  - cbn [app collectLumiSpans List.filter]. fold (isUnit roots last).
    rewrite (bool_decide_eq_true_2 (last = last)) by done.
    by destruct (isUnit roots last).
  - apply not_elem_of_cons in Hnot as [Hne Hnot].
    cbn [app collectLumiSpans List.filter]. fold (isUnit roots current).
    rewrite (bool_decide_eq_false_2 (current = last)) by done.
    rewrite (IH Hnot). by destruct (isUnit roots current).
Qed.

Lemma nextElementSiblings_later roots (s : nat) (parent p : Path) :
  p ∈ nextElementSiblings roots (s :: parent) →
  ∃ j, p = j :: parent ∧ (s < j)%nat.
Proof.
  cbn [nextElementSiblings]. intros Hp.
  apply list_elem_of_omap in Hp as ([j n] & _ & Hp).
  destruct (isElement n && bool_decide (s < j)%nat) eqn:Hc; [|done].
  injection Hp as <-. apply andb_prop in Hc as [_ Hc].
  apply bool_decide_eq_true_1 in Hc. by exists j.
Qed.

Lemma nextElementSiblings_not_self roots (first p : Path) :
  p ∈ nextElementSiblings roots first → p ≠ first.
Proof.
  destruct first as [|s parent]; [by intros Hp%elem_of_nil|].
  intros (j & -> & Hj)%nextElementSiblings_later [= ->]. lia.
Qed.

Lemma filter_units_middle roots (first last : Path) (units : list Path) :
  (∀ unit, unit ∈ units → unit ≠ first ∧ unit ≠ last) →
  Forall (λ unit, unit ≠ first ∧ unit ≠ last) (List.filter (isUnit roots) units).
Proof.
  intros Hall. apply Forall_forall. intros unit Hunit. apply Hall.
  apply list_elem_of_In in Hunit. apply filter_In in Hunit as [Hunit _].
  by apply list_elem_of_In.
Qed.

(** X17. A selection that runs from a unit to a later sibling of it is
    reported, in order, as the start unit from the offset of the start
    boundary to one past its text, every span-rendering unit between the two
    that has an id as a whole, and the end unit from [0] to one past the
    offset of the end boundary; nothing after the end unit is reported. *)
Theorem getSelectionInfo_run_of_units (roots : list Node)
    (selection : Selection) (info : SelectionInfo) (range : Range)
    (first last : Path) (front back : list Path) :
  getSelectionInfo CITATION_CLASSNAME FOOTNOTE_CLASSNAME roots selection
  = Some info →
  getRangeAt0 selection = Some range →
  findParent roots (startContainer range) isLumiSpan = Some first →
  findParent roots (endContainer range) isLumiSpan = Some last →
  first ≠ last →
  nextElementSiblings roots first = front ++ last :: back →
  last ∉ front →
  highlightSelection info
  = mkHighlightSelection
      (idAt roots first)
      (Some (mkPosition
               (getOffsetInLumiSpan CITATION_CLASSNAME FOOTNOTE_CLASSNAME roots
                                    (startContainer range))
               (Z.of_nat (String.length (textContent roots first)) + 1)))
    :: flat_map (wholeUnit roots) (List.filter (isUnit roots) front)
    ++ [mkHighlightSelection
          (idAt roots last)
          (Some (mkPosition 0
                   (getOffsetInLumiSpan CITATION_CLASSNAME FOOTNOTE_CLASSNAME
                                        roots (endContainer range) + 1)))].
Proof.
  intros Hinfo Hrange Hf Hl Hne Hsib Hfront.
  destruct (getSelectionInfo_Some roots selection info Hinfo)
    as (range' & first' & last' & Hrange' & Hf' & Hl' & Hidf & Hidl & _ & _
        & _ & Hsel).
  rewrite Hrange in Hrange'. injection Hrange' as <-.
  rewrite Hf in Hf'. injection Hf' as <-.
  rewrite Hl in Hl'. injection Hl' as <-.
  rewrite Hsel. rewrite (bool_decide_eq_true_2 (first ≠ last)) by done.
  rewrite Hsib, (collectLumiSpans_upto roots last back front Hfront).
  rewrite List.filter_app. cbn [List.filter flat_map].
  assert (Hunit : isUnit roots last = true).
  { destruct (findParent_sound roots isLumiSpan _ _ Hl)
      as (k & el & _ & Hel & He & Hc & _).
    unfold isUnit. by rewrite Hel, He, Hc. }
  rewrite Hunit, flat_map_app. cbn [flat_map].
  rewrite (selectionOfLumiSpan_first roots range first last Hidf).
  rewrite (bool_decide_eq_false_2 (first = last)) by done.
  rewrite (selectionOfLumiSpan_last roots range first last Hidl Hne).
  rewrite flat_map_middle; [by rewrite app_nil_r|].
  apply filter_units_middle. intros unit Hunit'. split.
  - apply nextElementSiblings_not_self with (roots := roots).
    rewrite Hsib. apply elem_of_app. by left.
  - by intros ->.
Qed.

(** X18. When the unit of the end boundary is not a later sibling of the
    unit of the start boundary (the selection runs backwards, or ends under
    another parent), the start unit is reported up to one past its text and
    every later sibling unit that has an id is reported whole, to the last
    one: the offset of the end boundary is not used, and the end unit itself
    is not reported. *)
Theorem getSelectionInfo_end_not_reached (roots : list Node)
    (selection : Selection) (info : SelectionInfo) (range : Range)
    (first last : Path) :
  getSelectionInfo CITATION_CLASSNAME FOOTNOTE_CLASSNAME roots selection
  = Some info →
  getRangeAt0 selection = Some range →
  findParent roots (startContainer range) isLumiSpan = Some first →
  findParent roots (endContainer range) isLumiSpan = Some last →
  first ≠ last →
  last ∉ nextElementSiblings roots first →
  highlightSelection info
  = mkHighlightSelection
      (idAt roots first)
      (Some (mkPosition
               (getOffsetInLumiSpan CITATION_CLASSNAME FOOTNOTE_CLASSNAME roots
                                    (startContainer range))
               (Z.of_nat (String.length (textContent roots first)) + 1)))
    :: flat_map (wholeUnit roots)
                (List.filter (isUnit roots) (nextElementSiblings roots first)).
Proof.
  intros Hinfo Hrange Hf Hl Hne Hnot.
  destruct (getSelectionInfo_Some roots selection info Hinfo)
    as (range' & first' & last' & Hrange' & Hf' & Hl' & Hidf & Hidl & _ & _
        & _ & Hsel).
  rewrite Hrange in Hrange'. injection Hrange' as <-.
  rewrite Hf in Hf'. injection Hf' as <-.
  rewrite Hl in Hl'. injection Hl' as <-.
  rewrite Hsel. rewrite (bool_decide_eq_true_2 (first ≠ last)) by done.
  rewrite (collectLumiSpans_all roots last _ Hnot). cbn [flat_map].
  rewrite (selectionOfLumiSpan_first roots range first last Hidf).
  rewrite (bool_decide_eq_false_2 (first = last)) by done.
  cbn [app]. f_equal. apply flat_map_middle.
  apply filter_units_middle. intros unit Hunit. split.
  - by apply nextElementSiblings_not_self with (roots := roots).
  - by intros ->.
Qed.

End SelectionShape.

Section SelectionShapeFixtures.
Import Dom SelectionUtils.

(** From the text node of character 6 of the first unit of the fixture,
    three steps up lead to the unit. *)
Lemma findParent_nearest_match_witness :
  ∃ k el,
    [0%nat] = drop k [0; 6; 0; 0]%nat ∧
    nodeAt multiUnitRoots [0%nat] = Some el ∧ isLumiSpan el = true.
Proof.
  destruct (findParent_nearest_match multiUnitRoots [0; 6; 0; 0]%nat isLumiSpan)
    as [Hsome _].
  destruct (Hsome [0%nat] eq_refl) as (k & el & Hk & Hel & _ & Hcond & _).
  exists k, el. split_and!; [exact Hk|exact Hel|exact Hcond].
Defined.

(** The multi-unit fixture: three entries, the first one from offset 6. *)
Lemma getSelectionInfo_success_shape_witness :
  selectedText multiUnitInfo = Js.trim (toString multiUnitSelection)
  ∧ ∀ entry, entry ∈ highlightSelection multiUnitInfo →
             sel_spanId entry ≠ "" ∧ is_Some (sel_position entry).
Proof.
  destruct (getSelectionInfo_success_shape "citation" "footnote" multiUnitRoots
              multiUnitSelection multiUnitInfo) as (Htext & _ & Hentries & _).
  - apply multiUnit_resolved.
  - split; [exact Htext|exact Hentries].
Defined.

(** The multi-unit fixture: the second unit is reported whole, the third
    up to one past offset 4. *)
Lemma getSelectionInfo_run_of_units_witness :
  highlightSelection multiUnitInfo
  = [mkHighlightSelection "test-span-1" (Some (mkPosition 6 13));
     mkHighlightSelection "test-span-2" (Some (mkPosition 0 14));
     mkHighlightSelection "test-span-3" (Some (mkPosition 0 5))].
Proof.
  apply (getSelectionInfo_run_of_units "citation" "footnote" multiUnitRoots
           multiUnitSelection multiUnitInfo
           (mkRange [0; 6; 0; 0]%nat [0; 4; 0; 2]%nat)
           [0%nat] [2%nat] [[1%nat]] []).
  - apply multiUnit_resolved.
  - reflexivity.
  - reflexivity.
  - reflexivity.
  - discriminate.
  - reflexivity.
  - intros Hel. apply elem_of_cons in Hel as [Hel|Hel]; [discriminate|].
    by apply elem_of_nil in Hel.
Defined.

Lemma backwardSelection_resolved :
  getSelectionInfo "citation" "footnote" multiUnitRoots backwardSelection
  = Some (mkSelectionInfo "part. Second part. Third" [4; 0; 2]%nat
            [mkHighlightSelection "test-span-3" (Some (mkPosition 4 12))]).
Proof. vm_compute. reflexivity. Qed.

(** The fixture selected backwards: the third unit alone, to one past its
    text. *)
Lemma getSelectionInfo_end_not_reached_witness :
  ∃ info,
    getSelectionInfo "citation" "footnote" multiUnitRoots backwardSelection
    = Some info ∧
    highlightSelection info
    = [mkHighlightSelection "test-span-3" (Some (mkPosition 4 12))].
Proof.
  eexists. split; [apply backwardSelection_resolved|].
  apply (getSelectionInfo_end_not_reached "citation" "footnote" multiUnitRoots
           backwardSelection _
           (mkRange [0; 4; 0; 2]%nat [0; 6; 0; 0]%nat) [2%nat] [0%nat]).
  - apply backwardSelection_resolved.
  - reflexivity.
  - reflexivity.
  - reflexivity.
  - discriminate.
  - intros Hel. vm_compute in Hel. by apply elem_of_nil in Hel.
Defined.

End SelectionShapeFixtures.

(** ** String utilities *)

Section StringProperties.
Import StringUtils.

Lemma append_cons (c : ascii) (s1 s2 : string) :
  (String c s1 +:+ s2)%string = String c (s1 +:+ s2).
Proof. reflexivity. Qed.

Lemma append_empty (s : string) : (EmptyString +:+ s)%string = s.
Proof. reflexivity. Qed.

Lemma append_assoc (s1 s2 s3 : string) :
  (s1 +:+ (s2 +:+ s3))%string = ((s1 +:+ s2) +:+ s3)%string.
Proof.
  induction s1 as [|c s1 IH]; [done|]. rewrite !append_cons. by rewrite IH.
Qed.

Lemma length_append (s1 s2 : string) :
  String.length (s1 +:+ s2) = (String.length s1 + String.length s2)%nat.
Proof.
  induction s1 as [|c s1 IH]; [done|]. rewrite append_cons.
  cbn [String.length]. by rewrite IH.
Qed.

Lemma split_nonempty sep s : ∃ piece pieces, Js.split sep s = piece :: pieces.
Proof.
  induction s as [|c s (piece & pieces & IH)]; cbn [Js.split]; [by eexists _, _|].
  case_bool_decide; [by eexists _, _|]. rewrite IH. by eexists _, _.
Qed.

Lemma split_no_sep sep s :
  allChars (λ c, negb (bool_decide (c = sep))) s = true → Js.split sep s = [s].
Proof.
  induction s as [|c s IH]; cbn [allChars Js.split]; [done|].
  intros [Hc Hs]%andb_prop. apply negb_true_iff, bool_decide_eq_false_1 in Hc.
  rewrite (bool_decide_eq_false_2 _ Hc). by rewrite (IH Hs).
Qed.

Lemma split_at_first_sep sep k v :
  allChars (λ c, negb (bool_decide (c = sep))) k = true →
  Js.split sep (k +:+ String sep v) = k :: Js.split sep v.
Proof.
  induction k as [|c k IH]; cbn [allChars].
  - intros _. rewrite append_empty. cbn [Js.split].
    by rewrite bool_decide_eq_true_2.
  - intros [Hc Hk]%andb_prop. apply negb_true_iff, bool_decide_eq_false_1 in Hc.
    rewrite append_cons. cbn [Js.split].
    rewrite (bool_decide_eq_false_2 _ Hc). by rewrite (IH Hk).
Qed.

Lemma join_split sep s :
  join (String sep EmptyString) (Js.split sep s) = s.
Proof.
  unfold join. induction s as [|c s IH]; [done|]. cbn [Js.split].
  destruct (split_nonempty sep s) as (piece & pieces & Hsplit).
  rewrite Hsplit in *. case_bool_decide as Hc.
  - subst c.
    change (String.concat (String sep EmptyString)
              (EmptyString :: piece :: pieces))
      with (String sep (String.concat (String sep EmptyString) (piece :: pieces))).
    by rewrite IH.
  - destruct pieces as [|piece' pieces].
    + cbn [String.concat] in *. by rewrite IH.
    + change (String.concat (String sep EmptyString)
                (String c piece :: piece' :: pieces))
        with (String c (String.concat (String sep EmptyString)
                          (piece :: piece' :: pieces))).
      by rewrite IH.
Qed.

(** X19. [parseColonKeyValue] cuts at the first colon: a string made of a
    key without colon, a colon and any value, colons included, gives the
    trimmed key and the trimmed value, the later colons staying in the
    value; a string without colon gives itself, trimmed, as the key and the
    empty value. *)
Theorem parseColonKeyValue_first_colon (k v s : string) :
  (noColon k = true →
   parseColonKeyValue (k +:+ String ":" v) = mkKeyValue (Js.trim k) (Js.trim v)) ∧
  (noColon s = true →
   parseColonKeyValue s = mkKeyValue (Js.trim s) EmptyString).
Proof.
  unfold parseColonKeyValue, noColon. split.
  - intros Hk. rewrite (split_at_first_sep ":" k v Hk).
    cbn [head tail default]. by rewrite (join_split ":" v).
  - intros Hs. rewrite (split_no_sep ":" s Hs). reflexivity.
Qed.

(** The case with two colons of [string_utils.test.ts], and a string
    without colon. *)
Lemma parseColonKeyValue_first_colon_witness :
  parseColonKeyValue "Note: This is a note: it has two colons"
  = mkKeyValue "Note" "This is a note: it has two colons"
  ∧ parseColonKeyValue "NoColonHere" = mkKeyValue "NoColonHere" "".
Proof.
  destruct (parseColonKeyValue_first_colon "Note"
              " This is a note: it has two colons" "NoColonHere")
    as [Hcut Hnone].
  split; [apply Hcut|apply Hnone]; reflexivity.
Defined.

Lemma afterLiteral_Some : ∀ lit s r,
  afterLiteral lit s = Some r → s = (lit +:+ r)%string.
Proof.
  induction lit as [|a lit IH]; intros s r; cbn [afterLiteral].
  - by intros [= ->].
  - destruct s as [|b s]; [done|]. case_bool_decide as E; [|done].
    subst b. intros Hr. rewrite append_cons. f_equal. by apply IH.
Qed.

Lemma afterLiteral_app : ∀ lit r, afterLiteral lit (lit +:+ r) = Some r.
Proof.
  induction lit as [|a lit IH]; intros r; [by destruct r|].
  rewrite append_cons. cbn [afterLiteral].
  by rewrite bool_decide_eq_true_2.
Qed.

Lemma afterLetters_run s :
  ∃ run, s = (run +:+ afterLetters s)%string ∧ allChars isLetter run = true.
Proof.
  induction s as [|c s (run & Hs & Hrun)]; [by exists EmptyString|].
  cbn [afterLetters]. destruct (isLetter c) eqn:Hc.
  - exists (String c run). rewrite append_cons, <- Hs. cbn [allChars].
    by rewrite Hc, Hrun.
  - by exists EmptyString.
Qed.

Lemma afterLetters_app run r :
  allChars isLetter run = true →
  match r with String c _ => isLetter c = false | EmptyString => True end →
  afterLetters (run +:+ r) = r.
Proof.
  induction run as [|c run IH]; cbn [allChars].
  - intros _ Hr. rewrite append_empty. destruct r as [|c r]; [done|].
    cbn [afterLetters]. by rewrite Hr.
  - intros [Hc Hrun]%andb_prop Hr. rewrite append_cons. cbn [afterLetters].
    rewrite Hc. by apply IH.
Qed.

Lemma digits_Some : ∀ n s ds r,
  digits n s = Some (ds, r) →
  s = (ds +:+ r)%string ∧ String.length ds = n ∧ allChars isDigit ds = true.
Proof.
  induction n as [|n IH]; intros s ds r; cbn [digits].
  - by intros [= <- <-].
  - destruct s as [|c s]; [done|]. destruct (isDigit c) eqn:Hc; [|done].
    destruct (digits n s) as [[ds' r']|] eqn:Hrest; [|done].
    intros [= <- <-]. destruct (IH _ _ _ Hrest) as (-> & <- & Hds).
    cbn [allChars String.length]. by rewrite Hc, Hds.
Qed.

Lemma digits_app : ∀ ds r,
  allChars isDigit ds = true → digits (String.length ds) (ds +:+ r) = Some (ds, r).
Proof.
  induction ds as [|c ds IH]; intros r; cbn [allChars String.length digits].
  - by rewrite append_empty.
  - intros [Hc Hds]%andb_prop. rewrite append_cons, Hc. by rewrite (IH r Hds).
Qed.

Lemma matchArxivAt_Some s id :
  matchArxivAt s = Some id →
  ∃ kind d4 d5 rest,
    s = ("arxiv.org/" +:+ kind +:+ "/" +:+ id +:+ rest)%string ∧
    id = (d4 +:+ "." +:+ d5)%string ∧
    kind ≠ EmptyString ∧ allChars isLetter kind = true ∧
    String.length d4 = 4%nat ∧ allChars isDigit d4 = true ∧
    String.length d5 = 5%nat ∧ allChars isDigit d5 = true ∧
    notDigitNext rest = true.
Proof.
  unfold matchArxivAt.
  destruct (afterLiteral "arxiv.org/" s) as [s1|] eqn:H1; [|done].
  apply afterLiteral_Some in H1 as ->.
  destruct s1 as [|c s1']; [done|].
  destruct (isLetter c) eqn:Hc; [|done].
  destruct (afterLetters_run (String c s1')) as (kind & Hkind & Hletters).
  destruct (afterLiteral "/" (afterLetters (String c s1'))) as [s2|] eqn:H2;
    [|done].
  apply afterLiteral_Some in H2.
  destruct (digits 4 s2) as [[d4 s3]|] eqn:H3; [|done].
  apply digits_Some in H3 as (-> & Hlen4 & Hd4).
  destruct (afterLiteral "." s3) as [s4|] eqn:H4; [|done].
  apply afterLiteral_Some in H4 as ->.
  destruct (digits 5 s4) as [[d5 s5]|] eqn:H5; [|done].
  apply digits_Some in H5 as (-> & Hlen5 & Hd5).
  destruct (notDigitNext s5) eqn:H6; [|done].
  intros [= <-]. exists kind, d4, d5, s5.
  split_and!; try done.
  - rewrite Hkind, H2. by rewrite <- !append_assoc.
  - intros ->. rewrite append_empty in Hkind.
    cbn [afterLetters] in Hkind. rewrite Hc in Hkind.
    assert (Hl : String.length (String c s1')
                 = String.length (afterLetters s1')) by by rewrite Hkind at 1.
    clear -Hl. cbn [String.length] in Hl.
    assert (Hle : ∀ t, (String.length (afterLetters t) ≤ String.length t)%nat).
    { induction t as [|a t IH]; cbn; [lia|]. destruct (isLetter a); cbn; lia. }
    specialize (Hle s1'). lia.
Qed.

Lemma execArxiv_Some : ∀ url id,
  execArxiv url = Some id →
  ∃ pre suffix, url = (pre +:+ suffix)%string ∧ matchArxivAt suffix = Some id.
Proof.
  induction url as [|c url IH]; intros id; cbn [execArxiv].
  - destruct (matchArxivAt EmptyString) eqn:Hm; [|done].
    intros [= ->]. by exists EmptyString, EmptyString.
  - destruct (matchArxivAt (String c url)) eqn:Hm.
    + intros [= ->]. by exists EmptyString, (String c url).
    + intros (pre & suffix & -> & Hs)%IH. by exists (String c pre), suffix.
Qed.

Lemma execArxiv_here s id : matchArxivAt s = Some id → execArxiv s = Some id.
Proof. intros Hm. destruct s; cbn [execArxiv]; by rewrite Hm. Qed.

Lemma execArxiv_finds : ∀ pre suffix id,
  matchArxivAt suffix = Some id → is_Some (execArxiv (pre +:+ suffix)).
Proof.
  induction pre as [|c pre IH]; intros suffix id Hm.
  - rewrite append_empty. destruct suffix; cbn [execArxiv]; rewrite Hm; by eexists.
  - rewrite append_cons. cbn [execArxiv].
    destruct (matchArxivAt (String c (pre +:+ suffix))); [by eexists|].
    by eapply IH.
Qed.

Lemma execArxiv_skip : ∀ pre suffix,
  allChars (λ c, negb (bool_decide (c = "a"%char))) pre = true →
  execArxiv (pre +:+ suffix) = execArxiv suffix.
Proof.
  induction pre as [|c pre IH]; intros suffix; cbn [allChars]; [done|].
  intros [Hc Hpre]%andb_prop. apply negb_true_iff, bool_decide_eq_false_1 in Hc.
  rewrite append_cons. cbn [execArxiv].
  assert (Hno : matchArxivAt (String c (pre +:+ suffix)) = None).
  { unfold matchArxivAt. cbn [afterLiteral].
    by rewrite (bool_decide_eq_false_2 ("a"%char = c)) by done. }
  rewrite Hno. by apply IH.
Qed.

Lemma matchArxivAt_standard kind d4 d5 rest :
  kind ≠ EmptyString → allChars isLetter kind = true →
  String.length d4 = 4%nat → allChars isDigit d4 = true →
  String.length d5 = 5%nat → allChars isDigit d5 = true →
  notDigitNext rest = true →
  matchArxivAt ("arxiv.org/" +:+ kind +:+ "/" +:+ d4 +:+ "." +:+ d5 +:+ rest)
  = Some (d4 +:+ "." +:+ d5)%string.
Proof.
  intros Hne Hkind Hlen4 Hd4 Hlen5 Hd5 Hrest. unfold matchArxivAt.
  rewrite afterLiteral_app.
  destruct kind as [|c kind']; [done|]. rewrite append_cons.
  cbn [allChars] in Hkind. apply andb_prop in Hkind as Hboth.
  destruct Hboth as [Hc _]. rewrite Hc.
  rewrite <- append_cons.
  rewrite (afterLetters_app (String c kind')) by done.
  rewrite afterLiteral_app.
  rewrite <- Hlen4 at 1. rewrite (digits_app d4 _ Hd4).
  rewrite afterLiteral_app.
  rewrite <- Hlen5 at 1. rewrite (digits_app d5 _ Hd5).
  by rewrite Hrest.
Qed.

(** X20. What [extractArxivId] returns is in the URL: an id it returns is
    four digits, a dot and five digits, ten characters in all, found in the
    URL right after [arxiv.org/], one or more letters and a slash, and not
    followed by a digit. *)
Theorem extractArxivId_sound (url id : string) :
  extractArxivId url = Some id →
  ∃ pre kind d4 d5 rest,
    url = (pre +:+ "arxiv.org/" +:+ kind +:+ "/" +:+ id +:+ rest)%string ∧
    id = (d4 +:+ "." +:+ d5)%string ∧
    kind ≠ EmptyString ∧ allChars isLetter kind = true ∧
    String.length d4 = 4%nat ∧ allChars isDigit d4 = true ∧
    String.length d5 = 5%nat ∧ allChars isDigit d5 = true ∧
    notDigitNext rest = true ∧
    String.length id = 10%nat.
Proof.
  unfold extractArxivId.
  destruct (execArxiv url) as [found|] eqn:Hexec; [|done].
  case_bool_decide; [done|]. intros [= ->].
  apply execArxiv_Some in Hexec as (pre & suffix & -> & Hm).
  apply matchArxivAt_Some in Hm
    as (kind & d4 & d5 & rest & -> & -> & Hne & Hkind & Hl4 & Hd4 & Hl5 & Hd5
        & Hrest).
  exists pre, kind, d4, d5, rest. split_and!; try done.
  rewrite !length_append, Hl4, Hl5. reflexivity.
Qed.

Lemma extractArxivId_sound_witness :
  String.length "1511.02799" = 10%nat.
Proof.
  destruct (extractArxivId_sound "https://arxiv.org/pdf/1511.02799v3"
              "1511.02799" eq_refl)
    as (_ & _ & _ & _ & _ & _ & _ & _ & _ & _ & _ & _ & _ & _ & Hlen).
  exact Hlen.
Defined.

(** X21. A URL that holds [arxiv.org/], one or more letters, a slash, four
    digits, a dot and five digits not followed by a digit always gives an
    id: the test of the captured group for emptiness never fails. When
    nothing before [arxiv.org/] holds the letter [a], as in the usual
    [https://], [http://www.] or no prefix at all, the id is the one that
    follows, whatever comes after it (a version suffix, a query). *)
Theorem extractArxivId_complete (pre kind d4 d5 rest : string) :
  kind ≠ EmptyString → allChars isLetter kind = true →
  String.length d4 = 4%nat → allChars isDigit d4 = true →
  String.length d5 = 5%nat → allChars isDigit d5 = true →
  notDigitNext rest = true →
  let url :=
    (pre +:+ "arxiv.org/" +:+ kind +:+ "/" +:+ d4 +:+ "." +:+ d5 +:+ rest)%string in
  is_Some (extractArxivId url) ∧
  (allChars (λ c, negb (bool_decide (c = "a"%char))) pre = true →
   extractArxivId url = Some (d4 +:+ "." +:+ d5)%string).
Proof.
  intros Hne Hkind Hl4 Hd4 Hl5 Hd5 Hrest url.
  pose proof (matchArxivAt_standard kind d4 d5 rest Hne Hkind Hl4 Hd4 Hl5 Hd5
                Hrest) as Hm.
  assert (Hnonempty : ∀ found, execArxiv url = Some found →
                               extractArxivId url = Some found).
  { intros found Hexec. unfold extractArxivId. rewrite Hexec.
    apply execArxiv_Some in Hexec as (pre' & suffix & _ & Hm').
    apply matchArxivAt_Some in Hm'
      as (_ & e4 & e5 & _ & _ & -> & _ & _ & Hlen & _).
    rewrite bool_decide_eq_false_2; [done|].
    intros Hempty. destruct e4; [done|discriminate]. }
  split.
  - destruct (execArxiv_finds pre _ _ Hm) as [found Hexec].
    exists found. by apply Hnonempty.
  - intros Hpre. apply Hnonempty. unfold url.
    rewrite (execArxiv_skip pre _ Hpre). by apply execArxiv_here.
Qed.

(** The URLs of [string_utils.test.ts]: an abstract page, and a PDF with a
    version suffix. *)
Lemma extractArxivId_complete_witness :
  extractArxivId "https://arxiv.org/abs/1511.02799" = Some "1511.02799"
  ∧ extractArxivId "https://arxiv.org/pdf/1511.02799v3" = Some "1511.02799".
Proof.
  split.
  - apply (extractArxivId_complete "https://" "abs" "1511" "02799" "");
      try reflexivity; discriminate.
  - apply (extractArxivId_complete "https://" "pdf" "1511" "02799" "v3");
      try reflexivity; discriminate.
Defined.

End StringProperties.

(** ** The abstract: the highlight of the excerpt *)

Section AbstractExcerpt.
Import LumiDocManager LumiSpanUtils LumiSpanViz LumiAbstract.

Lemma updateHighlightsMap_flat abstract isCollapsed excerptSpanId :
  updateHighlightsMap abstract isCollapsed excerptSpanId
  = foldl (λ highlightsMap span,
             <[span_id span := newHighlights isCollapsed excerptSpanId span]>
               highlightsMap)
          ∅ (flat_map textSpans abstract).
Proof.
  unfold updateHighlightsMap. generalize (∅ : gmap string (list Highlight)).
  induction abstract as [|content abstract IH]; intros m; [done|].
  cbn [foldl flat_map]. by rewrite foldl_app, IH.
Qed.

Lemma updateHighlightsMap_lookup abstract isCollapsed excerptSpanId id :
  updateHighlightsMap abstract isCollapsed excerptSpanId !! id
  = newHighlights isCollapsed excerptSpanId
      <$> last (List.filter (λ s, bool_decide (span_id s = id))
                            (flat_map textSpans abstract)).
Proof.
  rewrite updateHighlightsMap_flat.
  induction (flat_map textSpans abstract) as [|s spans IH] using rev_ind; [done|].
  rewrite foldl_snoc, List.filter_app. cbn [List.filter].
  case_bool_decide as E.
  - subst id. by rewrite lookup_insert_eq, last_snoc.
  - rewrite lookup_insert_ne by done. by rewrite app_nil_r.
Qed.

(** X22. The map of the abstract has an entry for every span of its text
    blocks and for no other id; when the abstract is collapsed every entry
    is empty. When it is not, the excerpt span has the cyan highlight, which
    ends one before the length of the text: painted with it and with the
    highlights of the two stores, a character that no highlight of the stores
    covers is cyan when it is not the last character of the span, and the
    last character has no highlight at all; a highlight of the stores that
    covers a character shows over the cyan one. *)
Theorem excerpt_highlight_stops_before_last_character
    (abstract : list LumiContent) (span : LumiSpan)
    (highlightManager : option HighlightManager.HighlightManagerBase)
    (answerHighlightManager : option (string → list Highlight)) (j : nat) :
  last (List.filter (λ s, bool_decide (span_id s = span_id span))
                    (flat_map textSpans abstract)) = Some span →
  (j < String.length (text span))%nat →
  let highlightsMap := updateHighlightsMap abstract false (Some (span_id span)) in
  let fromStores :=
    getSpanHighlightsFromManagers (span_id span) highlightManager
                                  answerHighlightManager in
  (∀ id, is_Some (highlightsMap !! id)
         ↔ ∃ s, s ∈ flat_map textSpans abstract ∧ span_id s = id) ∧
  (∀ excerptSpanId id hs,
     updateHighlightsMap abstract true excerptSpanId !! id = Some hs → hs = []) ∧
  highlightsMap !! span_id span = Some [excerptHighlight span] ∧
  ∃ counter,
    formattingCountersOf (text span) (flattenTags (innerTags span) 0)
      (spanHighlights highlightsMap span highlightManager answerHighlightManager)
      !! j = Some counter ∧
    counter !! GENERAL_HIGHLIGHT_KEY
    = highlightMark <$>
        match last (highlightsCovering (text span) j fromStores) with
        | Some h => Some h
        | None => if bool_decide (j + 1 < String.length (text span))%nat
                  then Some (excerptHighlight span) else None
        end.
Proof.
  intros Hlast Hj highlightsMap fromStores.
  assert (Hentry : highlightsMap !! span_id span = Some [excerptHighlight span]).
  { unfold highlightsMap. rewrite updateHighlightsMap_lookup, Hlast.
    cbn [fmap option_fmap option_map]. unfold newHighlights. cbn [negb andb].
    by rewrite bool_decide_eq_true_2. }
  split_and!.
  - intros id. unfold highlightsMap. rewrite updateHighlightsMap_lookup.
    rewrite fmap_is_Some, last_is_Some. split.
    + intros Hne.
      destruct (List.filter (λ s, bool_decide (span_id s = id))
                            (flat_map textSpans abstract))
        as [|s l] eqn:Hf; [done|].
      assert (Hin : In s (List.filter (λ s, bool_decide (span_id s = id))
                                      (flat_map textSpans abstract)))
        by (rewrite Hf; by left).
      apply filter_In in Hin as [Hin Hid]. apply bool_decide_eq_true_1 in Hid.
      exists s. split; [by apply list_elem_of_In|done].
    + intros (s & Hin & Hid) Hnil.
      assert (Hin' : In s (List.filter (λ s, bool_decide (span_id s = id))
                                       (flat_map textSpans abstract))).
      { apply filter_In. split; [by apply list_elem_of_In|].
        by apply bool_decide_eq_true_2. }
      by rewrite Hnil in Hin'.
  - intros excerptSpanId id hs. rewrite updateHighlightsMap_lookup.
    destruct (last (List.filter (λ s, bool_decide (span_id s = id))
                                (flat_map textSpans abstract))); [|done].
    by intros [= <-].
  - exact Hentry.
  - destruct (formattingCountersOf_entries (text span)
                (flattenTags (innerTags span) 0)
                (spanHighlights highlightsMap span highlightManager
                                answerHighlightManager) j Hj)
      as (counter & Hc & _ & Hg & _).
    exists counter. split; [exact Hc|]. rewrite Hg. f_equal.
    unfold spanHighlights. rewrite Hentry. cbn [default from_option Datatypes.id].
    fold fromStores. rewrite highlightsCovering_app, last_app.
    destruct (last (highlightsCovering (text span) j fromStores)); [done|].
    unfold highlightsCovering, covers.
    cbn [List.filter highlightRange excerptHighlight hl_position startIndex
         endIndex].
    repeat case_bool_decide; try lia; done.
Qed.

(** The excerpt ["abc"]: its second character is cyan, its third one has no
    highlight. *)
Lemma excerpt_highlight_stops_before_last_character_witness :
  let span := mkLumiSpan "s1" "abc" [] in
  let highlights :=
    spanHighlights (updateHighlightsMap [TextContent "p" [span]] false (Some "s1"))
                   span None None in
  (∃ counter,
     formattingCountersOf "abc" [] highlights !! 1%nat = Some counter ∧
     counter !! GENERAL_HIGHLIGHT_KEY = Some (highlightMark (excerptHighlight span)))
  ∧ ∃ counter,
      formattingCountersOf "abc" [] highlights !! 2%nat = Some counter ∧
      counter !! GENERAL_HIGHLIGHT_KEY = None.
Proof.
  intros span highlights. split.
  - destruct (excerpt_highlight_stops_before_last_character
                [TextContent "p" [span]] span None None 1)
      as (_ & _ & _ & counter & Hc & Hg); [reflexivity|simpl; lia|].
    exists counter. split; [exact Hc|]. rewrite Hg. reflexivity.
  - destruct (excerpt_highlight_stops_before_last_character
                [TextContent "p" [span]] span None None 2)
      as (_ & _ & _ & counter & Hc & Hg); [reflexivity|simpl; lia|].
    exists counter. split; [exact Hc|]. rewrite Hg. reflexivity.
Defined.

End AbstractExcerpt.

(** ** Summaries of a content block: grouping by text *)

Section SummaryGroups.
Import LumiDocManager LumiSummaryMaps ContentSummary.

Lemma distinctTexts_snoc summaries s :
  distinctTexts (summaries ++ [s])
  = if bool_decide (text (summary s) ∈ distinctTexts summaries)
    then distinctTexts summaries
    else distinctTexts summaries ++ [text (summary s)].
Proof. unfold distinctTexts. by rewrite foldl_snoc. Qed.

Lemma distinctTexts_NoDup summaries : NoDup (distinctTexts summaries).
Proof.
  induction summaries as [|s summaries IH] using rev_ind; [constructor|].
  rewrite distinctTexts_snoc. case_bool_decide as Hin; [done|].
  apply NoDup_app. split_and!; [done| |apply NoDup_singleton].
  intros t Ht Hs. apply list_elem_of_singleton in Hs as ->. done.
Qed.

Lemma distinctTexts_elem summaries t :
  t ∈ distinctTexts summaries ↔ ∃ s, s ∈ summaries ∧ text (summary s) = t.
Proof.
  induction summaries as [|s summaries IH] using rev_ind.
  - split; [by intros ?%elem_of_nil|by intros (? & ?%elem_of_nil & _)].
  - rewrite distinctTexts_snoc.
    assert (Hsnoc : (∃ s0, s0 ∈ summaries ++ [s] ∧ text (summary s0) = t)
                    ↔ (∃ s0, s0 ∈ summaries ∧ text (summary s0) = t)
                      ∨ text (summary s) = t).
    { split.
      - intros (s0 & [Hin|Hin]%elem_of_app & Ht); [left; by exists s0|].
        apply list_elem_of_singleton in Hin as ->. by right.
      - intros [(s0 & Hin & Ht)|Ht].
        + exists s0. split; [|done]. apply elem_of_app. by left.
        + exists s. split; [|done]. apply elem_of_app. right.
          by apply list_elem_of_singleton. }
    rewrite Hsnoc, <- IH. case_bool_decide as Hin.
    + split; [by left|]. intros [?| <-]; done.
    + rewrite elem_of_app, list_elem_of_singleton. split.
      * intros [?| ->]; [by left|by right].
      * intros [?| <-]; [by left|by right].
Qed.

Lemma idsWithText_snoc summaries s t :
  idsWithText (summaries ++ [s]) t
  = idsWithText summaries t
    ++ (if bool_decide (t = text (summary s)) then [summary_id s] else []).
Proof.
  unfold idsWithText. rewrite List.filter_app, fmap_app. f_equal.
  cbn [List.filter]. by repeat case_bool_decide.
Qed.

Lemma pushSpanId_entries (f : string → list string) (t id : string) :
  ∀ keys,
    NoDup keys → (t ∉ keys → f t = []) →
    pushSpanId t id ((λ k, (k, f k)) <$> keys)
    = (λ k, (k, f k ++ (if bool_decide (k = t) then [id] else [])))
        <$> (if bool_decide (t ∈ keys) then keys else keys ++ [t]).
Proof.
  induction keys as [|k keys IH]; intros Hnd Hnew.
  - cbn [fmap list_fmap pushSpanId].
    rewrite (bool_decide_eq_false_2 (t ∈ [])) by apply not_elem_of_nil.
    cbn [fmap list_fmap app]. rewrite Hnew by apply not_elem_of_nil.
    by rewrite bool_decide_eq_true_2.
  - apply NoDup_cons in Hnd as [Hk Hnd]. cbn [fmap list_fmap pushSpanId].
    destruct (decide (k = t)) as [->|Hne].
    + rewrite !(bool_decide_eq_true_2 (t = t)) by done.
      rewrite (bool_decide_eq_true_2 (t ∈ t :: keys)) by apply list_elem_of_here.
      cbn [fmap list_fmap]. rewrite (bool_decide_eq_true_2 (t = t)) by done.
      f_equal. apply list_fmap_ext. intros i k' Hk'.
      rewrite bool_decide_eq_false_2; [by rewrite app_nil_r|].
      intros ->. apply Hk. by eapply list_elem_of_lookup_2.
    + rewrite !(bool_decide_eq_false_2 (k = t)) by done.
      fold (fmap (M := list) (λ k, (k, f k)) keys).
      rewrite IH; [|done|]; last first.
      { intros Hnot. apply Hnew. rewrite not_elem_of_cons. by split. }
      destruct (decide (t ∈ keys)) as [Hin|Hnin].
      * rewrite !bool_decide_eq_true_2; [|by apply list_elem_of_further|done].
        cbn [fmap list_fmap].
        by rewrite (bool_decide_eq_false_2 (k = t)), app_nil_r by done.
      * rewrite !bool_decide_eq_false_2; [|by rewrite not_elem_of_cons|done].
        cbn [fmap list_fmap app].
        by rewrite (bool_decide_eq_false_2 (k = t)), app_nil_r by done.
Qed.

Lemma summariesToSpanIds_entries (spanSummaries : OrderedMap string LumiSummary) :
  summariesToSpanIds spanSummaries
  = (λ t, (t, idsWithText spanSummaries.*2 t)) <$> distinctTexts spanSummaries.*2.
Proof.
  unfold summariesToSpanIds.
  induction (spanSummaries.*2) as [|s summaries IH] using rev_ind; [done|].
  rewrite foldl_snoc, IH.
  rewrite (pushSpanId_entries (idsWithText summaries)).
  - rewrite distinctTexts_snoc. apply list_fmap_ext. intros i t _.
    by rewrite idsWithText_snoc.
  - apply distinctTexts_NoDup.
  - intros Hnot. unfold idsWithText.
    rewrite filter_all_false; [done|]. apply Forall_forall. intros s' Hs'.
    apply bool_decide_eq_false_2. intros Heq. apply Hnot.
    apply distinctTexts_elem. by exists s'.
Qed.

(** X23. The span summaries of a block are laid out by text: there is one
    item for each distinct summary text, in the order in which the texts
    first occur; the item of a text carries the ids of all the summaries
    with that text, in order, and none of another text, and its
    representative is the first summary with the text. The lookup of the
    representative never fails, so that no item is left out, and every
    summary is in exactly one item. Nothing is laid out for a list block,
    or when there are fewer than two summaries. *)
Theorem renderSpanSummaries_groups_by_text
    (spanSummaries : OrderedMap string LumiSummary) (content : LumiContent) :
  let summaries := spanSummaries.*2 in
  (renderSpanSummaries (Some spanSummaries) content = None
   ↔ (length spanSummaries ≤ 1)%nat ∨ ∃ l, content = ListContentBlock l) ∧
  ∀ items,
    renderSpanSummaries (Some spanSummaries) content = Some items →
    length items = length (distinctTexts summaries) ∧
    NoDup (distinctTexts summaries) ∧
    (∀ s, s ∈ summaries → text (summary s) ∈ distinctTexts summaries) ∧
    ∀ (i : nat) t,
      distinctTexts summaries !! i = Some t →
      ∃ representative,
        items !! i = Some (Some (representative, idsWithText summaries t)) ∧
        text (summary representative) = t ∧
        idsWithText summaries t ≠ [] ∧
        List.find (λ s, bool_decide (text (summary s) = t)) summaries
        = Some representative.
Proof.
  intros summaries. split.
  - unfold renderSpanSummaries. case_bool_decide as Hlen.
    + split; [by left|done].
    + destruct content; (split; [try done|]);
        try (intros [?|[l [=]]]; done).
      * intros _. right. by eexists.
  - intros items Hitems.
    assert (Hlist : items
              = (λ '(summaryText, spanIds),
                   match List.find (λ s, bool_decide (text (summary s) = summaryText))
                                   summaries with
                   | Some summary => Some (summary, spanIds)
                   | None => None
                   end) <$> summariesToSpanIds spanSummaries).
    { unfold renderSpanSummaries in Hitems. case_bool_decide; [done|].
      destruct content; try done; by injection Hitems as <-. }
    rewrite summariesToSpanIds_entries in Hlist. fold summaries in Hlist.
    rewrite <- list_fmap_compose in Hlist. subst items.
    split_and!.
    + by rewrite length_fmap.
    + apply distinctTexts_NoDup.
    + intros s Hs. apply distinctTexts_elem. by exists s.
    + intros i t Hi. rewrite list_lookup_fmap, Hi. cbn.
      assert (Hin : t ∈ distinctTexts summaries)
        by by eapply list_elem_of_lookup_2.
      apply distinctTexts_elem in Hin as (s & Hs & Ht).
      destruct (List.find (λ s, bool_decide (text (summary s) = t)) summaries)
        as [representative|] eqn:Hfind.
      * exists representative. split_and!; [done| |  |done].
        -- apply find_some in Hfind as [_ Hrep].
           by apply bool_decide_eq_true_1 in Hrep.
        -- unfold idsWithText. intros Hnil. apply fmap_nil_inv in Hnil.
           assert (Hin : In s (List.filter
                                 (λ s, bool_decide (text (summary s) = t))
                                 summaries)).
           { apply filter_In. split; [by apply list_elem_of_In|].
             by apply bool_decide_eq_true_2. }
           by rewrite Hnil in Hin.
      * exfalso. apply list_elem_of_In in Hs.
        apply (find_none _ _ Hfind s) in Hs.
        by apply bool_decide_eq_false_1 in Hs.
Qed.

(** Three summaries, the first and the last with the same text: the first
    item carries both ids. *)
Lemma renderSpanSummaries_groups_by_text_witness :
  let s id txt := mkLumiSummary id (mkLumiSpan id txt []) in
  let items := [Some (s "a" "one", ["a"; "c"]); Some (s "b" "two", ["b"])] in
  ∃ representative,
    items !! 0%nat = Some (Some (representative, ["a"; "c"])) ∧
    text (summary representative) = "one".
Proof.
  intros s items.
  destruct (renderSpanSummaries_groups_by_text
              [("a", s "a" "one"); ("b", s "b" "two"); ("c", s "c" "one")]
              (TextContent "p" [])) as [_ Hitems].
  destruct (Hitems items eq_refl) as (_ & _ & _ & Hgroups).
  destruct (Hgroups 0%nat "one" eq_refl) as (representative & Hrep & Htext & _).
  exists representative. split; [exact Hrep|exact Htext].
Defined.

End SummaryGroups.

(** ** Compositor: links *)

Section LinkCharacters.
Import LumiSpanUtils LumiSpanViz.
Variable tagString : InnerTagName → string.
Variable HIGHLIGHT_METADATA_ANSWER_KEY : string.

Lemma omap_of_fmap {X Y Z : Type} (f : Y → option Z) (g : X → Y) (l : list X) :
  omap f (g <$> l) = omap (λ x, f (g x)) l.
Proof.
  induction l as [|x l IH]; [done|]. cbn [fmap list_fmap omap list_omap].
  destruct (f (g x)); [f_equal|]; apply IH.
Qed.

Lemma union_list_lookup_first (maps : list InnerTagMetadata) (key : string) :
  (⋃ maps) !! key = head (omap (λ m, m !! key) maps).
Proof.
  induction maps as [|m maps IH]; [by rewrite union_list_nil, lookup_empty|].
  rewrite union_list_cons, lookup_union. cbn [omap list_omap].
  destruct (m !! key) as [v|]; cbn [head].
  - by destruct ((⋃ maps) !! key).
  - rewrite IH. by destruct (head _).
Qed.

(** X24. A character under a link tag that carries no math tag, and whose
    class object has the class of no citation, cross-span reference or
    footnote, is rendered as a link with its class object. Its target is the
    [href] of the first link tag, nested ones included, that covers the
    character and has one, in the order of the flattened tags; it is ["#"]
    when that [href] is empty or when no covering link tag has one. When
    rendering returns, the link is the unit of the character in the rendered
    content. *)
Theorem link_character_target (props : Props) (s : LumiSpan) (j : nat)
    (ch : ascii) :
  span props = Some s →
  let tags := flattenTags (innerTags s) 0 in
  let cs := countersOf props s in
  let link :=
    LinkTemplate
      match head (omap (λ tag, metadata tag !! "href") (tagsCovering A j tags)) with
      | Some href => if bool_decide (href = "") then "#" else href
      | None => "#"
      end
      (classesAt tagString HIGHLIGHT_METADATA_ANSWER_KEY (font props) cs j) ch in
  list_ascii_of_string (text s) !! j = Some ch →
  carries cs j A = true →
  isMathAt cs j = false →
  hasHidingClass tagString HIGHLIGHT_METADATA_ANSWER_KEY (font props) cs j
  = false →
  ownUnit tagString HIGHLIGHT_METADATA_ANSWER_KEY props s j ch = Some [link] ∧
  ∀ parts,
    calculateRenderedContent tagString HIGHLIGHT_METADATA_ANSWER_KEY props
    = Some (RendererElement parts) →
    ∃ units,
      imap (ownUnit tagString HIGHLIGHT_METADATA_ANSWER_KEY props s)
           (list_ascii_of_string (text s)) = Some <$> units ∧
      parts = concat (imap (λ i unit, insertionsAt props s i ++ unit) units)
              ++ insertionsAt props s (String.length (text s)) ∧
      units !! j = Some [link].
Proof.
  intros Hs tags cs link Hch HA Hmath Hhide.
  assert (Hj : (j < String.length (text s))%nat).
  { apply lookup_lt_Some in Hch. by rewrite length_list_ascii_of_string in Hch. }
  destruct (formattingCountersOf_entries (text s) tags
              (default [] (highlights props)) j Hj)
    as (counter & Hc & Htags & _).
  change (formattingCountersOf (text s) tags (default [] (highlights props)))
    with cs in Hc.
  assert (Hplain : plainPath props s = false).
  { destruct (plainPath props s) eqn:Hplain; [|done].
    apply plainPath_no_tags in Hplain. by apply carries_needs_tags in HA. }
  assert (Hown : ownUnit tagString HIGHLIGHT_METADATA_ANSWER_KEY props s j ch
                 = Some [link]).
  { unfold ownUnit. rewrite Hplain. unfold characterUnit. cbv zeta.
    fold cs. rewrite Hc, Hmath.
    unfold hasHidingClass, classesAt in Hhide. rewrite Hc in Hhide.
    unfold renderFormattedCharacter. cbv zeta. rewrite Hhide.
    unfold carries in HA. rewrite Hc in HA. unfold hasKey in HA.
    apply bool_decide_eq_true_1 in HA.
    rewrite bool_decide_eq_true_2; last first.
    { apply (key_in_classes tagString HIGHLIGHT_METADATA_ANSWER_KEY
               (font props) _ (TagKey A)).
      by rewrite lookup_with_character. }
    rewrite lookup_with_character. rewrite Htags in HA |- *.
    unfold link, classesAt. rewrite Hc.
    destruct (tagsCovering A j tags) as [|tag covering] eqn:Hcov;
      [by destruct HA as [? [=]]|].
    cbn [fmap option_fmap option_map]. do 3 f_equal.
    by rewrite union_list_lookup_first, omap_of_fmap. }
  split; [exact Hown|]. intros parts Hout.
  pose proof (rendered_units tagString HIGHLIGHT_METADATA_ANSWER_KEY props s Hs)
    as Hunits.
  rewrite Hout in Hunits. destruct Hunits as (units & Hunits & [= ->]).
  exists units. split_and!; [done|done|].
  destruct (units_of_characters _ _ _ Hunits) as [_ Hat].
  destruct (Hat j ch Hch) as (u & Hu & Hown'). congruence.
Qed.

End LinkCharacters.

Section LinkCharactersFixtures.
Import LumiSpanUtils LumiSpanViz.

(** The link over the second character of ["ab"]. *)
Lemma link_character_target_witness :
  ownUnit exampleTagString exampleAnswerKey linkProps linkSpan 1 "b"
  = Some [LinkTemplate "https://example.com" {["a"; "character"]} "b"].
Proof.
  destruct (link_character_target exampleTagString exampleAnswerKey
              linkProps linkSpan 1 "b" eq_refl eq_refl eq_refl eq_refl eq_refl)
    as [Hown _].
  rewrite Hown. vm_compute. reflexivity.
Defined.

End LinkCharactersFixtures.

(** ** Compositor: empty intervals *)

Section EmptyIntervals.
Import LumiSpanUtils LumiSpanViz.

Lemma markTag_empty cs tag :
  endIndex (position tag) ≤ startIndex (position tag) → markTag cs tag = cs.
Proof.
  intros Hle. unfold markTag, Js.forLoop.
  by replace (Z.to_nat (endIndex (position tag) - startIndex (position tag)))
    with 0%nat by lia.
Qed.

Lemma markHighlight_empty spanText cs h p :
  hl_position h = Some p → endIndex p ≤ startIndex p →
  markHighlight spanText cs h = cs.
Proof.
  intros Hp Hle. unfold markHighlight, Js.forLoop. rewrite Hp.
  by replace (Z.to_nat (endIndex p - startIndex p)) with 0%nat by lia.
Qed.

(** X25. A tag whose end offset is not after its start offset, as the
    zero-width tags of citations are, marks no character, and neither does a
    highlight with such a position: the table of counters is the one built
    without them, so that a zero-width citation tag hides no character of
    the text. *)
Theorem empty_intervals_mark_nothing (spanText : string)
    (before after : list InnerTag) (tag : InnerTag)
    (earlier later : list Highlight) (h : Highlight) (p : Position) :
  endIndex (position tag) ≤ startIndex (position tag) →
  hl_position h = Some p → endIndex p ≤ startIndex p →
  formattingCountersOf spanText (before ++ tag :: after) (earlier ++ h :: later)
  = formattingCountersOf spanText (before ++ after) (earlier ++ later).
Proof.
  intros Htag Hp Hh. unfold formattingCountersOf.
  rewrite !foldl_app. cbn [foldl].
  by rewrite (markTag_empty _ tag Htag), (markHighlight_empty _ _ h p Hp Hh).
Qed.

(** The citation fixture: its zero-width tag at offset 8 leaves the table
    of ["Sentence"] as it is without tags. *)
Lemma empty_intervals_mark_nothing_witness :
  formattingCountersOf "Sentence"
    [mkInnerTag REFERENCE (mkPosition 8 8) {["id" := "ref1, ref2"]} None]
    [mkHighlight "yellow" "s2" (Some (mkPosition 3 3)) None]
  = formattingCountersOf "Sentence" [] [].
Proof.
  apply (empty_intervals_mark_nothing "Sentence" [] []
           (mkInnerTag REFERENCE (mkPosition 8 8) {["id" := "ref1, ref2"]} None)
           [] [] (mkHighlight "yellow" "s2" (Some (mkPosition 3 3)) None)
           (mkPosition 3 3)).
  - simpl. lia.
  - reflexivity.
  - simpl. lia.
Defined.

End EmptyIntervals.
